(** * ProgramSearch: program graphs and the SMC search controller

    A shallow embedding of [src/programGraph.py] ([ProgramGraph],
    [ProgramPointerNetwork.repeatedlySample]) and of [src/SMC.py]
    ([SMC.__init__], [SMC.infer] with its local functions
    [objectEncoding], [scopeEncoding], [distance] and the local class
    [Particle]).  The later parts add the rest of [ProgramGraph]
    ([fromRoot], [policyOracle], [distanceOracle], [prettyPrint]) and of
    [ProgramPointerNetwork] ([initialHidden], [distance], [sample], the
    target lines of [gradientStep]).

    Conventions.
    - Python [int]s are [Z]; Python [float]s are idealised as the real
      numbers [R] of the Standard Library: rounding and underflow are
      not modelled, the [OverflowError] of [math.exp] is.
    - A [frozenset] of DSL objects is a [gset Node]; a [dict] keyed by DSL
      objects is a [gmap Node _]; a [dict] whose insertion order is
      observed ([sampleFrequency]) is an association list.
    - [ProgramGraph] defines neither [__eq__] nor [__hash__], so a graph
      used as a dictionary key is compared by object identity.  Every
      graph therefore carries the identity [gid] it got when it was
      allocated, and the state holds the next free identity.
    - Python exceptions are the constructors of [exn]; stateful code is
      written in a state-and-exception monad [M].
    - The learned model, the DSL and NumPy are collaborators outside the
      repository sources; they are the variables of [Section Search]. *)

From Stdlib Require Import ZArith List Lia Reals Lra.
From stdpp Require Import base decidable countable gmap list strings relations pretty.

Local Open Scope Z_scope.

(** ** Exceptions and the state-and-exception monad *)

Inductive exn : Type :=
| AssertionError
| KeyError
| IndexError
| ValueError
| ZeroDivisionError
| RuntimeError
| OverflowError.

Inductive result (A : Type) : Type :=
| OK (a : A)
| Raise (e : exn).
Arguments OK {A} a.
Arguments Raise {A} e.

Definition rbind {A B} (r : result A) (k : A -> result B) : result B :=
  match r with
  | OK a => k a
  | Raise e => Raise e
  end.

Fixpoint rmapM {A B} (f : A -> result B) (l : list A) : result (list B) :=
  match l with
  | [] => OK []
  | x :: l' => rbind (f x) (fun y => rbind (rmapM f l') (fun ys => OK (y :: ys)))
  end.

(** [M S A]: a computation over a state [S] that returns an [A] or raises. *)
Definition M (S A : Type) : Type := S -> result (A * S).

Definition ret {S A} (a : A) : M S A := fun st => OK (a, st).

Definition bind {S A B} (m : M S A) (k : A -> M S B) : M S B :=
  fun st =>
    match m st with
    | OK (a, st') => k a st'
    | Raise e => Raise e
    end.

Definition lift {S A} (r : result A) : M S A :=
  fun st =>
    match r with
    | OK a => OK (a, st)
    | Raise e => Raise e
    end.

Definition gets {S A} (f : S -> A) : M S A := fun st => OK (f st, st).

Definition modify {S} (f : S -> S) : M S unit := fun st => OK (tt, f st).

Notation "'let!' x ':=' m 'in' k" := (bind m (fun x => k))
  (at level 10, x pattern, m at level 100, k at level 200).
Notation "'do!' m 'in' k" := (bind m (fun _ => k))
  (at level 10, m at level 100, k at level 200).

(** [[f x for x in l]] with an effectful body. *)
Fixpoint mapM {S A B} (f : A -> M S B) (l : list A) : M S (list B) :=
  match l with
  | [] => ret []
  | x :: l' => let! y := f x in let! ys := mapM f l' in ret (y :: ys)
  end.

(** [for x in l: acc = f acc x]. *)
Fixpoint foldM {S A B} (f : B -> A -> M S B) (l : list A) (acc : B) : M S B :=
  match l with
  | [] => ret acc
  | x :: l' => let! acc' := f acc x in foldM f l' acc'
  end.

(** [for _ in range(n): acc = f acc]. *)
Fixpoint iterM {S B} (n : nat) (f : B -> M S B) (acc : B) : M S B :=
  match n with
  | O => ret acc
  | S n' => let! acc' := f acc in iterM n' f acc'
  end.

(** ** Python numerics used by [SMC.infer] *)

(** [math.log(x)] of an [int]: a [ValueError] outside the domain. *)
Definition math_log (x : Z) : result R :=
  if 0 <? x then OK (ln (IZR x)) else Raise ValueError.

(** The largest finite [float], [(2 - 2**-52) * 2**1023]. *)
Definition float_max : R := ((2 - / 2 ^ 52) * 2 ^ 1023)%R.

(** [math.exp(x)]: an [OverflowError] when the result is past the largest
    [float].  Rounding and underflow are not modelled. *)
Definition math_exp (x : R) : result R :=
  if Rle_dec (exp x) float_max then OK (exp x) else Raise OverflowError.

(** [max(l)]: a [ValueError] on an empty sequence. *)
Definition py_max (l : list R) : result R :=
  match l with
  | [] => Raise ValueError
  | x :: l' => OK (fold_left Rmax l' x)
  end.

(** [sum(l)]: starts from 0 and adds from the left. *)
Definition py_sum (l : list R) : R := fold_left Rplus l 0%R.

(** [p / d] on floats: a [ZeroDivisionError] when [d] is zero. *)
Definition py_div (p d : R) : result R :=
  if Req_dec_T d 0%R then Raise ZeroDivisionError else OK (p / d)%R.

(** ** Tensors *)

(** A 1-dimensional tensor and a 2-dimensional tensor (its rows). *)
Definition Vec : Type := list R.
Definition Mat : Type := list Vec.

(** [torch.zeros((r, c))]. *)
Definition torch_zeros (r c : nat) : Mat := repeat (repeat 0%R c) r.

(** [torch.stack(l)]: the tensors become the rows of the result; an empty
    list or tensors of different sizes raise a [RuntimeError]. *)
Definition torch_stack (l : list Vec) : result Mat :=
  match l with
  | [] => Raise RuntimeError
  | v :: l' =>
      if forallb (fun u => Nat.eqb (length u) (length v)) l'
      then OK l else Raise RuntimeError
  end.

(** Modelled from the spec: [Module.device] of [utilities] (not under
    src/) places a tensor on the model's device; the placeholder built by
    [scopeEncoding] reaches its consumers as the zero matrix itself, so the
    values of the tensor are unchanged. *)
Definition device (t : Mat) : Mat := t.

(** ** Tokens of a line of code *)

(** What [decoder.sample] yields: a lexicon string or a [Pointer(i)]. *)
Inductive token : Type :=
| TStr (s : string)
| TPointer (i : nat).

Section Search.

(** DSL objects: spec'd only through [execute], structural equality and
    hashing. *)
Context {Node : Type} `{Countable Node}.
Context {Spec Val SpecEnc Hidden World : Type}.

(** A line after [Pointer]s were replaced by the objects in scope. *)
Inductive line_token : Type :=
| LStr (s : string)
| LObj (o : Node).

(** *** [programGraph.ProgramGraph] *)

(** A graph object: its identity and its [nodes] attribute. *)
Record ProgramGraph : Type := mkProgramGraph {
  gid : nat;
  nodes : gset Node;
}.

(** The default [object.__eq__] (the class defines none): identity. *)
Definition graph_eqb (g1 g2 : ProgramGraph) : bool := Nat.eqb (gid g1) (gid g2).

(** The argument of [ProgramGraph.__init__]: a [frozenset], kept as it
    is, or another iterable, turned into one. *)
Inductive nodes_arg : Type :=
| Frozenset (s : gset Node)
| Iterable (l : list Node).

Definition to_frozenset (a : nodes_arg) : gset Node :=
  match a with
  | Frozenset s => s
  | Iterable l => list_to_set l
  end.

Definition len (g : ProgramGraph) : Z := Z.of_nat (size (nodes g)).

Definition objects (g : ProgramGraph) : gset Node := nodes g.

(** *** The collaborators of the search *)

(** [self.model]: the methods and attributes [SMC.infer] and
    [repeatedlySample] use.  Each call reads and advances the [World]
    (the network's and the sampler's state).  [initialHidden] is a method
    of the class itself, called by [repeatedlySample] and [sample]: it
    raises a [RuntimeError] when the sizes of its arguments do not fit
    its first layer, which is the result [None] here.  The encoders, the
    decoder and [self.model.distance], which [SMC] is given, are taken
    to return. *)
Record Model : Type := mkModel {
  specEncoder : Spec -> World -> SpecEnc * World;
  objectEncoder : Spec -> Val -> World -> Vec * World;
  outputDimensionality : nat;
  model_distance : Mat -> SpecEnc -> World -> R * World;
  initialHidden : Mat -> SpecEnc -> World -> option (Hidden * World);
  decoder_sample : Hidden -> option Mat -> World -> option (list token) * World;
  parseLine : list line_token -> option Node;
}.

(** [o.execute()]. *)
Variable execute : Node -> Val.

(** [np.random.multinomial(n, pvals)]. *)
Variable multinomial : Z -> list R -> World -> result (list Z * World).

(** *** The state of one search *)

Record State : Type := mkState {
  next_id : nat;                      (* next free object identity *)
  world : World;                      (* state of the collaborators *)
  _objectEncodings : gmap Node Vec;   (* [infer]'s local dict *)
  _distance : gmap nat R;             (* [infer]'s local dict, keyed by graph identity *)
  encoder_calls : list Node;          (* ghost: the calls of [objectEncoder], oldest first *)
  encoding_queries : list (Node * Vec);  (* ghost: the calls of [objectEncoding] with their results *)
}.

Definition set_next_id (n : nat) (st : State) : State :=
  mkState n (world st) (_objectEncodings st) (_distance st)
          (encoder_calls st) (encoding_queries st).
Definition set_world (w : World) (st : State) : State :=
  mkState (next_id st) w (_objectEncodings st) (_distance st)
          (encoder_calls st) (encoding_queries st).
Definition set_objectEncodings (c : gmap Node Vec) (st : State) : State :=
  mkState (next_id st) (world st) c (_distance st)
          (encoder_calls st) (encoding_queries st).
Definition set_distance (c : gmap nat R) (st : State) : State :=
  mkState (next_id st) (world st) (_objectEncodings st) c
          (encoder_calls st) (encoding_queries st).
Definition log_encoder_call (o : Node) (st : State) : State :=
  mkState (next_id st) (world st) (_objectEncodings st) (_distance st)
          (encoder_calls st ++ [o]) (encoding_queries st).
Definition log_query (o : Node) (oe : Vec) (st : State) : State :=
  mkState (next_id st) (world st) (_objectEncodings st) (_distance st)
          (encoder_calls st) (encoding_queries st ++ [(o, oe)]).

(** A call into a collaborator. *)
Definition call {A} (f : World -> A * World) : M State A :=
  fun st => let (a, w) := f (world st) in OK (a, set_world w st).

(** A call of [self.initialHidden]: [None] is its [RuntimeError]. *)
Definition call_head {A} (f : World -> option (A * World)) : M State A :=
  fun st =>
    match f (world st) with
    | Some (a, w) => OK (a, set_world w st)
    | None => Raise RuntimeError
    end.

(** [np.random.multinomial(n, pvals)] on the sampler's state: the counts,
    or the exception NumPy raises. *)
Definition call_multinomial (n : Z) (pvals : list R) : M State (list Z) :=
  fun st =>
    match multinomial n pvals (world st) with
    | OK (counts, w) => OK (counts, set_world w st)
    | Raise e => Raise e
    end.

(** [ProgramGraph(nodes)]: a new object. *)
Definition ProgramGraph_init (a : nodes_arg) : M State ProgramGraph :=
  fun st =>
    OK (mkProgramGraph (next_id st) (to_frozenset a), set_next_id (S (next_id st)) st).

(** [self.extend(newNode)]. *)
Definition extend (self : ProgramGraph) (newNode : Node) : M State ProgramGraph :=
  ProgramGraph_init (Frozenset (nodes self ∪ {[newNode]})).

(** *** [SMC] *)

Record SMC : Type := mkSMC {
  particles : Z;
  fitnessWeight : R;
  model : Model;
}.

(** [SMC.__init__(model, _, particles, fitnessWeight)]. *)
Definition SMC_init (m : Model) (particles : Z) (fitnessWeight : R) : result SMC :=
  if 0 <? particles then OK (mkSMC particles fitnessWeight m)
  else Raise AssertionError.

(** The defaults of the signature: [particles=0, fitnessWeight=2.]. *)
Definition default_particles : Z := 0.
Definition default_fitnessWeight : R := 2%R.

(** *** [ProgramPointerNetwork.repeatedlySample] *)

(** [objectEncodings[o]] on the dictionary passed in. *)
Definition dict_lookup (o : Node) : M State Vec :=
  let! cache := gets _objectEncodings in
  match cache !! o with
  | Some oe => ret oe
  | None => lift (Raise KeyError)
  end.

(** [objectsInScope[t.i] if isinstance(t, Pointer) else t]. *)
Definition substitutePointer (objectsInScope : list Node) (t : token)
  : result line_token :=
  match t with
  | TStr s => OK (LStr s)
  | TPointer i =>
      match objectsInScope !! i with
      | Some o => OK (LObj o)
      | None => Raise IndexError
      end
  end.

(** ['RETURN' in nextLineOfCode]. *)
Definition contains_RETURN (l : list line_token) : bool :=
  existsb (fun t => match t with
                    | LStr s => String.eqb s "RETURN"
                    | LObj _ => false
                    end) l.

(** One turn of the sampling loop; [samples] is the list built so far. *)
Definition sample_once (m : Model) (objectsInScope : list Node) (h0 : Hidden)
    (oe : Mat) (samples : list (option Node)) : M State (list (option Node)) :=
  let! nextLineOfCode :=
    call (decoder_sample m h0
            (if (0 <? Z.of_nat (length objectsInScope)) then Some oe else None)) in
  match nextLineOfCode with
  | None => ret samples
  | Some line =>
      let! nextLineOfCode := lift (rmapM (substitutePointer objectsInScope) line) in
      if contains_RETURN nextLineOfCode then ret (samples ++ [None])
      else
        match parseLine m nextLineOfCode with
        | Some nextObject => ret (samples ++ [Some nextObject])
        | None => ret samples
        end
  end.

(** [repeatedlySample(specEncoding, graph, objectEncodings, n_samples)]:
    the dictionary is the search's [_objectEncodings]; an entry [None]
    of the result stands for a sampled [RETURN]. *)
Definition repeatedlySample (m : Model) (specEncoding : SpecEnc)
    (graph : ProgramGraph) (n_samples : Z) : M State (list (option Node)) :=
  let objectsInScope := elements (objects graph) in
  let! oe :=
    (if 0 <? len graph
     then let! rows := mapM dict_lookup objectsInScope in lift (torch_stack rows)
     else ret (device (torch_zeros 1 (outputDimensionality m)))) in
  let! h0 := call_head (initialHidden m oe specEncoding) in
  iterM (Z.to_nat n_samples) (sample_once m objectsInScope h0 oe) [].

(** *** [SMC.infer] *)

(** The local class [Particle]. *)
Record Particle : Type := mkParticle {
  frequency : Z;
  graph : ProgramGraph;
  Particle_distance : R;
}.

Definition set_frequency (f : Z) (p : Particle) : Particle :=
  mkParticle f (graph p) (Particle_distance p).

(** [sampleFrequency]: a [dict] from graphs to counts; keys are compared
    by [graph_eqb] and kept in insertion order. *)
Definition tally : Type := list (ProgramGraph * Z).

(** [d.get(g, default)]. *)
Fixpoint dict_get (d : tally) (g : ProgramGraph) (default : Z) : Z :=
  match d with
  | [] => default
  | (k, v) :: d' => if graph_eqb k g then v else dict_get d' g default
  end.

(** [d[g] = v]. *)
Fixpoint dict_set (d : tally) (g : ProgramGraph) (v : Z) : tally :=
  match d with
  | [] => [(g, v)]
  | (k, x) :: d' =>
      if graph_eqb k g then (k, v) :: d' else (k, x) :: dict_set d' g v
  end.

Section Infer.

Variable self : SMC.
Variable spec : Spec.
Variable specEncoding : SpecEnc.

(** The local function [objectEncoding(o)]. *)
Definition objectEncoding (o : Node) : M State Vec :=
  let! cache := gets _objectEncodings in
  match cache !! o with
  | Some oe =>
      do! modify (log_query o oe) in
      ret oe
  | None =>
      let! oe := call (objectEncoder (model self) spec (execute o)) in
      do! modify (log_encoder_call o) in
      do! modify (fun st => set_objectEncodings (<[o := oe]> (_objectEncodings st)) st) in
      do! modify (log_query o oe) in
      ret oe
  end.

(** The local function [scopeEncoding(g)]. *)
Definition scopeEncoding (g : ProgramGraph) : M State Mat :=
  if 0 <? len g
  then let! rows := mapM objectEncoding (elements (objects g)) in
       lift (torch_stack rows)
  else ret (device (torch_zeros 1 (outputDimensionality (model self)))).

(** The local function [distance(g)]. *)
Definition distance (g : ProgramGraph) : M State R :=
  let! cache := gets _distance in
  match cache !! gid g with
  | Some d => ret d
  | None =>
      let! se := scopeEncoding g in
      let! d := call (model_distance (model self) se specEncoding) in
      do! modify (fun st => set_distance (<[gid g := d]> (_distance st)) st) in
      ret d
  end.

(** [Particle(graph, frequency)]. *)
Definition Particle_init (g : ProgramGraph) (f : Z) : M State Particle :=
  let! d := distance g in
  ret (mkParticle f g d).

(** The first three lines of the body of the inner loop: [newGraph] for
    one proposal [newObject] of particle [p]. *)
Definition newGraph (p : Particle) (newObject : option Node)
  : M State ProgramGraph :=
  match newObject with
  | Some o => do! objectEncoding o in extend (graph p) o
  | None => ret (graph p)
  end.

(** The body of the inner loop: one proposed object of particle [p]. *)
Definition tally_proposal (p : Particle) (sampleFrequency : tally)
    (newObject : option Node) : M State tally :=
  let! g := newGraph p newObject in
  ret (dict_set sampleFrequency g (dict_get sampleFrequency g 0 + 1)).

(** The body of the outer loop: the proposals of particle [p]. *)
Definition propose_particle (sampleFrequency : tally) (p : Particle)
  : M State tally :=
  let! proposals :=
    repeatedlySample (model self) specEncoding (graph p) (frequency p) in
  foldM (tally_proposal p) proposals sampleFrequency.

(** The proposal phase of a round: [sampleFrequency] after the loops. *)
Definition propose (population : list Particle) : M State tally :=
  foldM propose_particle population [].

(** [[math.log(p.frequency) - p.distance for p in samples]]. *)
Definition logWeights (samples : list Particle) : result (list R) :=
  rmapM (fun p => rbind (math_log (frequency p))
                    (fun l => OK (l - Particle_distance p)%R)) samples.

(** The two comprehensions that turn the log-weights into [ps]. *)
Definition normalize (logWeights : list R) : result (list R) :=
  rbind (rmapM (fun lw => rbind (py_max logWeights)
                            (fun mx => math_exp (lw - mx))) logWeights)
    (fun ps => rmapM (fun p => py_div p (py_sum ps)) ps).

(** The loop that builds the next population. *)
Definition survivors (samples : list Particle) (sampleFrequencies : list Z)
  : list Particle :=
  fold_left (fun population '(particle, frequency) =>
               if 0 <? frequency
               then population ++ [set_frequency frequency particle]
               else population)
            (combine samples sampleFrequencies) [].

(** The resampling phase of a round. *)
Definition resample (sampleFrequency : tally) : M State (list Particle) :=
  let! samples := mapM (fun '(g, f) => Particle_init g f) sampleFrequency in
  let! lws := lift (logWeights samples) in
  let! ps := lift (normalize lws) in
  let! sampleFrequencies := call_multinomial (particles self) ps in
  ret (survivors samples sampleFrequencies).

(** One turn of [for _ in range(maximumLength)]. *)
Definition round (population : list Particle) : M State (list Particle) :=
  let! sampleFrequency := propose population in
  resample sampleFrequency.

Definition rounds (n : nat) (population : list Particle)
  : M State (list Particle) :=
  iterM n round population.

End Infer.

(** The state at the entry of [infer]: both dictionaries empty. *)
Definition initial_state (fresh : nat) (w : World) : State :=
  mkState fresh w ∅ ∅ [] [].

(** [infer] up to the end of its loop, run for [n] rounds: the spec
    encoding and the population. *)
Definition infer_population (self : SMC) (spec : Spec) (n : nat)
  : M State (SpecEnc * list Particle) :=
  let! specEncoding := call (specEncoder (model self) spec) in
  let! g0 := ProgramGraph_init (Iterable []) in
  let! p0 := Particle_init self spec specEncoding g0 (particles self) in
  let! population := rounds self spec specEncoding n [p0] in
  ret (specEncoding, population).

(** [infer] as a computation on the state of the search. *)
Definition infer_body (self : SMC) (spec : Spec) (maximumLength : Z)
  : M State (list ProgramGraph) :=
  let! sp := infer_population self spec (Z.to_nat maximumLength) in
  ret (map graph (snd sp)).

(** [self.infer(spec, maximumLength)], run where [fresh] is the next free
    object identity and [w] the state of the collaborators. *)
Definition infer (self : SMC) (spec : Spec) (maximumLength : Z)
    (fresh : nat) (w : World) : result (list ProgramGraph * State) :=
  infer_body self spec maximumLength (initial_state fresh w).

Definition default_maximumLength : Z := 8.

(** *** Notions the properties are stated with *)

(** The number of population slots: the sum of the frequencies. *)
Definition sum_frequency (population : list Particle) : Z :=
  fold_right Z.add 0 (map frequency population).

(** What NumPy documents of [multinomial(n, pvals)] when it returns: one
    count per entry of [pvals], none negative, and, [pvals] not being
    empty, counts that add up to [n]. *)
Definition multinomial_contract : Prop :=
  forall n pvals w counts w',
    multinomial n pvals w = OK (counts, w') ->
    (length counts = length pvals)%nat /\
    Forall (fun c => 0 <= c) counts /\
    (pvals <> [] -> fold_right Z.add 0 counts = n).

(** The tally after one more proposal that yields the graph [g]. *)
Definition tally_add (sf : tally) (g : ProgramGraph) : tally :=
  dict_set sf g (dict_get sf g 0 + 1).

(** How many of the graphs [G] are the object [g]. *)
Definition occurrences (g : ProgramGraph) (G : list ProgramGraph) : nat :=
  length (List.filter (fun x => graph_eqb x g) G).

(** [yields population lo hi G]: [G] lists, in order, the graphs that the
    proposals of a round yield when the next free identity goes from [lo]
    to [hi]: the graph of a particle itself (a terminal proposal), or a
    new object holding the nodes of a particle's graph and one more. *)
Inductive yields (population : list Particle) : nat -> nat -> list ProgramGraph -> Prop :=
| yields_nil lo : yields population lo lo []
| yields_same lo hi p G :
    In p population -> yields population lo hi G ->
    yields population lo hi (graph p :: G)
| yields_new lo hi p o G :
    In p population -> yields population (S lo) hi G ->
    yields population lo hi (mkProgramGraph lo (nodes (graph p) ∪ {[o]}) :: G).

(** [estimates self spec specEncoding sf st samples st']: [samples] are
    the particles [Particle(g, f)] of the entries [(g, f)] of the tally
    [sf], built one after the other from the state [st], and [st'] is the
    state after the last.  The distance of a particle is the one the
    local function [distance] gives its graph at that point: the value
    stored under the graph in [_distance] when there is one; otherwise
    what [self.model.distance] returns on the scope encoding of the graph
    and the encoding of the spec, a value that is then stored. *)
Inductive estimates (self : SMC) (spec : Spec) (specEncoding : SpecEnc)
  : tally -> State -> list Particle -> State -> Prop :=
| estimates_nil st : estimates self spec specEncoding [] st [] st
| estimates_stored g f sf st d samples st' :
    _distance st !! gid g = Some d ->
    estimates self spec specEncoding sf st samples st' ->
    estimates self spec specEncoding ((g, f) :: sf) st
      (mkParticle f g d :: samples) st'
| estimates_model g f sf st se st1 d w samples st' :
    _distance st !! gid g = None ->
    scopeEncoding self spec g st = OK (se, st1) ->
    model_distance (model self) se specEncoding (world st1) = (d, w) ->
    estimates self spec specEncoding sf
      (set_distance (<[gid g := d]> (_distance st1)) (set_world w st1))
      samples st' ->
    estimates self spec specEncoding ((g, f) :: sf) st
      (mkParticle f g d :: samples) st'.

(** [proposed self spec specEncoding population st events st']: the two
    loops of the proposal phase, run on [population] from the state
    [st], end in [st'], and [events] lists the turns of the inner loop
    in order: the particle, the proposal [repeatedlySample] returned for
    it (an object, or [None] for a sampled [RETURN]), and the graph
    [newGraph] of that turn. *)
Inductive proposed (self : SMC) (spec : Spec) (specEncoding : SpecEnc)
  : list Particle -> State -> list (Particle * option Node * ProgramGraph)
    -> State -> Prop :=
| proposed_nil st : proposed self spec specEncoding [] st [] st
| proposed_cons p population st proposals st0 graphs st1 events st2 :
    repeatedlySample (model self) specEncoding (graph p) (frequency p) st
      = OK (proposals, st0) ->
    mapM (newGraph self spec p) proposals st0 = OK (graphs, st1) ->
    proposed self spec specEncoding population st1 events st2 ->
    proposed self spec specEncoding (p :: population) st
      (combine (map (pair p) proposals) graphs ++ events) st2.

(** The terminal proposals among [events] made by a particle that holds
    the graph object [g]. *)
Definition terminal_proposals (g : ProgramGraph)
    (events : list (Particle * option Node * ProgramGraph))
  : list (Particle * option Node * ProgramGraph) :=
  List.filter (fun e => match e.1.2 with
                        | None => graph_eqb (graph e.1.1) g
                        | Some _ => false
                        end) events.

(** NumPy accepts an empty [pvals] for [n] slots (and then returns an
    empty array). *)
Definition multinomial_accepts_empty (n : Z) : Prop :=
  forall w, exists counts w', multinomial n [] w = OK (counts, w').

End Search.

(** * Properties *)

(** ** Running monadic code *)

Lemma bind_OK {S A B} (m : M S A) (k : A -> M S B) st b st' :
  bind m k st = OK (b, st') ->
  exists a st1, m st = OK (a, st1) /\ k a st1 = OK (b, st').
Proof.
  unfold bind. destruct (m st) as [[a st1]|e]; [|discriminate].
  intros Hk. exists a, st1. split; [reflexivity|exact Hk].
Qed.

Lemma bind_run {S A B} (m : M S A) (k : A -> M S B) st a st1 :
  m st = OK (a, st1) -> bind m k st = k a st1.
Proof. unfold bind. intros ->. reflexivity. Qed.

Lemma lift_OK {S A} (r : result A) (st : S) a st' :
  lift r st = OK (a, st') -> r = OK a /\ st' = st.
Proof. unfold lift. destruct r; [|discriminate]. intros [= -> ->]. auto. Qed.

Lemma rbind_OK {A B} (r : result A) (k : A -> result B) b :
  rbind r k = OK b -> exists a, r = OK a /\ k a = OK b.
Proof. destruct r as [a|e]; [|discriminate]. simpl. eauto. Qed.

Lemma rmapM_map {A B} (f : A -> result B) (g : A -> B) l :
  (forall x, In x l -> f x = OK (g x)) -> rmapM f l = OK (map g l).
Proof.
  induction l as [|x l IH]; intros Hf; simpl; [reflexivity|].
  rewrite Hf by (left; reflexivity). simpl.
  rewrite IH by (intros y Hy; apply Hf; right; exact Hy). reflexivity.
Qed.

Lemma rmapM_length {A B} (f : A -> result B) l ys :
  rmapM f l = OK ys -> length ys = length l.
Proof.
  revert ys. induction l as [|x l IH]; simpl; intros ys Hys.
  - injection Hys as <-. reflexivity.
  - apply rbind_OK in Hys as (y & _ & Hys).
    apply rbind_OK in Hys as (ys' & Hl & Hys).
    injection Hys as <-. simpl. f_equal. apply IH. exact Hl.
Qed.

Lemma mapM_length {S A B} (f : A -> M S B) l st ys st' :
  mapM f l st = OK (ys, st') -> length ys = length l.
Proof.
  revert st ys st'. induction l as [|x l IH]; simpl; intros st ys st' Hys.
  - injection Hys as <- _. reflexivity.
  - apply bind_OK in Hys as (y & st1 & _ & Hys).
    apply bind_OK in Hys as (ys' & st2 & Hl & Hys).
    injection Hys as <- _. simpl. f_equal. eapply IH. exact Hl.
Qed.

Lemma iterM_add {S B} (f : B -> M S B) n m (acc : B) (st : S) :
  iterM (n + m) f acc st = bind (iterM n f acc) (iterM m f) st.
Proof.
  revert acc st. induction n as [|n IH]; intros acc st; simpl.
  - reflexivity.
  - unfold bind in *. destruct (f acc st) as [[acc' st1]|e]; [|reflexivity].
    apply IH.
Qed.

(** ** Relations between the state before and after a computation *)

Section Respects.

Context {S : Type} (Rel : S -> S -> Prop).
Hypothesis Rel_refl : forall st, Rel st st.
Hypothesis Rel_trans : forall st1 st2 st3, Rel st1 st2 -> Rel st2 st3 -> Rel st1 st3.

(** Every run of [m] that returns relates the state it starts from to
    the state it leaves. *)
Definition respects {A} (m : M S A) : Prop :=
  forall st a st', m st = OK (a, st') -> Rel st st'.

Lemma respects_ret {A} (a : A) : respects (ret a).
Proof. intros st b st' [= _ <-]. apply Rel_refl. Qed.

Lemma respects_lift {A} (r : result A) : respects (lift r).
Proof. intros st b st' Hr. apply lift_OK in Hr as [_ ->]. apply Rel_refl. Qed.

Lemma respects_gets {A} (f : S -> A) : respects (gets f).
Proof. intros st b st' [= _ <-]. apply Rel_refl. Qed.

Lemma respects_bind {A B} (m : M S A) (k : A -> M S B) :
  respects m -> (forall a, respects (k a)) -> respects (bind m k).
Proof.
  intros Hm Hk st b st' Hb. apply bind_OK in Hb as (a & st1 & H1 & H2).
  eapply Rel_trans; [eapply Hm, H1 | eapply Hk, H2].
Qed.

Lemma respects_mapM {A B} (f : A -> M S B) l :
  (forall x, respects (f x)) -> respects (mapM f l).
Proof.
  intros Hf. induction l as [|x l IH]; simpl.
  - apply respects_ret.
  - apply respects_bind; [apply Hf|]. intros y.
    apply respects_bind; [apply IH|]. intros ys. apply respects_ret.
Qed.

Lemma respects_foldM {A B} (f : B -> A -> M S B) l acc :
  (forall b x, respects (f b x)) -> respects (foldM f l acc).
Proof.
  intros Hf. revert acc. induction l as [|x l IH]; intros acc; simpl.
  - apply respects_ret.
  - apply respects_bind; [apply Hf|]. exact IH.
Qed.

Lemma respects_iterM {B} (f : B -> M S B) n acc :
  (forall b, respects (f b)) -> respects (iterM n f acc).
Proof.
  intros Hf. revert acc. induction n as [|n IH]; intros acc; simpl.
  - apply respects_ret.
  - apply respects_bind; [apply Hf|]. exact IH.
Qed.

End Respects.

Lemma respects_modify {S} (Rel : S -> S -> Prop) (f : S -> S) :
  (forall st, Rel st (f st)) -> respects Rel (modify f).
Proof. intros Hf st a st' [= _ <-]. apply Hf. Qed.

(** Walks through a computation built from the combinators above. *)
Ltac respects_step :=
  cbv beta;
  match goal with
  | |- respects _ (ret _) => apply respects_ret
  | |- respects _ (lift _) => apply respects_lift
  | |- respects _ (gets _) => apply respects_gets
  | |- respects _ (modify _) => apply respects_modify; intros ?
  | |- respects _ (bind _ _) => apply respects_bind; [ .. | intros ? ]
  | |- respects _ (mapM _ _) => apply respects_mapM; [ .. | intros ? ]
  | |- respects _ (foldM _ _ _) => apply respects_foldM; [ .. | intros ? ? ]
  | |- respects _ (iterM _ _ _) => apply respects_iterM; [ .. | intros ? ]
  | |- respects _ (match ?x with _ => _ end) => destruct x
  | _ => assumption
  | _ => solve [ auto ]
  end.

(** ** The softmax of [SMC.infer] *)

Lemma py_sum_acc (l : list R) (a : R) : fold_left Rplus l a = (a + py_sum l)%R.
Proof.
  unfold py_sum. revert a. induction l as [|x l IH]; intros a; simpl.
  - lra.
  - rewrite (IH (a + x)%R), (IH (0 + x)%R). lra.
Qed.

Lemma py_sum_cons (x : R) (l : list R) : py_sum (x :: l) = (x + py_sum l)%R.
Proof. unfold py_sum at 1. simpl. rewrite py_sum_acc. lra. Qed.

Lemma py_sum_map_div (l : list R) (s : R) :
  py_sum (map (fun p => p / s)%R l) = (py_sum l / s)%R.
Proof.
  induction l as [|x l IH]; simpl.
  - unfold py_sum. simpl. lra.
  - rewrite !py_sum_cons, IH. lra.
Qed.

Lemma py_sum_pos (l : list R) :
  l <> [] -> Forall (fun p => 0 < p)%R l -> (0 < py_sum l)%R.
Proof.
  intros Hne Hpos. destruct l as [|x l]; [congruence|]. clear Hne.
  revert x Hpos. induction l as [|y l IH]; intros x Hpos.
  - rewrite py_sum_cons. unfold py_sum. simpl.
    apply Forall_inv in Hpos. lra.
  - rewrite py_sum_cons. pose proof (Forall_inv Hpos) as Hx.
    apply Forall_inv_tail in Hpos. specialize (IH y Hpos). lra.
Qed.


Lemma fold_Rmax_ge (l : list R) (a : R) : (a <= fold_left Rmax l a)%R.
Proof.
  revert a. induction l as [|x l IH]; intros a; simpl.
  - lra.
  - eapply Rle_trans; [apply (Rmax_l a x)|apply IH].
Qed.

Lemma fold_Rmax_upper (l : list R) (a x : R) :
  In x l -> (x <= fold_left Rmax l a)%R.
Proof.
  revert a. induction l as [|y l IH]; intros a; simpl; [tauto|].
  intros [->|Hx].
  - eapply Rle_trans; [apply (Rmax_r a x)|apply fold_Rmax_ge].
  - apply IH. exact Hx.
Qed.


Lemma py_max_upper (l : list R) (mx : R) :
  py_max l = OK mx -> forall x, In x l -> (x <= mx)%R.
Proof.
  destruct l as [|a l]; [discriminate|]. intros [= <-] x [<-|Hx].
  - apply fold_Rmax_ge.
  - apply fold_Rmax_upper. exact Hx.
Qed.

Lemma float_max_ge_1 : (1 <= float_max)%R.
Proof.
  unfold float_max.
  assert (1 <= 2 ^ 52)%R as H52 by (apply pow_R1_Rle; lra).
  assert (1 <= 2 ^ 1023)%R as H1023 by (apply pow_R1_Rle; lra).
  assert (/ 2 ^ 52 <= 1)%R as Hinv.
  { rewrite <- Rinv_1. apply Rinv_le_contravar; lra. }
  assert (1 <= 2 - / 2 ^ 52)%R as Hm by lra.
  replace 1%R with (1 * 1)%R by lra.
  apply Rmult_le_compat; lra.
Qed.

(** No overflow at or below 0. *)
Lemma math_exp_nonpos (x : R) : (x <= 0)%R -> math_exp x = OK (exp x).
Proof.
  intros Hx. unfold math_exp. destruct (Rle_dec (exp x) float_max) as [_|Hbig];
    [reflexivity|].
  exfalso. apply Hbig. pose proof float_max_ge_1.
  assert (exp x <= 1)%R; [|lra].
  destruct (Rle_lt_or_eq_dec _ _ Hx) as [Hlt| ->]; [|rewrite exp_0; lra].
  rewrite <- exp_0. apply Rlt_le, exp_increasing, Hlt.
Qed.





(** The value of [normalize] on a non-empty list, in closed form. *)
Lemma normalize_closed_form (lws : list R) (mx : R) :
  py_max lws = OK mx ->
  normalize lws =
    OK (map (fun p => p / py_sum (map (fun lw => exp (lw - mx)) lws))%R
            (map (fun lw => exp (lw - mx))%R lws)).
Proof.
  intros Hmx. unfold normalize.
  rewrite (rmapM_map _ (fun lw => exp (lw - mx))%R).
  2:{ intros x Hx. rewrite Hmx. simpl. apply math_exp_nonpos.
      pose proof (py_max_upper _ _ Hmx x Hx). lra. }
  simpl. apply rmapM_map. intros p _. unfold py_div.
  destruct (Req_dec_T _ _) as [Hz|_]; [|reflexivity].
  exfalso.
  assert (0 < py_sum (map (fun lw => exp (lw - mx))%R lws))%R as Hpos; [|lra].
  apply py_sum_pos.
  - destruct lws; [discriminate|]. simpl. congruence.
  - apply List.Forall_forall. intros y Hy. apply in_map_iff in Hy as (lw & <- & _).
    apply exp_pos.
Qed.



Section SearchFacts.

Context {Node : Type} `{Countable Node}.
Context {Spec Val SpecEnc Hidden World : Type}.
Variable execute : Node -> Val.
Variable multinomial : Z -> list R -> World -> result (list Z * World).

Local Abbreviation Model := (@Model Node Spec Val SpecEnc Hidden World).
Local Abbreviation SMC := (@SMC Node Spec Val SpecEnc Hidden World).
Local Abbreviation State := (@State Node _ _ World).
Local Abbreviation ProgramGraph := (@ProgramGraph Node _ _).
Local Abbreviation Particle := (@Particle Node _ _).
Local Abbreviation tally := (@tally Node _ _).

Implicit Types (self : SMC) (spec : Spec) (specEncoding : SpecEnc) (m : Model).
Implicit Types (st : State) (o : Node) (g : ProgramGraph) (p : Particle).
Implicit Types (sf : tally) (population : list Particle).

(** *** Construction *)

(** C9: building the controller with [particles <= 0], the default 0
    included, raises at once (the assertion of [__init__], before any
    attribute is set and before any search), and with [particles > 0]
    it returns the controller holding its three arguments. *)
Theorem SMC_init_requires_particles (m : Model) (n : Z) (fw : R) :
  (n <= 0 -> SMC_init m n fw = Raise AssertionError) /\
  (0 < n -> SMC_init m n fw = OK (mkSMC n fw m)) /\
  SMC_init m default_particles default_fitnessWeight = Raise AssertionError.
Proof.
  unfold SMC_init, default_particles. repeat split.
  - intros Hn. destruct (0 <? n) eqn:E; [lia|reflexivity].
  - intros Hn. destruct (0 <? n) eqn:E; [reflexivity|lia].
Qed.

(** *** Program graphs *)

Lemma extend_run (self : ProgramGraph) (newNode : Node) (st : State) :
  extend self newNode st =
    OK (mkProgramGraph (next_id st) (nodes self ∪ {[newNode]}),
        set_next_id (S (next_id st)) st).
Proof. reflexivity. Qed.

(** C10: [g.extend(n)] returns a new graph object whose [objects()] are
    those of [g] together with [n]; [g] itself, an immutable value, is
    what it was (the call only takes a fresh identity from the state,
    and the result is not [g] when [g] was allocated before).  When [n]
    is already in [g] the result has the objects and the length of [g];
    in general the length grows by at most one. *)
Theorem extend_objects (g : ProgramGraph) (n : Node) (st : State) :
  exists g',
    extend g n st = OK (g', set_next_id (S (next_id st)) st) /\
    objects g' = objects g ∪ {[n]} /\
    (forall x, x ∈ objects g' <-> x ∈ objects g \/ x = n) /\
    (n ∈ objects g -> objects g' = objects g /\ len g' = len g) /\
    (n ∉ objects g -> len g' = len g + 1) /\
    len g <= len g' <= len g + 1 /\
    ((gid g < next_id st)%nat -> graph_eqb g g' = false).
Proof.
  exists (mkProgramGraph (next_id st) (nodes g ∪ {[n]})).
  split; [apply extend_run|]. unfold objects, len. simpl.
  assert (n ∈ nodes g -> nodes g ∪ {[n]} = nodes g) as Hin by set_solver.
  assert (n ∉ nodes g -> size (nodes g ∪ {[n]}) = Datatypes.S (size (nodes g))) as Hout.
  { intros Hn. rewrite size_union by set_solver. rewrite size_singleton. lia. }
  split; [reflexivity|]. split; [set_solver|]. split.
  { intros Hn. rewrite (Hin Hn). split; reflexivity. }
  split.
  { intros Hn. rewrite (Hout Hn). lia. }
  split.
  { destruct (decide (n ∈ nodes g)) as [Hn|Hn].
    - rewrite (Hin Hn). lia.
    - rewrite (Hout Hn). lia. }
  intros Hlt. unfold graph_eqb. simpl. apply Nat.eqb_neq. lia.
Qed.

(** *** Frame lemmas

    A relation between states that is a preorder, that holds across the
    elementary changes of the state ([Rel_world], [Rel_distance]) and
    across [objectEncoding], holds across every function of the search
    that allocates no graph; with [Rel_alloc] it holds across whole
    rounds. *)

Section Frame.

Variable Rel : State -> State -> Prop.
Hypothesis Rel_refl : forall st, Rel st st.
Hypothesis Rel_trans : forall st1 st2 st3, Rel st1 st2 -> Rel st2 st3 -> Rel st1 st3.
Hypothesis Rel_world : forall st w, Rel st (set_world w st).
Hypothesis Rel_distance : forall st c, Rel st (set_distance c st).
Hypothesis Rel_alloc : forall st, Rel st (set_next_id (S (next_id st)) st).

Variable self : SMC.
Variable spec : Spec.
Hypothesis Rel_objectEncoding :
  forall o, respects Rel (objectEncoding execute self spec o).

Lemma call_respects {A} (f : World -> A * World) : respects Rel (call f).
Proof.
  intros st a st'. unfold call. destruct (f (world st)) as [b w].
  intros [= _ <-]. apply Rel_world.
Qed.

Lemma call_head_respects {A} (f : World -> option (A * World)) :
  respects Rel (call_head f).
Proof.
  intros st a st'. unfold call_head. destruct (f (world st)) as [[b w]|];
    [|discriminate].
  intros [= _ <-]. apply Rel_world.
Qed.

Lemma call_multinomial_respects n ps :
  respects Rel (call_multinomial multinomial n ps).
Proof.
  intros st a st'. unfold call_multinomial.
  destruct (multinomial n ps (world st)) as [[cs w]|e]; [|discriminate].
  intros [= _ <-]. apply Rel_world.
Qed.

Lemma ProgramGraph_init_respects a : respects Rel (ProgramGraph_init a).
Proof. intros st g st' [= _ <-]. apply Rel_alloc. Qed.

Local Hint Resolve call_respects call_head_respects call_multinomial_respects
  ProgramGraph_init_respects : core.

Lemma dict_lookup_respects o : respects Rel (dict_lookup o).
Proof. unfold dict_lookup. repeat respects_step. Qed.

Lemma sample_once_respects (m : Model) objectsInScope (h0 : Hidden) oe samples :
  respects Rel (sample_once m objectsInScope h0 oe samples).
Proof. unfold sample_once. repeat respects_step. Qed.

Local Hint Resolve dict_lookup_respects sample_once_respects : core.

Lemma repeatedlySample_respects (m : Model) (specEncoding : SpecEnc) g n :
  respects Rel (repeatedlySample m specEncoding g n).
Proof. unfold repeatedlySample. repeat respects_step. Qed.

Lemma scopeEncoding_respects g :
  respects Rel (scopeEncoding execute self spec g).
Proof. unfold scopeEncoding. repeat respects_step. Qed.

Local Hint Resolve repeatedlySample_respects scopeEncoding_respects : core.

Lemma distance_respects (specEncoding : SpecEnc) g :
  respects Rel (distance execute self spec specEncoding g).
Proof. unfold distance. repeat respects_step. Qed.

Local Hint Resolve distance_respects : core.

Lemma Particle_init_respects (specEncoding : SpecEnc) g f :
  respects Rel (Particle_init execute self spec specEncoding g f).
Proof. unfold Particle_init. repeat respects_step. Qed.

Lemma tally_proposal_respects p sf newObject :
  respects Rel (tally_proposal execute self spec p sf newObject).
Proof. unfold tally_proposal, newGraph, extend. repeat respects_step. Qed.

Local Hint Resolve Particle_init_respects tally_proposal_respects : core.

Lemma propose_particle_respects (specEncoding : SpecEnc) sf p :
  respects Rel (propose_particle execute self spec specEncoding sf p).
Proof. unfold propose_particle. repeat respects_step. Qed.

Local Hint Resolve propose_particle_respects : core.

Lemma propose_respects (specEncoding : SpecEnc) population :
  respects Rel (propose execute self spec specEncoding population).
Proof. unfold propose. repeat respects_step. Qed.

Lemma resample_respects (specEncoding : SpecEnc) sf :
  respects Rel (resample execute multinomial self spec specEncoding sf).
Proof. unfold resample. repeat respects_step. Qed.

Local Hint Resolve propose_respects resample_respects : core.

Lemma round_respects (specEncoding : SpecEnc) population :
  respects Rel (round execute multinomial self spec specEncoding population).
Proof. unfold round. repeat respects_step. Qed.

Local Hint Resolve round_respects : core.

Lemma rounds_respects (specEncoding : SpecEnc) n population :
  respects Rel (rounds execute multinomial self spec specEncoding n population).
Proof. unfold rounds. repeat respects_step. Qed.

Local Hint Resolve rounds_respects : core.

Lemma infer_population_respects n :
  respects Rel (infer_population execute multinomial self spec n).
Proof. unfold infer_population. repeat respects_step. Qed.

Local Hint Resolve infer_population_respects : core.

Lemma infer_body_respects maximumLength :
  respects Rel (infer_body execute multinomial self spec maximumLength).
Proof. unfold infer_body. repeat respects_step. Qed.

End Frame.

(** *** The encoding cache *)


Lemma call_run {A} (f : World -> A * World) (st : State) :
  call f st = OK ((f (world st)).1, set_world (f (world st)).2 st).
Proof. unfold call. destruct (f (world st)); reflexivity. Qed.

(** The two ways [objectEncoding] runs: a hit returns the stored value; a
    miss calls the encoder once and stores what it returned. *)
Lemma objectEncoding_hit self spec (o : Node) (st : State) oe :
  _objectEncodings st !! o = Some oe ->
  objectEncoding execute self spec o st = OK (oe, log_query o oe st).
Proof.
  intros Hhit. unfold objectEncoding, bind, gets. rewrite Hhit. reflexivity.
Qed.

Lemma objectEncoding_miss self spec (o : Node) (st : State) :
  _objectEncodings st !! o = None ->
  let r := objectEncoder (model self) spec (execute o) (world st) in
  objectEncoding execute self spec o st =
    OK (r.1, log_query o r.1
               (set_objectEncodings (<[o := r.1]> (_objectEncodings st))
                  (log_encoder_call o (set_world r.2 st)))).
Proof.
  intros Hmiss r. unfold objectEncoding, bind, gets. rewrite Hmiss.
  rewrite call_run. reflexivity.
Qed.

(** What the search keeps true of its object cache: no object was sent
    to the encoder twice, every object sent is stored, and every value
    [objectEncoding] handed out is the stored one. *)
Definition cache_inv (st : State) : Prop :=
  NoDup (encoder_calls st) /\
  (forall o, o ∈ encoder_calls st -> is_Some (_objectEncodings st !! o)) /\
  (forall o e, (o, e) ∈ encoding_queries st -> _objectEncodings st !! o = Some e).

Definition keeps_cache_inv (st st' : State) : Prop := cache_inv st -> cache_inv st'.

(** Entries of the object cache are never changed or removed. *)
Definition cache_extends (st st' : State) : Prop :=
  forall o e, _objectEncodings st !! o = Some e -> _objectEncodings st' !! o = Some e.

Lemma cache_inv_initial fresh (w : World) : cache_inv (initial_state fresh w).
Proof.
  unfold cache_inv, initial_state. simpl. split; [constructor|].
  split; intros; exfalso; eapply not_elem_of_nil; eassumption.
Qed.

Lemma objectEncoding_keeps_cache_inv self spec o :
  respects keeps_cache_inv (objectEncoding execute self spec o).
Proof.
  intros st oe st' Hrun (Hnd & Hcalls & Hq).
  destruct (_objectEncodings st !! o) as [e|] eqn:E.
  - rewrite (objectEncoding_hit _ _ _ _ _ E) in Hrun. injection Hrun as <- <-.
    unfold cache_inv. simpl. split; [exact Hnd|]. split; [exact Hcalls|].
    intros o' e' Hin. apply elem_of_app in Hin as [Hin|Hin]; [auto|].
    apply list_elem_of_singleton in Hin. injection Hin as -> ->. exact E.
  - rewrite (objectEncoding_miss _ _ _ _ E) in Hrun. simpl in Hrun.
    injection Hrun as <- <-. unfold cache_inv. simpl.
    assert (o ∉ encoder_calls st) as Hfresh.
    { intros Hin. apply Hcalls in Hin as [e He]. congruence. }
    split.
    { apply NoDup_app. split; [exact Hnd|]. split.
      - intros x Hx Hx'. apply list_elem_of_singleton in Hx'. congruence.
      - apply NoDup_singleton. }
    split.
    { intros o' Hin. apply elem_of_app in Hin as [Hin|Hin].
      - destruct (decide (o = o')) as [->|Hne].
        + rewrite lookup_insert_eq. eauto.
        + rewrite lookup_insert_ne by exact Hne. auto.
      - apply list_elem_of_singleton in Hin as ->. rewrite lookup_insert_eq. eauto. }
    intros o' e' Hin. apply elem_of_app in Hin as [Hin|Hin].
    + specialize (Hq _ _ Hin). destruct (decide (o = o')) as [->|Hne]; [congruence|].
      rewrite lookup_insert_ne by exact Hne. exact Hq.
    + apply list_elem_of_singleton in Hin. injection Hin as -> ->.
      apply lookup_insert_eq.
Qed.

Lemma objectEncoding_cache_extends self spec o :
  respects cache_extends (objectEncoding execute self spec o).
Proof.
  intros st oe st' Hrun o' e' Ho'.
  destruct (_objectEncodings st !! o) as [e|] eqn:E.
  - rewrite (objectEncoding_hit _ _ _ _ _ E) in Hrun. injection Hrun as <- <-.
    exact Ho'.
  - rewrite (objectEncoding_miss _ _ _ _ E) in Hrun. simpl in Hrun.
    injection Hrun as <- <-. simpl.
    destruct (decide (o = o')) as [->|Hne]; [congruence|].
    rewrite lookup_insert_ne by exact Hne. exact Ho'.
Qed.

Lemma objectEncoding_stored self spec o (st : State) oe st' :
  objectEncoding execute self spec o st = OK (oe, st') ->
  _objectEncodings st' !! o = Some oe.
Proof.
  intros Hrun. destruct (_objectEncodings st !! o) as [e|] eqn:E.
  - rewrite (objectEncoding_hit _ _ _ _ _ E) in Hrun. injection Hrun as <- <-.
    exact E.
  - rewrite (objectEncoding_miss _ _ _ _ E) in Hrun. simpl in Hrun.
    injection Hrun as <- <-. simpl. apply lookup_insert_eq.
Qed.

Lemma objectEncoding_total self spec o (st : State) :
  exists oe st', objectEncoding execute self spec o st = OK (oe, st').
Proof.
  destruct (_objectEncodings st !! o) as [e|] eqn:E.
  - rewrite (objectEncoding_hit _ _ _ _ _ E). eauto.
  - rewrite (objectEncoding_miss _ _ _ _ E). eauto.
Qed.


Lemma keeps_cache_inv_refl st : keeps_cache_inv st st.
Proof. intros Hinv. exact Hinv. Qed.

Lemma keeps_cache_inv_trans st1 st2 st3 :
  keeps_cache_inv st1 st2 -> keeps_cache_inv st2 st3 -> keeps_cache_inv st1 st3.
Proof. unfold keeps_cache_inv. auto. Qed.

Lemma cache_extends_refl st : cache_extends st st.
Proof. intros o e He. exact He. Qed.

Lemma cache_extends_trans st1 st2 st3 :
  cache_extends st1 st2 -> cache_extends st2 st3 -> cache_extends st1 st3.
Proof. unfold cache_extends. auto. Qed.

(** A whole run of [infer] keeps the invariant of the object cache. *)
Lemma infer_body_keeps_cache_inv self spec maximumLength :
  respects keeps_cache_inv (infer_body execute multinomial self spec maximumLength).
Proof.
  apply infer_body_respects.
  - apply keeps_cache_inv_refl.
  - apply keeps_cache_inv_trans.
  - intros st w Hinv. exact Hinv.
  - intros st c Hinv. exact Hinv.
  - intros st Hinv. exact Hinv.
  - apply objectEncoding_keeps_cache_inv.
Qed.

(** C8: in the state a run of [infer] ends in, no object occurs twice
    among the calls made to the object encoder, any two values that
    [objectEncoding] returned for the same object during the run are the
    same value, and it is the stored one.  [objectEncoding] itself never
    raises: in every state it returns a value and leaves it stored under
    the object; on a hit that is the value already stored and the encoder
    is not called, on a miss the encoder is called once, for that
    object. *)
Theorem infer_object_cache self spec maximumLength fresh (w : World) out st :
  infer execute multinomial self spec maximumLength fresh w = OK (out, st) ->
  NoDup (encoder_calls st) /\
  (forall o e1 e2,
      (o, e1) ∈ encoding_queries st -> (o, e2) ∈ encoding_queries st -> e1 = e2) /\
  (forall o e, (o, e) ∈ encoding_queries st -> _objectEncodings st !! o = Some e) /\
  (forall o st0, exists oe st1,
      objectEncoding execute self spec o st0 = OK (oe, st1) /\
      _objectEncodings st1 !! o = Some oe /\
      (forall e, _objectEncodings st0 !! o = Some e ->
                 oe = e /\ encoder_calls st1 = encoder_calls st0 /\
                 _objectEncodings st1 = _objectEncodings st0) /\
      (_objectEncodings st0 !! o = None ->
       oe = (objectEncoder (model self) spec (execute o) (world st0)).1 /\
       encoder_calls st1 = encoder_calls st0 ++ [o])).
Proof.
  intros Hrun.
  pose proof (infer_body_keeps_cache_inv _ _ _ _ _ _ Hrun (cache_inv_initial fresh w))
    as (Hnd & _ & Hq).
  split; [exact Hnd|]. split.
  { intros o e1 e2 H1 H2. apply Hq in H1, H2. congruence. }
  split; [exact Hq|].
  intros o st0. destruct (_objectEncodings st0 !! o) as [e|] eqn:E.
  - exists e, (log_query o e st0).
    split; [apply objectEncoding_hit; exact E|]. split; [exact E|].
    split; [|discriminate]. intros e' [= <-]. auto.
  - eexists _, _. split; [apply objectEncoding_miss; exact E|]. simpl.
    split; [apply lookup_insert_eq|]. split; [discriminate|]. auto.
Qed.


(** *** Encoding a scope *)

Lemma len_empty_graph fresh : len (mkProgramGraph fresh (∅ : gset Node)) = 0.
Proof. unfold len. cbn [nodes]. rewrite size_empty. reflexivity. Qed.

Lemma scopeEncoding_empty self spec g st :
  len g = 0 ->
  scopeEncoding execute self spec g st =
    OK ([repeat 0%R (outputDimensionality (model self))], st).
Proof. intros Hlen. unfold scopeEncoding. rewrite Hlen. reflexivity. Qed.

Lemma scopeEncoding_nonempty self spec g st :
  0 < len g ->
  scopeEncoding execute self spec g st =
    (let! rows := mapM (objectEncoding execute self spec) (elements (objects g)) in
     lift (torch_stack rows)) st.
Proof.
  intros Hlen. unfold scopeEncoding.
  destruct (0 <? len g) eqn:E; [reflexivity|lia].
Qed.

(** The rows [[objectEncoding(o) for o in os]] are the stored encodings. *)
Lemma mapM_objectEncoding_rows self spec (os : list Node) st rows st' :
  mapM (objectEncoding execute self spec) os st = OK (rows, st') ->
  length rows = length os /\
  forall i o, os !! i = Some o ->
    exists oe, rows !! i = Some oe /\ _objectEncodings st' !! o = Some oe.
Proof.
  revert st rows st'. induction os as [|o os IH]; intros st rows st' Hrun.
  - injection Hrun as <- <-. split; [reflexivity|]. intros i o Hi. discriminate.
  - simpl in Hrun.
    apply bind_OK in Hrun as (oe & st1 & Ho & Hrun).
    apply bind_OK in Hrun as (rows' & st2 & Hos & Hrun).
    injection Hrun as <- <-.
    destruct (IH _ _ _ Hos) as [Hlen Hrows].
    split; [simpl; congruence|].
    intros [|i] o' Hi; simpl in *.
    + injection Hi as <-. exists oe. split; [reflexivity|].
      eapply (respects_mapM cache_extends cache_extends_refl cache_extends_trans);
        [apply objectEncoding_cache_extends|exact Hos|].
      eapply objectEncoding_stored. exact Ho.
    + apply Hrows. exact Hi.
Qed.

(** With an encoder of fixed output width, and a cache that holds vectors
    of that width, the comprehension returns and its rows have the width. *)
Lemma mapM_objectEncoding_total self spec (os : list Node) st :
  let d := outputDimensionality (model self) in
  (forall v w, length (objectEncoder (model self) spec v w).1 = d) ->
  (forall o e, _objectEncodings st !! o = Some e -> length e = d) ->
  exists rows st',
    mapM (objectEncoding execute self spec) os st = OK (rows, st') /\
    Forall (fun r => length r = d) rows /\
    (forall o e, _objectEncodings st' !! o = Some e -> length e = d).
Proof.
  intros d Henc. revert st. induction os as [|o os IH]; intros st Hst.
  - exists [], st. split; [reflexivity|]. split; [constructor|exact Hst].
  - assert (exists oe st1, objectEncoding execute self spec o st = OK (oe, st1) /\
              length oe = d /\
              (forall o e, _objectEncodings st1 !! o = Some e -> length e = d))
      as (oe & st1 & Ho & Hoe & Hst1).
    { destruct (_objectEncodings st !! o) as [e|] eqn:E.
      - eexists _, _. split; [apply objectEncoding_hit; exact E|].
        split; [eapply Hst; exact E|exact Hst].
      - eexists _, _. split; [apply objectEncoding_miss; exact E|].
        split; [apply Henc|]. simpl. intros o' e'.
        destruct (decide (o = o')) as [->|Hne].
        + rewrite lookup_insert_eq. intros [= <-]. apply Henc.
        + rewrite lookup_insert_ne by exact Hne. apply Hst. }
    destruct (IH st1 Hst1) as (rows & st' & Hos & Hrows & Hst').
    exists (oe :: rows), st'. split.
    { simpl. rewrite (bind_run _ _ _ _ _ Ho), (bind_run _ _ _ _ _ Hos). reflexivity. }
    split; [constructor; assumption|exact Hst'].
Qed.

Lemma torch_stack_same_width (rows : list Vec) (d : nat) :
  rows <> [] -> Forall (fun r => length r = d) rows -> torch_stack rows = OK rows.
Proof.
  intros Hne Hd. destruct rows as [|v rows]; [congruence|]. unfold torch_stack.
  pose proof (Forall_inv Hd) as Hv. apply Forall_inv_tail in Hd.
  replace (forallb _ rows) with true; [reflexivity|].
  symmetry. apply forallb_forall. intros u Hu.
  rewrite List.Forall_forall in Hd. rewrite (Hd u Hu), Hv. apply Nat.eqb_refl.
Qed.

(** C7: on an empty graph [scopeEncoding] returns, without touching the
    state, the zero matrix with exactly one row of the object encoder's
    output width; on any other graph what it returns is the stack of the
    encodings of the graph's objects, one row per object, each row the
    (cached) encoding of that object, and it does return whenever the
    encoder's outputs and the cached vectors have that width (the
    condition under which [torch.stack] accepts them). *)
Theorem scopeEncoding_spec self spec g st :
  (len g = 0 ->
   scopeEncoding execute self spec g st
     = OK (torch_zeros 1 (outputDimensionality (model self)), st) /\
   torch_zeros 1 (outputDimensionality (model self))
     = [repeat 0%R (outputDimensionality (model self))]) /\
  (0 < len g ->
   forall mat st', scopeEncoding execute self spec g st = OK (mat, st') ->
     length mat = size (objects g) /\
     forall i o, elements (objects g) !! i = Some o ->
       exists oe, mat !! i = Some oe /\ _objectEncodings st' !! o = Some oe) /\
  (0 < len g ->
   (forall v w, length (objectEncoder (model self) spec v w).1
                = outputDimensionality (model self)) ->
   (forall o e, _objectEncodings st !! o = Some e ->
                length e = outputDimensionality (model self)) ->
   exists mat st', scopeEncoding execute self spec g st = OK (mat, st')).
Proof.
  split; [|split].
  - intros Hlen. split; [|reflexivity]. apply scopeEncoding_empty. exact Hlen.
  - intros Hlen mat st' Hrun. rewrite (scopeEncoding_nonempty _ _ _ _ Hlen) in Hrun.
    apply bind_OK in Hrun as (rows & st1 & Hrows & Hstack).
    apply lift_OK in Hstack as [Hstack ->].
    assert (mat = rows) as ->.
    { unfold torch_stack in Hstack. destruct rows; [discriminate|].
      destruct (forallb _ _); [|discriminate]. congruence. }
    destruct (mapM_objectEncoding_rows _ _ _ _ _ _ Hrows) as [Hl Hr].
    split; [|exact Hr]. rewrite Hl. reflexivity.
  - intros Hlen Henc Hst. rewrite (scopeEncoding_nonempty _ _ _ _ Hlen).
    destruct (mapM_objectEncoding_total self spec (elements (objects g)) st Henc Hst)
      as (rows & st' & Hrows & Hwidth & _).
    exists rows, st'. rewrite (bind_run _ _ _ _ _ Hrows).
    rewrite (torch_stack_same_width rows (outputDimensionality (model self)));
      [reflexivity| |exact Hwidth].
    intros ->. apply mapM_length in Hrows. simpl in Hrows.
    unfold len, objects in *. unfold size, set_size in Hlen. simpl in Hlen.
    rewrite <- Hrows in Hlen. simpl in Hlen. lia.
Qed.


(** *** The start of a search *)

(** The population [infer] builds before its loop: the particle of a
    freshly allocated empty graph, all [particles] slots on it. *)
Lemma initial_population self spec fresh (w : World) :
  let se := specEncoder (model self) spec w in
  let g0 := mkProgramGraph fresh (∅ : gset Node) in
  let d := model_distance (model self)
             (torch_zeros 1 (outputDimensionality (model self))) se.1 se.2 in
  let p0 := mkParticle (particles self) g0 d.1 in
  let st := mkState (S fresh) d.2 ∅ {[ fresh := d.1 ]} [] [] in
  forall n,
    infer_population execute multinomial self spec n (initial_state fresh w) =
      (let! population := rounds execute multinomial self spec se.1 n [p0] in
       ret (se.1, population)) st.
Proof.
  intros se g0 d p0 st n.
  unfold infer_population. unfold bind at 1. rewrite call_run. fold se.
  unfold bind at 1. unfold ProgramGraph_init at 1. cbn [to_frozenset list_to_set foldr].
  unfold bind at 1. unfold Particle_init at 1, distance at 1.
  unfold bind at 1 2, gets. cbn [_distance set_next_id set_world initial_state gid].
  rewrite lookup_empty.
  unfold bind at 1.
  rewrite (scopeEncoding_empty _ _ _ _ (len_empty_graph fresh)).
  unfold bind at 1. rewrite call_run.
  reflexivity.
Qed.

(** C6: with [maximumLength = 0] the loop of [infer] runs no round; the
    population is the initial one, a single particle that holds the empty
    graph with frequency [particles], and the list returned is exactly
    that graph. *)
Theorem infer_zero_rounds self spec fresh (w : World) :
  exists specEncoding p0 st,
    infer_population execute multinomial self spec (Z.to_nat 0) (initial_state fresh w)
      = OK ((specEncoding, [p0]), st) /\
    frequency p0 = particles self /\
    nodes (graph p0) = ∅ /\
    len (graph p0) = 0 /\
    infer execute multinomial self spec 0 fresh w = OK ([graph p0], st).
Proof.
  eexists _, _, _. split.
  { rewrite initial_population. reflexivity. }
  split; [reflexivity|]. split; [reflexivity|]. split; [apply len_empty_graph|].
  unfold infer, infer_body. unfold bind at 1. rewrite initial_population.
  reflexivity.
Qed.


(** *** Weights *)

Lemma logWeights_value (samples : list Particle) lws :
  logWeights samples = OK lws ->
  lws = map (fun p => ln (IZR (frequency p)) - Particle_distance p)%R samples /\
  Forall (fun p => 0 < frequency p) samples.
Proof.
  revert lws. induction samples as [|p samples IH]; intros lws Hrun.
  - injection Hrun as <-. split; [reflexivity|constructor].
  - unfold logWeights in Hrun. simpl in Hrun.
    apply rbind_OK in Hrun as (lw & Hlw & Hrun).
    apply rbind_OK in Hrun as (lws' & Hrest & Hrun). injection Hrun as <-.
    apply rbind_OK in Hlw as (l & Hl & Hlw). injection Hlw as <-.
    unfold math_log in Hl. destruct (0 <? frequency p) eqn:E; [|discriminate].
    injection Hl as <-. destruct (IH _ Hrest) as [-> Hpos].
    split; [reflexivity|]. constructor; [lia|exact Hpos].
Qed.

Lemma logWeights_positive (samples : list Particle) :
  Forall (fun p => 0 < frequency p) samples ->
  logWeights samples =
    OK (map (fun p => ln (IZR (frequency p)) - Particle_distance p)%R samples).
Proof.
  intros Hpos. unfold logWeights. apply rmapM_map. intros p Hp.
  rewrite List.Forall_forall in Hpos. specialize (Hpos p Hp).
  unfold math_log. destruct (0 <? frequency p) eqn:E; [reflexivity|lia].
Qed.

(** The particles built from a tally: one per entry, in order, with the
    entry's graph and count and the value [distance] returned for the
    graph. *)
Lemma mapM_Particle_init self spec specEncoding sf st samples st' :
  mapM (fun '(g, f) => Particle_init execute self spec specEncoding g f) sf st
    = OK (samples, st') ->
  map (fun p => (graph p, frequency p)) samples = sf /\
  Forall (fun p => exists sa sb,
            distance execute self spec specEncoding (graph p) sa
              = OK (Particle_distance p, sb)) samples.
Proof.
  revert st samples st'. induction sf as [|[g f] sf IH]; intros st samples st' Hrun.
  - injection Hrun as <- <-. split; [reflexivity|constructor].
  - simpl in Hrun. apply bind_OK in Hrun as (p & st1 & Hp & Hrun).
    apply bind_OK in Hrun as (ps & st2 & Hps & Hrun). injection Hrun as <- <-.
    destruct (IH _ _ _ Hps) as [Hmap Hall].
    unfold Particle_init in Hp. apply bind_OK in Hp as (d & st0 & Hd & Hp).
    injection Hp as <- <-. split; [simpl; congruence|].
    constructor; [|exact Hall]. simpl. eauto.
Qed.




(** *** Resampling *)

Lemma survivors_acc (l : list (Particle * Z)) (acc : list Particle) :
  fold_left (fun population '(particle, frequency) =>
               if 0 <? frequency
               then population ++ [set_frequency frequency particle]
               else population) l acc
  = acc ++ flat_map (fun '(particle, frequency) =>
                       if 0 <? frequency then [set_frequency frequency particle]
                       else []) l.
Proof.
  revert acc. induction l as [|[p c] l IH]; intros acc; simpl.
  - rewrite app_nil_r. reflexivity.
  - rewrite IH. destruct (0 <? c); [rewrite <- app_assoc|]; reflexivity.
Qed.

Lemma sum_frequency_app (l1 l2 : list Particle) :
  sum_frequency (l1 ++ l2) = sum_frequency l1 + sum_frequency l2.
Proof.
  unfold sum_frequency. induction l1 as [|p l1 IH]; simpl; [reflexivity|].
  rewrite IH. lia.
Qed.

(** Dropping the particles with a zero count keeps the total. *)
Lemma survivors_sum (samples : list Particle) (counts : list Z) :
  length counts = length samples ->
  Forall (fun c => 0 <= c) counts ->
  sum_frequency (survivors samples counts) = fold_right Z.add 0 counts.
Proof.
  unfold survivors. rewrite survivors_acc. simpl.
  revert counts. induction samples as [|p samples IH]; intros [|c counts] Hlen Hpos;
    simpl in *; try discriminate; [reflexivity|].
  pose proof (Forall_inv Hpos) as Hc. simpl in Hc. apply Forall_inv_tail in Hpos.
  rewrite sum_frequency_app, IH by (congruence || assumption).
  destruct (0 <? c) eqn:E.
  - unfold sum_frequency. simpl. lia.
  - apply Z.ltb_ge in E. unfold sum_frequency. simpl. lia.
Qed.

Lemma resample_empty self spec specEncoding st :
  resample execute multinomial self spec specEncoding [] st =
    (let! counts := call_multinomial multinomial (particles self) [] in
     ret (survivors [] counts)) st.
Proof. reflexivity. Qed.

Lemma survivors_nil (counts : list Z) : survivors ([] : list Particle) counts = [].
Proof. reflexivity. Qed.

(** C3 (as amended): under NumPy's contract for the multinomial draw, in
    every round that completes the resampled population is empty when
    the round's tally was empty, and otherwise the frequencies of its
    particles add up to [particles] exactly: the counts drawn add up to
    [particles] and the particles dropped are those with count 0. *)
Theorem round_conserves_particles self spec specEncoding population st population' st' :
  multinomial_contract multinomial ->
  round execute multinomial self spec specEncoding population st = OK (population', st') ->
  exists sf st1,
    propose execute self spec specEncoding population st = OK (sf, st1) /\
    resample execute multinomial self spec specEncoding sf st1 = OK (population', st') /\
    ((sf = [] /\ population' = [] /\ sum_frequency population' = 0) \/
     (sf <> [] /\ sum_frequency population' = particles self)).
Proof.
  intros Hnumpy Hrun. unfold round in Hrun.
  apply bind_OK in Hrun as (sf & st1 & Hsf & Hrun).
  exists sf, st1. split; [exact Hsf|]. split; [exact Hrun|].
  unfold resample in Hrun.
  apply bind_OK in Hrun as (samples & st2 & Hsamples & Hrun).
  apply bind_OK in Hrun as (lws & st3 & Hlws & Hrun).
  apply lift_OK in Hlws as [Hlws ->].
  apply bind_OK in Hrun as (ps & st3 & Hps & Hrun).
  apply lift_OK in Hps as [Hps ->].
  apply bind_OK in Hrun as (counts & st3 & Hcounts & Hrun).
  injection Hrun as <- <-.
  pose proof (mapM_length _ _ _ _ _ Hsamples) as Hlen1.
  destruct sf as [|entry sf].
  - left. destruct samples; [|discriminate]. auto.
  - right. split; [discriminate|].
    pose proof (rmapM_length _ _ _ Hlws) as Hlen2.
    assert (length ps = length lws) as Hlen3.
    { unfold normalize in Hps. apply rbind_OK in Hps as (es & Hes & Hps).
      apply rmapM_length in Hes, Hps. congruence. }
    unfold call_multinomial in Hcounts.
    destruct (multinomial (particles self) ps (world st2)) as [[cs w']|e] eqn:Hm;
      [|discriminate].
    injection Hcounts as <- _.
    destruct (Hnumpy _ _ _ _ _ Hm) as (Hlen4 & Hpos & Hsum).
    rewrite survivors_sum; [|congruence|exact Hpos].
    apply Hsum. intros ->. simpl in *. destruct lws; [|discriminate].
    destruct samples; discriminate.
Qed.

(** *** An empty tally *)

(** C2: when the proposal phase of some round of [infer] ends with an
    empty tally (the oracle returned no candidate for any particle) and
    NumPy's draw accepts the empty distribution, the round completes with
    an empty population, every later round does too, and [infer] returns
    the empty list; the controller's own comprehensions ([max], [sum],
    the division) raise nothing on the empty lists. *)
Theorem infer_empty_tally self spec (j k : nat) fresh (w : World)
    specEncoding population st st1 :
  multinomial_accepts_empty multinomial (particles self) ->
  infer_population execute multinomial self spec j (initial_state fresh w)
    = OK ((specEncoding, population), st) ->
  propose execute self spec specEncoding population st = OK ([], st1) ->
  (exists st2, round execute multinomial self spec specEncoding population st
               = OK ([], st2)) /\
  (exists st', infer execute multinomial self spec (Z.of_nat (j + S k)) fresh w
               = OK ([], st')).
Proof.
  intros Hempty Hprefix Htally.
  assert (forall st, exists st',
             resample execute multinomial self spec specEncoding [] st = OK ([], st'))
    as Hresample.
  { intros s. rewrite resample_empty. unfold bind, call_multinomial.
    destruct (Hempty (world s)) as (cs & w' & ->). eauto. }
  assert (exists st2, round execute multinomial self spec specEncoding population st
                      = OK ([], st2)) as (st2 & Hround).
  { unfold round. rewrite (bind_run _ _ _ _ _ Htally). apply Hresample. }
  split; [eauto|].
  assert (forall n s, exists s',
             rounds execute multinomial self spec specEncoding n [] s = OK ([], s'))
    as Hrounds.
  { induction n as [|n IH]; intros s.
    - exists s. reflexivity.
    - destruct (Hresample s) as (s1 & Hs1). destruct (IH s1) as (s2 & Hs2).
      exists s2. unfold rounds in *. simpl.
      assert (round execute multinomial self spec specEncoding [] s = OK ([], s1))
        as Hr by exact Hs1.
      rewrite (bind_run _ _ _ _ _ Hr). exact Hs2. }
  destruct (Hrounds k st2) as (st' & Hrest).
  exists st'. unfold infer, infer_body. rewrite Nat2Z.id.
  unfold infer_population in *.
  apply bind_OK in Hprefix as (se & s1 & Hse & Hprefix).
  apply bind_OK in Hprefix as (g0 & s2 & Hg0 & Hprefix).
  apply bind_OK in Hprefix as (p0 & s3 & Hp0 & Hprefix).
  apply bind_OK in Hprefix as (pop & s4 & Hpop & Hprefix).
  injection Hprefix as -> -> ->.
  unfold bind at 1. unfold bind at 1. rewrite Hse.
  unfold bind at 1. rewrite Hg0. unfold bind at 1. rewrite Hp0.
  unfold bind at 1. unfold rounds in *. rewrite iterM_add.
  unfold bind at 1. rewrite Hpop. simpl iterM. unfold bind at 1.
  rewrite Hround. rewrite Hrest. reflexivity.
Qed.


(** *** The tally of a round *)

Lemma graph_eqb_refl g : graph_eqb g g = true.
Proof. apply Nat.eqb_refl. Qed.

Lemma graph_eqb_eq g1 g2 : graph_eqb g1 g2 = true <-> gid g1 = gid g2.
Proof. apply Nat.eqb_eq. Qed.

Lemma dict_get_set sf g g' v d :
  dict_get (dict_set sf g v) g' d = if graph_eqb g g' then v else dict_get sf g' d.
Proof.
  induction sf as [|[k x] sf IH]; simpl.
  - reflexivity.
  - destruct (graph_eqb k g) eqn:Ekg; simpl.
    + apply graph_eqb_eq in Ekg. unfold graph_eqb. rewrite Ekg.
      destruct (gid g =? gid g')%nat; reflexivity.
    + rewrite IH. unfold graph_eqb in *.
      destruct (Nat.eqb_spec (gid k) (gid g')) as [Hkg'|Hkg']; [|reflexivity].
      destruct (Nat.eqb_spec (gid g) (gid g')) as [Hgg'|Hgg']; [|reflexivity].
      apply Nat.eqb_neq in Ekg. congruence.
Qed.

Lemma dict_get_tally_add sf g g' :
  dict_get (tally_add sf g) g' 0
  = dict_get sf g' 0 + (if graph_eqb g g' then 1 else 0).
Proof.
  unfold tally_add. rewrite dict_get_set.
  destruct (graph_eqb g g') eqn:E; [|lia].
  unfold graph_eqb in E. apply Nat.eqb_eq in E.
  assert (forall d, dict_get sf g d = dict_get sf g' d) as ->; [|lia].
  intros d. induction sf as [|[k x] sf IH]; simpl; [reflexivity|].
  unfold graph_eqb. rewrite E, IH. reflexivity.
Qed.

(** The frequency of an entry is the number of proposals that yielded
    that very object. *)
Lemma dict_get_fold_tally_add (G : list ProgramGraph) sf g :
  dict_get (fold_left tally_add G sf) g 0
  = dict_get sf g 0 + Z.of_nat (occurrences g G).
Proof.
  revert sf. induction G as [|x G IH]; intros sf; simpl.
  - unfold occurrences. simpl. lia.
  - rewrite IH, dict_get_tally_add. unfold occurrences. simpl.
    destruct (graph_eqb x g); simpl; lia.
Qed.

Lemma dict_set_keys sf g v :
  map (fun e => gid e.1) (dict_set sf g v)
  = if existsb (fun e => graph_eqb e.1 g) sf
    then map (fun e => gid e.1) sf
    else map (fun e => gid e.1) sf ++ [gid g].
Proof.
  induction sf as [|[k x] sf IH]; simpl; [reflexivity|].
  destruct (graph_eqb k g) eqn:E; simpl; [reflexivity|].
  rewrite IH. destruct (existsb _ sf); reflexivity.
Qed.

(** The tally holds one entry per graph object. *)
Lemma tally_add_NoDup sf g :
  NoDup (map (fun e => gid e.1) sf) ->
  NoDup (map (fun e => gid e.1) (tally_add sf g)).
Proof.
  intros Hnd. unfold tally_add. rewrite dict_set_keys.
  destruct (existsb _ sf) eqn:E; [exact Hnd|].
  apply NoDup_app. split; [exact Hnd|]. split; [|apply NoDup_singleton].
  intros i Hi Hi'. apply list_elem_of_singleton in Hi'. subst i.
  apply list_elem_of_In, in_map_iff in Hi as ([k x] & Hk & Hin).
  assert (existsb (fun e => graph_eqb e.1 g) sf = true) as E'; [|congruence].
  apply existsb_exists. exists (k, x). split; [exact Hin|].
  apply Nat.eqb_eq. exact Hk.
Qed.

Lemma fold_tally_add_NoDup (G : list ProgramGraph) sf :
  NoDup (map (fun e => gid e.1) sf) ->
  NoDup (map (fun e => gid e.1) (fold_left tally_add G sf)).
Proof.
  revert sf. induction G as [|x G IH]; intros sf Hnd; simpl; [exact Hnd|].
  apply IH, tally_add_NoDup, Hnd.
Qed.

(** Every key of the tally is one of the graphs proposed (or was a key
    before), and its count is positive. *)
Lemma tally_add_entries sf g e :
  In e (tally_add sf g) -> (In e.1 (map fst sf) \/ e.1 = g).
Proof.
  unfold tally_add. generalize (dict_get sf g 0 + 1). intros v.
  induction sf as [|[k x] sf IH]; simpl.
  - intros [<-|[]]. right. reflexivity.
  - destruct (graph_eqb k g) eqn:E; simpl.
    + intros [<-|Hin]; [left; left; reflexivity|].
      left. right. apply in_map_iff. exists e. auto.
    + intros [<-|Hin]; [left; left; reflexivity|].
      destruct (IH Hin) as [Hl|Hr]; [left; right; exact Hl|right; exact Hr].
Qed.

Lemma fold_tally_add_entries (G : list ProgramGraph) sf e :
  In e (fold_left tally_add G sf) -> In e.1 (map fst sf) \/ In e.1 G.
Proof.
  revert sf. induction G as [|x G IH]; intros sf; simpl.
  - intros Hin. left. apply in_map_iff. exists e. auto.
  - intros Hin. destruct (IH _ Hin) as [Hl|Hr]; [|auto].
    apply in_map_iff in Hl as (e' & He' & Hin').
    destruct (tally_add_entries _ _ _ Hin') as [Hl|Hr]; rewrite <- He'; auto.
Qed.

(** *** The graphs a round's proposals yield *)

Lemma yields_le population lo hi G : yields population lo hi G -> (lo <= hi)%nat.
Proof. induction 1; lia. Qed.

Lemma yields_app population lo mid hi G1 G2 :
  yields population lo mid G1 -> yields population mid hi G2 ->
  yields population lo hi (G1 ++ G2).
Proof.
  induction 1 as [lo|lo mid p G Hp HG IH|lo mid p o G Hp HG IH]; intros H2; simpl.
  - exact H2.
  - apply yields_same; [exact Hp|apply IH, H2].
  - apply yields_new; [exact Hp|apply IH, H2].
Qed.

Lemma yields_weaken population population' lo hi G :
  (forall p, In p population -> In p population') ->
  yields population lo hi G -> yields population' lo hi G.
Proof.
  intros Hsub. induction 1.
  - apply yields_nil.
  - apply yields_same; auto.
  - apply yields_new; auto.
Qed.

(** A graph of [G] is the graph of a particle or a new object. *)
Lemma yields_elements population lo hi G :
  yields population lo hi G ->
  Forall (fun g => (exists p, In p population /\ g = graph p) \/
                   ((lo <= gid g < hi)%nat /\
                    exists p o, In p population /\
                                nodes g = nodes (graph p) ∪ {[o]})) G.
Proof.
  induction 1 as [lo|lo hi p G Hp HG IH|lo hi p o G Hp HG IH].
  - constructor.
  - constructor; [left; eauto|exact IH].
  - pose proof (yields_le _ _ _ _ HG) as Hle. constructor.
    + right. simpl. split; [lia|eauto].
    + eapply Forall_impl; [exact IH|]. simpl. intros g [Hg|[Hg Hn]]; [auto|].
      right. split; [lia|exact Hn].
Qed.

(** A new object occurs once among the graphs yielded, whatever its
    nodes. *)
Lemma yields_new_once population lo hi G g :
  Forall (fun p => (gid (graph p) < lo)%nat) population ->
  yields population lo hi G ->
  (lo <= gid g)%nat -> In g G -> occurrences g G = 1%nat.
Proof.
  intros Hold HG. revert Hold.
  assert (forall lo hi G, yields population lo hi G ->
            Forall (fun p => (gid (graph p) < lo)%nat) population ->
            forall g, (gid g < lo)%nat \/ (hi <= gid g)%nat ->
                      (forall p, In p population -> gid (graph p) <> gid g) ->
                      occurrences g G = 0%nat) as Hnone.
  { clear. intros lo hi G HG.
    induction HG as [lo|lo hi p G Hp HG IH|lo hi p o G Hp HG IH];
      intros Hold g Hg Hne; unfold occurrences in *; simpl.
    - reflexivity.
    - unfold graph_eqb at 1. destruct (Nat.eqb_spec (gid (graph p)) (gid g)) as [E|E].
      + exfalso. exact (Hne p Hp E).
      + apply IH; assumption.
    - pose proof (yields_le _ _ _ _ HG) as Hle.
      unfold graph_eqb at 1. simpl.
      destruct (Nat.eqb_spec lo (gid g)) as [E|E]; [lia|].
      apply IH; [|lia|exact Hne].
      eapply Forall_impl; [exact Hold|]. simpl. intros; lia. }
  induction HG as [lo|lo hi p G Hp HG IH|lo hi p o G Hp HG IH];
    intros Hold Hlo Hin; unfold occurrences in *; simpl in *.
  - contradiction.
  - rewrite List.Forall_forall in Hold. pose proof (Hold p Hp) as Hp'.
    unfold graph_eqb at 1. destruct (Nat.eqb_spec (gid (graph p)) (gid g)) as [E|E]; [lia|].
    destruct Hin as [<-|Hin]; [congruence|].
    apply IH; [apply List.Forall_forall; exact Hold|exact Hlo|exact Hin].
  - unfold graph_eqb at 1. simpl.
    assert (Forall (fun p => (gid (graph p) < S lo)%nat) population) as Hold'.
    { eapply Forall_impl; [exact Hold|]. simpl. intros; lia. }
    destruct (Nat.eqb_spec lo (gid g)) as [E|E].
    + simpl. f_equal. apply (Hnone _ _ _ HG Hold'); [lia|].
      intros q Hq. rewrite List.Forall_forall in Hold. specialize (Hold q Hq). lia.
    + destruct Hin as [<-|Hin]; [simpl in E; congruence|].
      apply IH; [exact Hold'|lia|exact Hin].
Qed.


(** Only [ProgramGraph(...)] takes a new identity. *)
Definition same_next_id (st st' : State) : Prop := next_id st' = next_id st.

Lemma objectEncoding_same_next_id self spec o :
  respects same_next_id (objectEncoding execute self spec o).
Proof.
  intros st oe st' Hrun. unfold same_next_id.
  destruct (_objectEncodings st !! o) as [e|] eqn:E.
  - rewrite (objectEncoding_hit _ _ _ _ _ E) in Hrun. injection Hrun as _ <-.
    reflexivity.
  - rewrite (objectEncoding_miss _ _ _ _ E) in Hrun. simpl in Hrun.
    injection Hrun as _ <-. reflexivity.
Qed.

Lemma repeatedlySample_same_next_id m specEncoding g n :
  respects same_next_id (repeatedlySample m specEncoding g n).
Proof.
  apply repeatedlySample_respects; unfold same_next_id; intros; simpl; congruence.
Qed.

Lemma tally_proposal_yields self spec p sf newObject st sf' st' :
  tally_proposal execute self spec p sf newObject st = OK (sf', st') ->
  exists g, sf' = tally_add sf g /\ yields [p] (next_id st) (next_id st') [g].
Proof.
  unfold tally_proposal, newGraph. intros Hrun.
  apply bind_OK in Hrun as (g & st1 & Hg & Hrun). injection Hrun as <- <-.
  exists g. split; [reflexivity|].
  destruct newObject as [o|].
  - apply bind_OK in Hg as (oe & st0 & Hoe & Hg).
    apply objectEncoding_same_next_id in Hoe. unfold same_next_id in Hoe.
    rewrite extend_run in Hg. injection Hg as <- <-. simpl. rewrite Hoe.
    apply yields_new; [left; reflexivity|apply yields_nil].
  - injection Hg as <- <-. apply yields_same; [left; reflexivity|apply yields_nil].
Qed.

Lemma foldM_tally_proposal_yields self spec p proposals sf st sf' st' :
  foldM (tally_proposal execute self spec p) proposals sf st = OK (sf', st') ->
  exists G, sf' = fold_left tally_add G sf /\
            yields [p] (next_id st) (next_id st') G.
Proof.
  revert sf st. induction proposals as [|x proposals IH]; intros sf st Hrun; simpl in Hrun.
  - injection Hrun as <- <-. exists []. split; [reflexivity|apply yields_nil].
  - apply bind_OK in Hrun as (sf1 & st1 & Hx & Hrun).
    apply tally_proposal_yields in Hx as (g & -> & Hg).
    apply IH in Hrun as (G & -> & HG).
    exists ([g] ++ G). split; [reflexivity|].
    eapply yields_app; eassumption.
Qed.

Lemma propose_particle_yields self spec specEncoding sf p st sf' st' :
  propose_particle execute self spec specEncoding sf p st = OK (sf', st') ->
  exists G, sf' = fold_left tally_add G sf /\
            yields [p] (next_id st) (next_id st') G.
Proof.
  unfold propose_particle. intros Hrun.
  apply bind_OK in Hrun as (proposals & st1 & Hsample & Hrun).
  apply repeatedlySample_same_next_id in Hsample. unfold same_next_id in Hsample.
  rewrite <- Hsample. eapply foldM_tally_proposal_yields. exact Hrun.
Qed.

Lemma foldM_propose_particle_yields self spec specEncoding population sf st sf' st' :
  foldM (propose_particle execute self spec specEncoding) population sf st
    = OK (sf', st') ->
  exists G, sf' = fold_left tally_add G sf /\
            yields population (next_id st) (next_id st') G.
Proof.
  revert sf st. induction population as [|p population IH]; intros sf st Hrun;
    simpl in Hrun.
  - injection Hrun as <- <-. exists []. split; [reflexivity|apply yields_nil].
  - apply bind_OK in Hrun as (sf1 & st1 & Hp & Hrun).
    apply propose_particle_yields in Hp as (G1 & -> & HG1).
    apply IH in Hrun as (G2 & -> & HG2).
    exists (G1 ++ G2). split; [rewrite fold_left_app; reflexivity|].
    eapply yields_app.
    + eapply yields_weaken; [|exact HG1]. intros q [<-|[]]. left. reflexivity.
    + eapply yields_weaken; [|exact HG2]. intros q Hq. right. exact Hq.
Qed.

Lemma dict_get_In sf g c d :
  NoDup (map (fun e => gid e.1) sf) -> In (g, c) sf -> dict_get sf g d = c.
Proof.
  induction sf as [|[k x] sf IH]; simpl; [tauto|].
  intros Hnd [Heq|Hin].
  - injection Heq as -> ->. rewrite graph_eqb_refl. reflexivity.
  - apply NoDup_cons in Hnd as [Hk Hnd].
    destruct (graph_eqb k g) eqn:E; [|apply IH; assumption].
    exfalso. apply Hk. apply graph_eqb_eq in E. rewrite E.
    apply list_elem_of_In, in_map_iff. exists (g, c). auto.
Qed.

(** The tally of a proposal phase run on particles whose graphs were
    allocated before. *)
Lemma propose_tally self spec specEncoding population st sf st' :
  Forall (fun p => (gid (graph p) < next_id st)%nat) population ->
  propose execute self spec specEncoding population st = OK (sf, st') ->
  exists G,
    yields population (next_id st) (next_id st') G /\
    sf = fold_left tally_add G [] /\
    NoDup (map (fun e => gid e.1) sf) /\
    (forall g, dict_get sf g 0 = Z.of_nat (occurrences g G)) /\
    (forall g c, In (g, c) sf -> In g G /\ c = Z.of_nat (occurrences g G)) /\
    (forall g c, In (g, c) sf ->
       (exists p, In p population /\ g = graph p) \/
       ((next_id st <= gid g < next_id st')%nat /\ c = 1 /\
        exists p o, In p population /\ nodes g = nodes (graph p) ∪ {[o]})).
Proof.
  intros Hold Hrun. unfold propose in Hrun.
  apply foldM_propose_particle_yields in Hrun as (G & -> & HG).
  exists G. split; [exact HG|]. split; [reflexivity|].
  assert (NoDup (map (fun e : ProgramGraph * Z => gid e.1) (fold_left tally_add G [])))
    as Hnd by (apply fold_tally_add_NoDup; constructor).
  split; [exact Hnd|].
  assert (forall g, dict_get (fold_left tally_add G []) g 0 = Z.of_nat (occurrences g G))
    as Hcount by (intros g; rewrite dict_get_fold_tally_add; simpl; lia).
  split; [exact Hcount|].
  assert (forall g c, In (g, c) (fold_left tally_add G []) ->
                      In g G /\ c = Z.of_nat (occurrences g G)) as Hentries.
  { intros g c Hin. split.
    - destruct (fold_tally_add_entries _ _ _ Hin) as [[]|Hg]. exact Hg.
    - rewrite <- Hcount. symmetry. apply dict_get_In; assumption. }
  split; [exact Hentries|].
  intros g c Hin. destruct (Hentries g c Hin) as [Hg ->].
  pose proof (yields_elements _ _ _ _ HG) as Hall.
  rewrite List.Forall_forall in Hall. destruct (Hall g Hg) as [Hsame|[Hrange Hnew]].
  - left. exact Hsame.
  - right. split; [exact Hrange|]. split; [|exact Hnew].
    rewrite (yields_new_once _ _ _ _ g Hold HG); [reflexivity|lia|exact Hg].
Qed.

(** The graphs of a population are objects allocated before the round. *)
Lemma survivors_graphs (samples : list Particle) (counts : list Z) p :
  In p (survivors samples counts) -> exists q, In q samples /\ graph p = graph q.
Proof.
  unfold survivors. rewrite survivors_acc. simpl. intros Hin.
  apply in_flat_map in Hin as ([q c] & Hqc & Hin).
  apply in_combine_l in Hqc. destruct (0 <? c); [|contradiction].
  destruct Hin as [<-|[]]. exists q. split; [exact Hqc|reflexivity].
Qed.

Lemma resample_same_next_id self spec specEncoding sf :
  respects same_next_id (resample execute multinomial self spec specEncoding sf).
Proof.
  apply resample_respects; unfold same_next_id; intros; simpl; try congruence.
  apply objectEncoding_same_next_id.
Qed.

Lemma round_allocated self spec specEncoding population st population' st' :
  Forall (fun p => (gid (graph p) < next_id st)%nat) population ->
  round execute multinomial self spec specEncoding population st
    = OK (population', st') ->
  Forall (fun p => (gid (graph p) < next_id st')%nat) population'.
Proof.
  intros Hold Hrun. unfold round in Hrun.
  apply bind_OK in Hrun as (sf & st1 & Hsf & Hrun).
  destruct (propose_tally _ _ _ _ _ _ _ Hold Hsf) as (G & HG & _ & _ & _ & _ & Hkeys).
  pose proof (yields_le _ _ _ _ HG) as Hle.
  pose proof (resample_same_next_id _ _ _ _ _ _ _ Hrun) as Hid.
  unfold same_next_id in Hid. unfold resample in Hrun.
  apply bind_OK in Hrun as (samples & st2 & Hsamples & Hrun).
  apply bind_OK in Hrun as (lws & st3 & _ & Hrun).
  apply bind_OK in Hrun as (ps & st4 & _ & Hrun).
  apply bind_OK in Hrun as (counts & st5 & _ & Hrun).
  injection Hrun as <- <-.
  apply mapM_Particle_init in Hsamples as [Hmap _].
  apply List.Forall_forall. intros p Hp.
  apply survivors_graphs in Hp as (q & Hq & ->).
  assert (In (graph q, frequency q) sf) as Hin.
  { rewrite <- Hmap. apply in_map_iff. exists q. auto. }
  rewrite List.Forall_forall in Hold.
  destruct (Hkeys _ _ Hin) as [(p0 & Hp0 & ->)|[Hrange _]].
  - specialize (Hold p0 Hp0). lia.
  - lia.
Qed.

Lemma infer_population_allocated self spec n fresh (w : World) specEncoding population st :
  infer_population execute multinomial self spec n (initial_state fresh w)
    = OK ((specEncoding, population), st) ->
  Forall (fun p => (gid (graph p) < next_id st)%nat) population.
Proof.
  rewrite initial_population. intros Hrun.
  apply bind_OK in Hrun as (pop & st1 & Hrun & Hret). injection Hret as _ <- <-.
  revert Hrun. generalize (specEncoder (model self) spec w).1. intros se.
  match goal with
  | |- rounds _ _ _ _ _ _ ?pop0 ?st0 = _ -> _ =>
      assert (Forall (fun p => (gid (graph p) < next_id st0)%nat) pop0) as Hinit
        by (repeat constructor);
      generalize dependent pop0; generalize st0
  end.
  unfold rounds. induction n as [|n IH]; intros st0 pop0 Hinit Hrun; simpl in Hrun.
  - injection Hrun as <- <-. exact Hinit.
  - apply bind_OK in Hrun as (pop1 & st2 & Hround & Hrun).
    eapply IH; [|exact Hrun]. eapply round_allocated; eassumption.
Qed.



(** *** Running a round *)

(** A round runs to completion when its proposal phase does, the
    particles of the tally can be built, there is at least one with
    positive counts, and the draw returns. *)
Lemma round_run self spec specEncoding population st sf st1 samples st2 counts w' :
  propose execute self spec specEncoding population st = OK (sf, st1) ->
  mapM (fun '(g, f) => Particle_init execute self spec specEncoding g f) sf st1
    = OK (samples, st2) ->
  samples <> [] ->
  Forall (fun p => 0 < frequency p) samples ->
  (forall ps, length ps = length samples ->
              multinomial (particles self) ps (world st2) = OK (counts, w')) ->
  round execute multinomial self spec specEncoding population st
    = OK (survivors samples counts, set_world w' st2).
Proof.
  intros Hpropose Hsamples Hne Hpos Hdraw.
  unfold round. rewrite (bind_run _ _ _ _ _ Hpropose).
  unfold resample. rewrite (bind_run _ _ _ _ _ Hsamples).
  rewrite (logWeights_positive _ Hpos).
  unfold bind at 1, lift at 1.
  assert (exists mx,
             py_max (map (fun p => ln (IZR (frequency p)) - Particle_distance p)%R samples)
             = OK mx) as (mx & Hmx).
  { destruct samples; [congruence|]. simpl. eauto. }
  rewrite (normalize_closed_form _ _ Hmx). unfold bind at 1, lift at 1.
  unfold bind, call_multinomial. rewrite Hdraw by (rewrite !length_map; reflexivity).
  reflexivity.
Qed.

End SearchFacts.

(** * A concrete search

    A small instance on which the statements above are exercised: the
    DSL objects are strings, a line [[s]] parses to the object [s], the
    decoder reads the lines it samples off a script, and the multinomial
    draw spreads the slots over the candidates. *)

Definition DemoWorld : Type := list (option (list token)).

Definition demo_model
  : Model (Node:=string) (Spec:=unit) (Val:=string) (SpecEnc:=unit)
          (Hidden:=unit) (World:=DemoWorld) :=
  {| specEncoder := fun _ w => (tt, w);
     objectEncoder := fun _ _ w => ([0%R], w);
     outputDimensionality := 1;
     model_distance := fun _ _ w => (0%R, w);
     initialHidden := fun _ _ w => Some (tt, w);
     decoder_sample := fun _ _ w =>
       match w with
       | [] => (None, [])
       | line :: w' => (line, w')
       end;
     parseLine := fun l =>
       match l with
       | [LStr s] => Some s
       | _ => None
       end |}.

Definition demo_execute (o : string) : string := o.

(** One slot for each candidate after the first, the rest on the first;
    everything on the first when the slots do not go round. *)
Definition spread (n : Z) (pvals : list R) : list Z :=
  match pvals with
  | [] => []
  | _ :: t =>
      if Z.of_nat (length t) <=? n
      then (n - Z.of_nat (length t)) :: map (fun _ => 1) t
      else n :: map (fun _ => 0) t
  end.

Definition demo_multinomial (n : Z) (pvals : list R) (w : DemoWorld)
  : result (list Z * DemoWorld) :=
  if 0 <=? n then OK (spread n pvals, w) else Raise ValueError.

Definition demo_smc : SMC := mkSMC 2 2%R demo_model.

(** The decoder's script of a search whose first round samples, from
    the empty graph, the lines [a] and [b]; [rest] is sampled after. *)
Definition demo_script_1 (rest : DemoWorld) : DemoWorld :=
  Some [TStr "a"] :: Some [TStr "b"] :: rest.

(** A two-round script: in the second round [b] is sampled from the graph
    of [a], and [a] from the graph of [b]. *)
Definition demo_script : DemoWorld :=
  demo_script_1 [Some [TStr "b"]; Some [TStr "a"]].

Lemma demo_multinomial_contract : multinomial_contract demo_multinomial.
Proof.
  intros n pvals w counts w'. unfold demo_multinomial.
  destruct (0 <=? n) eqn:En; [|discriminate]. intros [= <- _].
  apply Z.leb_le in En.
  destruct pvals as [|p t]; simpl.
  - split; [reflexivity|]. split; [constructor|]. congruence.
  - assert (forall c (l : list R), fold_right Z.add 0 (map (fun _ => c) l)
                                   = c * Z.of_nat (length l)) as Hsum.
    { intros c l. induction l as [|x l IH]; [simpl; lia|].
      change (length (x :: l)) with (S (length l)). simpl map. simpl fold_right.
      rewrite IH. lia. }
    assert (forall c (l : list R), 0 <= c -> Forall (fun c => 0 <= c) (map (fun _ => c) l))
      as Hpos.
    { intros c l Hc. induction l; simpl; constructor; assumption. }
    destruct (Z.of_nat (length t) <=? n) eqn:E.
    + apply Z.leb_le in E. simpl. rewrite length_map. split; [reflexivity|].
      split; [constructor; [lia|apply Hpos; lia]|]. intros _. rewrite Hsum. lia.
    + simpl. rewrite length_map. split; [reflexivity|].
      split; [constructor; [lia|apply Hpos; lia]|]. intros _. rewrite Hsum. lia.
Qed.

Lemma demo_multinomial_accepts_empty :
  multinomial_accepts_empty demo_multinomial (particles demo_smc).
Proof. intros w. exists [], w. reflexivity. Qed.



Definition DemoGraph : Type := @ProgramGraph string _ _.
Definition DemoParticle : Type := @Particle string _ _.
Definition DemoState : Type := @State string _ _ DemoWorld.

Definition demo_graph_a : DemoGraph := mkProgramGraph 1 {[ "a" ]}.
Definition demo_graph_b : DemoGraph := mkProgramGraph 2 {[ "b" ]}.
Definition demo_graph_ab1 : DemoGraph := mkProgramGraph 3 {[ "a"; "b" ]}.
Definition demo_graph_ab2 : DemoGraph := mkProgramGraph 4 {[ "b"; "a" ]}.

(** Before the first round. *)
Definition demo_population_0 : list DemoParticle :=
  [mkParticle 2 (mkProgramGraph 0 ∅) 0%R].
Definition demo_state_0 (script : DemoWorld) : DemoState :=
  mkState 1 script ∅ {[ 0%nat := 0%R ]} [] [].

(** After the first round on [demo_script_1 rest]. *)
Definition demo_population_1 : list DemoParticle :=
  [mkParticle 1 demo_graph_a 0%R; mkParticle 1 demo_graph_b 0%R].
Definition demo_state_1 (rest : DemoWorld) : DemoState :=
  mkState 3 rest
    {[ "a" := [0%R]; "b" := [0%R] ]}
    {[ 0%nat := 0%R; 1%nat := 0%R; 2%nat := 0%R ]}
    ["a"; "b"]
    [("a", [0%R]); ("b", [0%R]); ("a", [0%R]); ("b", [0%R])].

(** The tally of the second round. *)
Definition demo_tally_2 : list (DemoGraph * Z) := [(demo_graph_ab1, 1); (demo_graph_ab2, 1)].

(** The state before the first round of [demo_smc] on [script]. *)
Lemma demo_initial_population (script : DemoWorld) (n : nat) :
  infer_population demo_execute demo_multinomial demo_smc tt n (initial_state 0 script)
  = (let! population :=
       rounds demo_execute demo_multinomial demo_smc tt tt n demo_population_0 in
     ret (tt, population)) (demo_state_0 script).
Proof. apply (initial_population demo_execute demo_multinomial demo_smc tt 0%nat script). Qed.

Lemma demo_propose_2 : exists st,
  propose demo_execute demo_smc tt tt demo_population_1
    (demo_state_1 [Some [TStr "b"]; Some [TStr "a"]])
  = OK (demo_tally_2, st).
Proof. eexists. vm_compute. reflexivity. Qed.


Definition demo_samples_1 : list DemoParticle :=
  [mkParticle 1 demo_graph_a 0%R; mkParticle 1 demo_graph_b 0%R].

(** After the proposal phase of the first round on [demo_script_1 rest]. *)
Definition demo_state_1p (rest : DemoWorld) : DemoState :=
  mkState 3 rest
    {[ "a" := [0%R]; "b" := [0%R] ]}
    {[ 0%nat := 0%R ]}
    ["a"; "b"]
    [("a", [0%R]); ("b", [0%R])].

(** On two candidates the draw of the demo gives one slot to each. *)
Lemma demo_multinomial_two (ps : list R) (w : DemoWorld) :
  length ps = 2%nat -> demo_multinomial 2 ps w = OK ([1; 1], w).
Proof.
  intros Hlen. destruct ps as [|a [|b [|c ps]]]; try discriminate Hlen.
  reflexivity.
Qed.

Lemma demo_round_1 (rest : DemoWorld) :
  round demo_execute demo_multinomial demo_smc tt tt
    demo_population_0 (demo_state_0 (demo_script_1 rest))
  = OK (demo_population_1, demo_state_1 rest).
Proof.
  apply (round_run demo_execute demo_multinomial demo_smc tt tt
           demo_population_0 (demo_state_0 (demo_script_1 rest))
           [(demo_graph_a, 1); (demo_graph_b, 1)] (demo_state_1p rest)
           demo_samples_1 (demo_state_1 rest) [1; 1] rest).
  - vm_compute. reflexivity.
  - vm_compute. reflexivity.
  - discriminate.
  - repeat constructor.
  - intros ps Hlen. apply demo_multinomial_two. exact Hlen.
Qed.

Definition demo_samples_2 : list DemoParticle :=
  [mkParticle 1 demo_graph_ab1 0%R; mkParticle 1 demo_graph_ab2 0%R].

Lemma demo_round_2 : exists st,
  round demo_execute demo_multinomial demo_smc tt tt demo_population_1
    (demo_state_1 [Some [TStr "b"]; Some [TStr "a"]])
  = OK (demo_samples_2, st).
Proof.
  eexists.
  eapply (round_run demo_execute demo_multinomial demo_smc tt tt
            demo_population_1 (demo_state_1 [Some [TStr "b"]; Some [TStr "a"]])
            demo_tally_2 _ demo_samples_2 _ [1; 1] []).
  - vm_compute. reflexivity.
  - vm_compute. reflexivity.
  - discriminate.
  - repeat constructor.
  - intros ps Hlen. apply demo_multinomial_two. exact Hlen.
Qed.

Lemma demo_infer_population_0 (script : DemoWorld) :
  infer_population demo_execute demo_multinomial demo_smc tt 0 (initial_state 0 script)
  = OK ((tt, demo_population_0), demo_state_0 script).
Proof. rewrite demo_initial_population. reflexivity. Qed.

Lemma demo_infer_population_1 (rest : DemoWorld) :
  infer_population demo_execute demo_multinomial demo_smc tt 1
    (initial_state 0 (demo_script_1 rest))
  = OK ((tt, demo_population_1), demo_state_1 rest).
Proof.
  rewrite demo_initial_population. unfold rounds. simpl iterM.
  unfold bind. rewrite demo_round_1. reflexivity.
Qed.

(** The two-round search returns two graphs with the same nodes. *)
Lemma demo_infer : exists st,
  infer demo_execute demo_multinomial demo_smc tt 2 0 demo_script
  = OK ([demo_graph_ab1; demo_graph_ab2], st).
Proof.
  destruct demo_round_2 as (st & Hround). exists st.
  unfold infer, infer_body. change (Z.to_nat 2) with 2%nat.
  unfold bind at 1. unfold demo_script. rewrite demo_initial_population.
  unfold rounds. simpl iterM. unfold bind.
  rewrite demo_round_1, Hround. reflexivity.
Qed.

(** ** The statements on the concrete search *)

(** C1, as the claim states it, fails: in the second round of the demo
    search the two particles (the graphs of [a] and of [b]) propose [b]
    and [a]; both proposals yield the nodes [a] and [b], yet the graphs
    are different objects, they do not compare equal, and the tally holds
    two entries of frequency 1 instead of one entry of frequency 2. *)
Lemma tally_splits_equal_graphs :
  exists st sf st' pa pb g1 g2,
    infer_population demo_execute demo_multinomial demo_smc tt 1
      (initial_state 0 demo_script) = OK ((tt, [pa; pb]), st) /\
    propose demo_execute demo_smc tt tt [pa; pb] st = OK (sf, st') /\
    sf = [(g1, 1); (g2, 1)] /\
    nodes g1 = nodes (graph pa) ∪ {[ "b" ]} /\
    nodes g2 = nodes (graph pb) ∪ {[ "a" ]} /\
    nodes g1 = nodes g2 /\
    graph_eqb g1 g2 = false /\
    dict_get sf g1 0 = 1 /\
    dict_get sf g2 0 = 1.
Proof.
  destruct demo_propose_2 as (st' & Hpropose).
  exists (demo_state_1 [Some [TStr "b"]; Some [TStr "a"]]), demo_tally_2, st',
    (mkParticle 1 demo_graph_a 0%R), (mkParticle 1 demo_graph_b 0%R),
    demo_graph_ab1, demo_graph_ab2.
  split; [apply demo_infer_population_1|].
  split; [exact Hpropose|].
  split; [reflexivity|].
  split; [vm_compute; reflexivity|].
  split; [vm_compute; reflexivity|].
  split; [vm_compute; reflexivity|].
  repeat split.
Qed.



(** C3, as the claim states it, fails: when the decoder yields no line
    the first round of the demo search, entered with the two slots of the
    initial population, ends with an empty population, whose frequencies
    add up to 0 and not to [particles]; the draw used obeys NumPy's
    contract. *)
Lemma round_can_empty_the_population :
  multinomial_contract demo_multinomial /\
  exists st',
    infer_population demo_execute demo_multinomial demo_smc tt 0 (initial_state 0 [])
      = OK ((tt, demo_population_0), demo_state_0 []) /\
    sum_frequency demo_population_0 = particles demo_smc /\
    round demo_execute demo_multinomial demo_smc tt tt demo_population_0
      (demo_state_0 []) = OK ([], st') /\
    sum_frequency ([] : list DemoParticle) <> particles demo_smc.
Proof.
  split; [exact demo_multinomial_contract|].
  eexists. split; [apply demo_infer_population_0|].
  split; [reflexivity|]. split; [vm_compute; reflexivity|].
  vm_compute. discriminate.
Qed.

Lemma round_conserves_particles_witness :
  exists sf st1,
    propose demo_execute demo_smc tt tt demo_population_0
      (demo_state_0 demo_script) = OK (sf, st1) /\
    resample demo_execute demo_multinomial demo_smc tt tt sf st1
      = OK (demo_population_1, demo_state_1 [Some [TStr "b"]; Some [TStr "a"]]) /\
    ((sf = [] /\ demo_population_1 = [] /\ sum_frequency demo_population_1 = 0) \/
     (sf <> [] /\ sum_frequency demo_population_1 = particles demo_smc)).
Proof.
  exact (round_conserves_particles demo_execute demo_multinomial demo_smc tt tt
           demo_population_0 (demo_state_0 demo_script) demo_population_1 _
           demo_multinomial_contract (demo_round_1 _)).
Defined.

Lemma demo_propose_none : exists st,
  propose demo_execute demo_smc tt tt demo_population_1 (demo_state_1 [])
  = OK ([], st).
Proof. eexists. vm_compute. reflexivity. Qed.

Lemma infer_empty_tally_witness :
  (exists st2, round demo_execute demo_multinomial demo_smc tt tt
                 demo_population_1 (demo_state_1 []) = OK ([], st2)) /\
  (exists st', infer demo_execute demo_multinomial demo_smc tt
                 (Z.of_nat (1 + 3)) 0 (demo_script_1 []) = OK ([], st')).
Proof.
  destruct demo_propose_none as (st1 & Hnone).
  exact (infer_empty_tally demo_execute demo_multinomial demo_smc tt 1 2 0%nat
           (demo_script_1 []) tt demo_population_1 (demo_state_1 []) st1
           demo_multinomial_accepts_empty (demo_infer_population_1 []) Hnone).
Defined.

Lemma infer_object_cache_witness :
  exists st,
    infer demo_execute demo_multinomial demo_smc tt 2 0 demo_script
      = OK ([demo_graph_ab1; demo_graph_ab2], st) /\
    NoDup (encoder_calls st) /\
    (forall o e1 e2,
        (o, e1) ∈ encoding_queries st -> (o, e2) ∈ encoding_queries st -> e1 = e2) /\
    (forall o e, (o, e) ∈ encoding_queries st -> _objectEncodings st !! o = Some e) /\
    (forall o (st0 : DemoState), exists oe st1,
        objectEncoding demo_execute demo_smc tt o st0 = OK (oe, st1) /\
        _objectEncodings st1 !! o = Some oe /\
        (forall e, _objectEncodings st0 !! o = Some e ->
                   oe = e /\ encoder_calls st1 = encoder_calls st0 /\
                   _objectEncodings st1 = _objectEncodings st0) /\
        (_objectEncodings st0 !! o = None ->
         oe = (objectEncoder (model demo_smc) tt (demo_execute o) (world st0)).1 /\
         encoder_calls st1 = encoder_calls st0 ++ [o])).
Proof.
  destruct demo_infer as (st & Hrun). exists st. split; [exact Hrun|].
  exact (infer_object_cache demo_execute demo_multinomial demo_smc tt 2 0%nat
           demo_script _ st Hrun).
Defined.

(** * The oracles of [ProgramGraph] and [fromRoot]

    The rest of the class [ProgramGraph] of [src/programGraph.py]:
    [fromRoot], [policyOracle] and [distanceOracle].  The DSL enters
    through [n.children()]. *)

Section GraphOracles.

Context {Node : Type} `{NodeCountable : Countable Node}.
Context {World : Type}.

(** [n.children()]. *)
Variable children : Node -> list Node.

Local Abbreviation ProgramGraph := (@ProgramGraph Node _ _).
Local Abbreviation State := (@State Node _ _ World).

(** [a ^ b] on sets. *)
Definition symmetric_difference (a b : gset Node) : gset Node :=
  (a ∖ b) ∪ (b ∖ a).

(** [all(child in self.nodes for child in n.children())]. *)
Definition children_in (self : ProgramGraph) (n : Node) : bool :=
  forallb (fun child => bool_decide (child ∈ nodes self)) (children n).

(** [self.policyOracle(targetGraph)]: what the generator yields, in the
    order the set difference is iterated. *)
Definition policyOracle (self targetGraph : ProgramGraph) : list Node :=
  let missingNodes := nodes targetGraph ∖ nodes self in
  List.filter (children_in self) (elements missingNodes).

(** [self.distanceOracle(targetGraph)]. *)
Definition distanceOracle (self targetGraph : ProgramGraph) : Z :=
  Z.of_nat (size (symmetric_difference (nodes self) (nodes targetGraph))).

(** The local function [reachable(n)] of [fromRoot], on the set [ns] it
    fills; [depth] is the number of nested calls the interpreter still
    allows (past it Python raises [RecursionError], a [RuntimeError]). *)
Fixpoint reachable (depth : nat) (n : Node) (ns : gset Node) : result (gset Node) :=
  match depth with
  | O => Raise RuntimeError
  | S depth' =>
      if decide (n ∈ ns) then OK ns
      else fold_left (fun acc c => rbind acc (reachable depth' c))
                     (children n) (OK ({[n]} ∪ ns))
  end.

(** [ProgramGraph.fromRoot(r)]: the set built is handed to the
    constructor as an iterable. *)
Definition fromRoot (depth : nat) (r : Node) : M State ProgramGraph :=
  let! ns := lift (reachable depth r ∅) in
  ProgramGraph_init (Iterable (elements ns)).

(** *** Notions *)

(** A node set that holds the children of each of its nodes. *)
Definition closed_under_children (a : gset Node) : Prop :=
  forall n, n ∈ a -> forall c, In c (children n) -> c ∈ a.

(** [c] is a child of [n]. *)
Definition child_of (n c : Node) : Prop := In c (children n).

(** [oracle_run target g ms g']: starting from [g], the nodes [ms] were
    added one after the other, each one a move that [policyOracle]
    yields for the graph reached so far; [g'] is the graph reached. *)
Inductive oracle_run (target : ProgramGraph) : ProgramGraph -> list Node -> ProgramGraph -> Prop :=
| oracle_run_nil g : oracle_run target g [] g
| oracle_run_cons g n id ms g' :
    In n (policyOracle g target) ->
    oracle_run target (mkProgramGraph id (nodes g ∪ {[n]})) ms g' ->
    oracle_run target g (n :: ms) g'.

(** *** Properties *)

Lemma size_symmetric_difference_le (a b c : gset Node) :
  (size (symmetric_difference a c)
   <= size (symmetric_difference a b) + size (symmetric_difference b c))%nat.
Proof.
  transitivity (size (symmetric_difference a b ∪ symmetric_difference b c)).
  - apply subseteq_size. unfold symmetric_difference. intros x Hx.
    destruct (decide (x ∈ b)); set_solver.
  - rewrite size_union_alt.
    assert (size (symmetric_difference b c ∖ symmetric_difference a b)
            <= size (symmetric_difference b c))%nat; [|lia].
    apply subseteq_size. set_solver.
Qed.

Lemma distanceOracle_same_nodes (a b : ProgramGraph) :
  nodes a = nodes b -> distanceOracle a b = 0.
Proof.
  unfold distanceOracle. intros ->.
  replace (symmetric_difference (nodes b) (nodes b)) with (∅ : gset Node).
  - rewrite size_empty. reflexivity.
  - unfold symmetric_difference. set_solver.
Qed.

(** X1: the ground-truth distance is a metric on node sets: it is never
    negative, it is 0 exactly between graphs with the same nodes, it is
    symmetric and obeys the triangle inequality. *)
Theorem distanceOracle_metric (a b c : ProgramGraph) :
  0 <= distanceOracle a b /\
  (distanceOracle a b = 0 <-> nodes a = nodes b) /\
  distanceOracle a b = distanceOracle b a /\
  distanceOracle a c <= distanceOracle a b + distanceOracle b c.
Proof.
  unfold distanceOracle. split; [lia|]. split; [|split].
  - split.
    + intros Hz. assert (size (symmetric_difference (nodes a) (nodes b)) = 0%nat) as Hs by lia.
      apply size_empty_iff in Hs. unfold symmetric_difference in Hs.
      apply set_eq. intros x. split; intros Hx.
      * destruct (decide (x ∈ nodes b)); [assumption|]. exfalso. set_solver.
      * destruct (decide (x ∈ nodes a)); [assumption|]. exfalso. set_solver.
    + apply distanceOracle_same_nodes.
  - f_equal. f_equal. unfold symmetric_difference. set_solver.
  - pose proof (size_symmetric_difference_le (nodes a) (nodes b) (nodes c)). lia.
Qed.

Lemma symmetric_difference_extend (a b : gset Node) (n : Node) :
  size (symmetric_difference (a ∪ {[n]}) b)
  = if decide (n ∈ a) then size (symmetric_difference a b)
    else if decide (n ∈ b) then Nat.pred (size (symmetric_difference a b))
         else S (size (symmetric_difference a b)).
Proof.
  destruct (decide (n ∈ a)) as [Ha|Ha].
  - f_equal. unfold symmetric_difference. set_solver.
  - destruct (decide (n ∈ b)) as [Hb|Hb].
    + assert (symmetric_difference a b
              = {[n]} ∪ symmetric_difference (a ∪ {[n]}) b) as ->.
      { unfold symmetric_difference. apply set_eq. intros x.
        destruct (decide (x = n)) as [->|Hx]; set_solver. }
      rewrite (size_union {[n]} (symmetric_difference (a ∪ {[n]}) b))
        by (unfold symmetric_difference; set_solver).
      rewrite size_singleton. reflexivity.
    + assert (symmetric_difference (a ∪ {[n]}) b
              = {[n]} ∪ symmetric_difference a b) as ->.
      { unfold symmetric_difference. apply set_eq. intros x.
        destruct (decide (x = n)) as [->|Hx]; set_solver. }
      rewrite (size_union {[n]} (symmetric_difference a b))
        by (unfold symmetric_difference; set_solver).
      rewrite size_singleton. reflexivity.
Qed.

Lemma symmetric_difference_missing (a b : gset Node) (n : Node) :
  n ∉ a -> n ∈ b -> (0 < size (symmetric_difference a b))%nat.
Proof.
  intros Ha Hb.
  assert (size ({[n]} : gset Node) <= size (symmetric_difference a b))%nat as Hle.
  { apply subseteq_size. unfold symmetric_difference. set_solver. }
  rewrite size_singleton in Hle. lia.
Qed.

Lemma distanceOracle_extend (g target : ProgramGraph) (n : Node) (id : nat) :
  distanceOracle (mkProgramGraph id (nodes g ∪ {[n]})) target
  = distanceOracle g target
    + (if decide (n ∈ nodes g) then 0
       else if decide (n ∈ nodes target) then -1 else 1).
Proof.
  unfold distanceOracle. simpl. rewrite symmetric_difference_extend.
  destruct (decide (n ∈ nodes g)) as [Hg|Hg]; [lia|].
  destruct (decide (n ∈ nodes target)) as [Ht|Ht]; [|lia].
  pose proof (symmetric_difference_missing _ _ _ Hg Ht). lia.
Qed.

(** X2: extending a graph with a node changes its ground-truth distance
    to a target by exactly one step, or not at all: nothing when the node
    was already in the graph, one less when it was missing and belongs
    to the target, one more when it does not. *)
Theorem extend_distanceOracle (g target : ProgramGraph) (n : Node) (st : State) :
  exists g',
    extend g n st = OK (g', set_next_id (S (next_id st)) st) /\
    distanceOracle g' target
    = distanceOracle g target
      + (if decide (n ∈ nodes g) then 0
         else if decide (n ∈ nodes target) then -1 else 1).
Proof.
  eexists. split; [reflexivity|]. apply distanceOracle_extend.
Qed.

Lemma children_in_spec (self : ProgramGraph) (n : Node) :
  children_in self n = true <-> forall c, In c (children n) -> c ∈ nodes self.
Proof.
  unfold children_in. rewrite forallb_forall. split; intros Hc c Hin.
  - specialize (Hc c Hin). apply bool_decide_eq_true in Hc. exact Hc.
  - apply bool_decide_eq_true. apply Hc. exact Hin.
Qed.

Lemma policyOracle_In (self target : ProgramGraph) (n : Node) :
  In n (policyOracle self target) <->
  n ∈ nodes target /\ (n ∉ nodes self) /\
  forall c, In c (children n) -> c ∈ nodes self.
Proof.
  unfold policyOracle. rewrite filter_In, children_in_spec.
  rewrite <- list_elem_of_In, elem_of_elements, elem_of_difference. tauto.
Qed.

Lemma policyOracle_NoDup (self target : ProgramGraph) :
  List.NoDup (policyOracle self target).
Proof.
  unfold policyOracle. apply List.NoDup_filter. apply NoDup_ListNoDup.
  apply NoDup_elements.
Qed.

(** X3: the moves [policyOracle] yields are exactly the nodes of the
    target that the graph lacks and whose children the graph holds, each
    yielded once; making such a move brings the graph one step closer to
    the target and, when the graph held the children of all its nodes,
    so does the extended graph. *)
Theorem policyOracle_moves (self target : ProgramGraph) :
  (forall n, In n (policyOracle self target) <->
             n ∈ nodes target /\ (n ∉ nodes self) /\
             forall c, In c (children n) -> c ∈ nodes self) /\
  List.NoDup (policyOracle self target) /\
  Forall (fun n => forall st : State, exists g',
            extend self n st = OK (g', set_next_id (S (next_id st)) st) /\
            distanceOracle g' target = distanceOracle self target - 1 /\
            (closed_under_children (nodes self) ->
             closed_under_children (nodes g')))
         (policyOracle self target).
Proof.
  split; [apply policyOracle_In|]. split; [apply policyOracle_NoDup|].
  apply List.Forall_forall. intros n Hn st.
  apply policyOracle_In in Hn as (Ht & Hs & Hc).
  exists (mkProgramGraph (next_id st) (nodes self ∪ {[n]})).
  split; [reflexivity|]. split.
  - rewrite distanceOracle_extend. destruct (decide (n ∈ nodes self)); [contradiction|].
    destruct (decide (n ∈ nodes target)); [lia|contradiction].
  - simpl. intros Hclosed x Hx c Hxc.
    apply elem_of_union in Hx as [Hx|Hx].
    + apply elem_of_union_l. eapply Hclosed; eassumption.
    + apply elem_of_singleton in Hx as ->. apply elem_of_union_l. apply Hc, Hxc.
Qed.

(** *** Following the oracle *)

Lemma oracle_run_spec (target g g' : ProgramGraph) (ms : list Node) :
  oracle_run target g ms g' ->
  nodes g' = nodes g ∪ list_to_set ms /\
  List.NoDup ms /\
  (forall n, In n ms -> n ∈ nodes target /\ n ∉ nodes g) /\
  distanceOracle g' target = distanceOracle g target - Z.of_nat (length ms) /\
  (closed_under_children (nodes g) -> closed_under_children (nodes g')).
Proof.
  induction 1 as [g|g n id ms g' Hn Hrun IH].
  - simpl. split; [set_solver|]. split; [constructor|].
    split; [contradiction|]. split; [lia|auto].
  - destruct IH as (Hnodes & Hnd & Hms & Hd & Hclosed). simpl in *.
    pose proof Hn as Hn'. apply policyOracle_In in Hn' as (Ht & Hs & Hc).
    split; [rewrite Hnodes; set_solver|]. split.
    { constructor; [|exact Hnd]. intros Hin. apply Hms in Hin as [_ Hin].
      apply Hin. set_solver. }
    split.
    { intros x [<-|Hx]; [auto|]. apply Hms in Hx as [Hxt Hx].
      split; [exact Hxt|set_solver]. }
    split.
    { rewrite Hd. unfold distanceOracle at 1. simpl.
      rewrite symmetric_difference_extend.
      destruct (decide (n ∈ nodes g)); [contradiction|].
      destruct (decide (n ∈ nodes target)); [|contradiction].
      pose proof (symmetric_difference_missing _ _ _ Hs Ht).
      unfold distanceOracle. lia. }
    intros Hg. apply Hclosed. intros x Hx c Hxc.
    apply elem_of_union in Hx as [Hx|Hx].
    + apply elem_of_union_l. eapply Hg; eassumption.
    + apply elem_of_singleton in Hx as ->. apply elem_of_union_l. apply Hc, Hxc.
Qed.

(** *** [fromRoot] *)

Lemma fold_reachable_Raise (d : nat) (cs : list Node) (e : exn) :
  fold_left (fun acc c => rbind acc (reachable d c)) cs (Raise e) = Raise e.
Proof. induction cs as [|c cs IH]; simpl; [reflexivity|exact IH]. Qed.

(** What a call of [reachable] leaves in the set: what was there, the
    node itself, and nodes reached from it that have their children in
    the set as well. *)
Lemma reachable_spec (depth : nat) :
  forall n ns ns', reachable depth n ns = OK ns' ->
    ns ⊆ ns' /\ n ∈ ns' /\
    forall x, x ∈ ns' ->
      x ∈ ns \/ (rtc child_of n x /\ forall c, In c (children x) -> c ∈ ns').
Proof.
  induction depth as [|d IHd]; intros n ns ns' Hrun; [discriminate|].
  simpl in Hrun. destruct (decide (n ∈ ns)) as [Hin|Hout].
  - injection Hrun as <-. split; [reflexivity|]. split; [exact Hin|]. auto.
  - assert (forall cs a b,
              fold_left (fun acc c => rbind acc (reachable d c)) cs (OK a) = OK b ->
              a ⊆ b /\ (forall c, In c cs -> c ∈ b) /\
              forall x, x ∈ b ->
                x ∈ a \/ ((exists c, In c cs /\ rtc child_of c x) /\
                          forall c', In c' (children x) -> c' ∈ b)) as Hfold.
    { clear -IHd. induction cs as [|c cs IHcs]; intros a b Hf; simpl in Hf.
      - injection Hf as <-. split; [reflexivity|]. split; [contradiction|]. auto.
      - destruct (reachable d c a) as [a1|e] eqn:Hc;
          [|rewrite fold_reachable_Raise in Hf; discriminate].
        destruct (IHd _ _ _ Hc) as (Hsub1 & Hc1 & Hnew1).
        destruct (IHcs _ _ Hf) as (Hsub2 & Hcs2 & Hnew2).
        split; [set_solver|]. split.
        + intros c' [<-|Hc']; [apply Hsub2, Hc1|apply Hcs2, Hc'].
        + intros x Hx. destruct (Hnew2 x Hx) as [Hx1|[(c' & Hc' & Hr) Hch]].
          * destruct (Hnew1 x Hx1) as [Ha|[Hr Hch]]; [left; exact Ha|].
            right. split; [exists c; split; [left; reflexivity|exact Hr]|].
            intros c' Hc'. apply Hsub2, Hch, Hc'.
          * right. split; [exists c'; split; [right; exact Hc'|exact Hr]|exact Hch]. }
    destruct (Hfold _ _ _ Hrun) as (Hsub & Hcs & Hnew).
    split; [set_solver|]. split; [set_solver|].
    intros x Hx. destruct (Hnew x Hx) as [Hx0|[(c & Hc & Hr) Hch]].
    + apply elem_of_union in Hx0 as [Hx0|Hx0]; [|left; exact Hx0].
      apply elem_of_singleton in Hx0 as ->. right. split; [apply rtc_refl|exact Hcs].
    + right. split; [|exact Hch]. eapply rtc_l; [exact Hc|exact Hr].
Qed.

Lemma closed_reaches (a : gset Node) (r x : Node) :
  closed_under_children a -> r ∈ a -> rtc child_of r x -> x ∈ a.
Proof.
  intros Hclosed Hr Hreach. induction Hreach as [r|r c x Hc Hreach IH]; [exact Hr|].
  apply IH. eapply Hclosed; eassumption.
Qed.

Section WellFounded.

(** DSL objects are finite terms: a child is smaller than its parent. *)
Variable height : Node -> nat.
Hypothesis children_smaller :
  forall n c, In c (children n) -> (height c < height n)%nat.

(** A missing node of least height has all its children present. *)
Lemma missing_node_with_children (self target : ProgramGraph) :
  closed_under_children (nodes target) ->
  forall k n, (height n <= k)%nat -> n ∈ nodes target -> n ∉ nodes self ->
  exists m, In m (policyOracle self target).
Proof.
  intros Hclosed. induction k as [|k IH]; intros n Hk Ht Hs.
  - exists n. apply policyOracle_In. split; [exact Ht|]. split; [exact Hs|].
    intros c Hc. apply children_smaller in Hc. lia.
  - destruct (forallb (fun c => bool_decide (c ∈ nodes self)) (children n)) eqn:E.
    + exists n. apply policyOracle_In. split; [exact Ht|]. split; [exact Hs|].
      apply children_in_spec. exact E.
    + assert (exists c, In c (children n) /\ c ∉ nodes self) as (c & Hc & Hcs).
      { clear -E. induction (children n) as [|c cs IHcs]; [discriminate|].
        simpl in E. apply andb_false_iff in E as [E|E].
        - exists c. split; [left; reflexivity|]. apply bool_decide_eq_false in E. exact E.
        - destruct (IHcs E) as (c' & Hc' & Hcs'). exists c'. split; [right|]; assumption. }
      apply (IH c).
      * apply children_smaller in Hc. lia.
      * eapply Hclosed; eassumption.
      * exact Hcs.
Qed.

Lemma policyOracle_nil_iff (self target : ProgramGraph) :
  closed_under_children (nodes target) ->
  (policyOracle self target = [] <-> nodes target ⊆ nodes self).
Proof.
  intros Hclosed. split.
  - intros Hnil n Ht. destruct (decide (n ∈ nodes self)) as [Hs|Hs]; [exact Hs|].
    exfalso.
    destruct (missing_node_with_children self target Hclosed (height n) n
                (Nat.le_refl _) Ht Hs) as (m & Hm).
    rewrite Hnil in Hm. contradiction.
  - intros Hsub. destruct (policyOracle self target) as [|n l] eqn:E; [reflexivity|].
    exfalso. assert (In n (policyOracle self target)) as Hn by (rewrite E; left; reflexivity).
    apply policyOracle_In in Hn as (Ht & Hs & _). apply Hs, Hsub, Ht.
Qed.

(** X4: when the target holds the children of all its nodes,
    [policyOracle] yields no move exactly when the graph already holds
    every node of the target; as long as a node is missing there is a
    legal move. *)
Theorem policyOracle_empty_iff (self target : ProgramGraph) :
  closed_under_children (nodes target) ->
  (policyOracle self target = [] <-> nodes target ⊆ nodes self) /\
  (forall n, n ∈ nodes target -> n ∉ nodes self ->
             exists move, In move (policyOracle self target)).
Proof.
  intros Hclosed. split; [apply policyOracle_nil_iff, Hclosed|].
  intros n Ht Hs.
  exact (missing_node_with_children self target Hclosed (height n) n
           (Nat.le_refl _) Ht Hs).
Qed.

(** X5: a run that follows the oracle from the empty graph, one yielded
    move after the other, until no move is left, ends on the nodes of
    the target after exactly as many moves as the target has nodes, each
    move lowering the ground-truth distance by one down to 0; before the
    end the graph reached is always part of the target. *)
Theorem oracle_run_reaches_target (target g0 g' : ProgramGraph) (ms : list Node) :
  closed_under_children (nodes target) ->
  nodes g0 = ∅ ->
  oracle_run target g0 ms g' ->
  nodes g' ⊆ nodes target /\
  distanceOracle g' target = len target - Z.of_nat (length ms) /\
  (Z.of_nat (length ms) <= len target) /\
  closed_under_children (nodes g') /\
  (policyOracle g' target = [] ->
   nodes g' = nodes target /\ Z.of_nat (length ms) = len target /\
   distanceOracle g' target = 0).
Proof.
  intros Hclosed Hempty Hrun.
  destruct (oracle_run_spec _ _ _ _ Hrun) as (Hnodes & Hnd & Hms & Hd & Hcl).
  assert (distanceOracle g0 target = len target) as Hd0.
  { unfold distanceOracle, len, symmetric_difference. rewrite Hempty.
    f_equal. f_equal. set_solver. }
  assert (nodes g' ⊆ nodes target) as Hsub.
  { rewrite Hnodes, Hempty. intros x Hx. apply elem_of_union in Hx as [Hx|Hx].
    - set_solver.
    - apply elem_of_list_to_set, list_elem_of_In in Hx. apply Hms in Hx as [Hx _].
      exact Hx. }
  split; [exact Hsub|]. rewrite Hd0 in Hd. split; [exact Hd|].
  assert (0 <= distanceOracle g' target) as Hpos by (unfold distanceOracle; lia).
  split; [lia|]. split.
  { apply Hcl. rewrite Hempty. intros x Hx. set_solver. }
  intros Hnil. apply (policyOracle_nil_iff g' target Hclosed) in Hnil.
  assert (nodes g' = nodes target) as Heq by set_solver.
  split; [exact Heq|].
  assert (distanceOracle g' target = 0) as Hz
    by (apply distanceOracle_same_nodes; exact Heq).
  split; [lia|exact Hz].
Qed.

Lemma reachable_total (depth : nat) :
  forall n ns, (height n < depth)%nat -> exists ns', reachable depth n ns = OK ns'.
Proof.
  induction depth as [|d IHd]; intros n ns Hlt; [lia|].
  simpl. destruct (decide (n ∈ ns)); [eauto|].
  assert (forall cs a, (forall c, In c cs -> (height c < d)%nat) ->
            exists b, fold_left (fun acc c => rbind acc (reachable d c)) cs (OK a) = OK b)
    as Hfold.
  { clear -IHd. induction cs as [|c cs IHcs]; intros a Hcs; simpl; [eauto|].
    destruct (IHd c a) as (a1 & ->); [apply Hcs; left; reflexivity|].
    apply IHcs. intros c' Hc'. apply Hcs. right. exact Hc'. }
  apply Hfold. intros c Hc. apply children_smaller in Hc. lia.
Qed.

(** X6: whatever [reachable] returns on the empty set is the set of
    nodes reached from the root through [children()]: it holds the root
    and the children of each of its nodes, and nothing else; [fromRoot]
    returns the graph of that set once the interpreter allows more
    nested calls than the root is high. *)
Theorem fromRoot_reachable (r : Node) :
  (forall depth ns, reachable depth r ∅ = OK ns ->
     r ∈ ns /\ closed_under_children ns /\
     forall x, x ∈ ns <-> rtc child_of r x) /\
  (forall depth (st : State), (height r < depth)%nat ->
     exists g, fromRoot depth r st = OK (g, set_next_id (S (next_id st)) st) /\
               gid g = next_id st /\
               r ∈ nodes g /\ closed_under_children (nodes g) /\
               forall x, x ∈ nodes g <-> rtc child_of r x).
Proof.
  assert (forall depth ns, reachable depth r ∅ = OK ns ->
            r ∈ ns /\ closed_under_children ns /\
            forall x, x ∈ ns <-> rtc child_of r x) as Hpartial.
  { intros depth ns Hrun. destruct (reachable_spec _ _ _ _ Hrun) as (_ & Hr & Hnew).
    assert (closed_under_children ns) as Hclosed.
    { intros x Hx c Hc. destruct (Hnew x Hx) as [Hx0|[_ Hch]]; [set_solver|].
      apply Hch, Hc. }
    split; [exact Hr|]. split; [exact Hclosed|]. intros x. split.
    - intros Hx. destruct (Hnew x Hx) as [Hx0|[Hreach _]]; [set_solver|exact Hreach].
    - apply closed_reaches; assumption. }
  split; [exact Hpartial|]. intros depth st Hlt.
  destruct (reachable_total depth r ∅ Hlt) as (ns & Hrun).
  destruct (Hpartial _ _ Hrun) as (Hr & Hclosed & Hiff).
  exists (mkProgramGraph (next_id st) ns). unfold fromRoot.
  split.
  { unfold bind, lift. rewrite Hrun. unfold ProgramGraph_init. simpl.
    rewrite list_to_set_elements_L. reflexivity. }
  simpl. auto.
Qed.

End WellFounded.

End GraphOracles.

(** ** The oracles on a small DSL

    Objects are numbers; object [n + 2] has the children [n + 1] and [n],
    object [1] the child [0], object [0] none. *)

Definition demo_children (n : nat) : list nat :=
  match n with
  | O => []
  | S O => [O]
  | S (S k as m) => [m; k]
  end.

Definition demo_height (n : nat) : nat := n.

(** The target holds the objects 0 to 3; the search starts empty. *)
Definition demo_target : @ProgramGraph nat _ _ := mkProgramGraph 9 (list_to_set [0; 1; 2; 3]%nat).
Definition demo_start : @ProgramGraph nat _ _ := mkProgramGraph 0 ∅.
Definition demo_end : @ProgramGraph nat _ _ :=
  mkProgramGraph 4 (∅ ∪ {[ 0%nat ]} ∪ {[ 1%nat ]} ∪ {[ 2%nat ]} ∪ {[ 3%nat ]}).

Lemma demo_children_smaller (n c : nat) :
  In c (demo_children n) -> (demo_height c < demo_height n)%nat.
Proof.
  unfold demo_height. destruct n as [|[|k]]; simpl; intros Hc.
  - contradiction.
  - destruct Hc as [<-|[]]. lia.
  - destruct Hc as [<-|[<-|[]]]; lia.
Qed.

Lemma demo_target_closed : closed_under_children demo_children (nodes demo_target).
Proof.
  intros n Hn c Hc. unfold demo_target in *. simpl in *. set_unfold.
  destruct n as [|[|[|[|n]]]]; simpl in Hc; intuition lia.
Qed.

Lemma demo_oracle_run :
  oracle_run demo_children demo_target demo_start [0; 1; 2; 3]%nat demo_end.
Proof.
  unfold demo_start, demo_end.
  apply (oracle_run_cons _ _ _ _ 1%nat); [vm_compute; tauto|].
  apply (oracle_run_cons _ _ _ _ 2%nat); [vm_compute; tauto|].
  apply (oracle_run_cons _ _ _ _ 3%nat); [vm_compute; tauto|].
  apply (oracle_run_cons _ _ _ _ 4%nat); [vm_compute; tauto|].
  apply oracle_run_nil.
Qed.

Lemma policyOracle_empty_iff_witness :
  (policyOracle demo_children demo_end demo_target = [] <->
   nodes demo_target ⊆ nodes demo_end) /\
  (forall n, n ∈ nodes demo_target -> n ∉ nodes demo_end ->
             exists move, In move (policyOracle demo_children demo_end demo_target)).
Proof.
  exact (policyOracle_empty_iff demo_children demo_height demo_children_smaller
           demo_end demo_target demo_target_closed).
Defined.

Lemma oracle_run_reaches_target_witness :
  nodes demo_end ⊆ nodes demo_target /\
  distanceOracle demo_end demo_target
    = len demo_target - Z.of_nat (length [0; 1; 2; 3]%nat) /\
  (Z.of_nat (length [0; 1; 2; 3]%nat) <= len demo_target) /\
  closed_under_children demo_children (nodes demo_end) /\
  (policyOracle demo_children demo_end demo_target = [] ->
   nodes demo_end = nodes demo_target /\
   Z.of_nat (length [0; 1; 2; 3]%nat) = len demo_target /\
   distanceOracle demo_end demo_target = 0).
Proof.
  exact (oracle_run_reaches_target demo_children demo_height demo_children_smaller
           demo_target demo_start demo_end [0; 1; 2; 3]%nat
           demo_target_closed eq_refl demo_oracle_run).
Defined.

Lemma fromRoot_reachable_witness :
  (forall depth ns, reachable demo_children depth 3%nat ∅ = OK ns ->
     3%nat ∈ ns /\ closed_under_children demo_children ns /\
     forall x, x ∈ ns <-> rtc (child_of demo_children) 3%nat x) /\
  (forall depth (st : @State nat _ _ unit), (demo_height 3 < depth)%nat ->
     exists g, fromRoot demo_children depth 3%nat st
               = OK (g, set_next_id (S (next_id st)) st) /\
               gid g = next_id st /\
               3%nat ∈ nodes g /\ closed_under_children demo_children (nodes g) /\
               forall x, x ∈ nodes g <-> rtc (child_of demo_children) 3%nat x).
Proof.
  exact (fromRoot_reachable demo_children demo_height demo_children_smaller 3%nat).
Defined.

(** * Invariants of the search

    What [SMC.infer] and [repeatedlySample] keep true from round to
    round, and what they can raise. *)

Section SearchInvariants.

Context {Node : Type} `{NodeCountable : Countable Node}.
Context {Spec Val SpecEnc Hidden World : Type}.
Variable execute : Node -> Val.
Variable multinomial : Z -> list R -> World -> result (list Z * World).

Local Abbreviation Model := (@Model Node Spec Val SpecEnc Hidden World).
Local Abbreviation SMC := (@SMC Node Spec Val SpecEnc Hidden World).
Local Abbreviation State := (@State Node _ _ World).
Local Abbreviation ProgramGraph := (@ProgramGraph Node _ _).
Local Abbreviation Particle := (@Particle Node _ _).
Local Abbreviation tally := (@tally Node _ _).

Implicit Types (self : SMC) (spec : Spec) (specEncoding : SpecEnc) (m : Model).
Implicit Types (st : State) (o : Node) (g : ProgramGraph) (p : Particle).
Implicit Types (sf : tally) (population : list Particle).

(** *** Notions *)

(** Every object of the graph has its encoding in [_objectEncodings]. *)
Definition cached g st : Prop :=
  forall o, o ∈ nodes g -> is_Some (_objectEncodings st !! o).

(** The number of proposals a tally counts. *)
Definition tally_total sf : Z := fold_right Z.add 0 (map snd sf).

(** The number of proposals a population asks for: [range(p.frequency)]
    turns of the sampling loop for each particle. *)
Definition slots population : Z :=
  fold_right Z.add 0 (map (fun p => Z.max 0 (frequency p)) population).

(** Two states that differ in the state of the collaborators only. *)
Definition only_world st st' : Prop := st' = set_world (world st') st.

(** Entries of the distance cache are never changed or removed. *)
Definition distance_extends st st' : Prop :=
  forall k d, _distance st !! k = Some d -> _distance st' !! k = Some d.

(** What holds of a population after [j] rounds. *)
Definition good_population (j : nat) population st : Prop :=
  Forall (fun p =>
            cached (graph p) st /\
            (gid (graph p) < next_id st)%nat /\
            0 < frequency p /\
            (size (nodes (graph p)) <= j)%nat /\
            _distance st !! gid (graph p) = Some (Particle_distance p))
         population /\
  List.NoDup (map (fun p => gid (graph p)) population).

(** The exceptions [np.random.multinomial] can raise. *)
Definition multinomial_raises (e : exn) : Prop :=
  exists n pvals w, multinomial n pvals w = Raise e.

(** *** [repeatedlySample] *)

Lemma only_world_refl st : only_world st st.
Proof. unfold only_world. destruct st. reflexivity. Qed.

Lemma only_world_trans st1 st2 st3 :
  only_world st1 st2 -> only_world st2 st3 -> only_world st1 st3.
Proof.
  unfold only_world. intros H12 H23. rewrite H23. rewrite H12 at 1.
  destruct st1. reflexivity.
Qed.

Lemma sample_once_appends m objectsInScope (h0 : Hidden) oe samples st samples' st' :
  sample_once m objectsInScope h0 oe samples st = OK (samples', st') ->
  samples' = samples \/ exists x, samples' = samples ++ [x].
Proof.
  unfold sample_once. intros Hrun.
  apply bind_OK in Hrun as (line & st1 & _ & Hrun).
  destruct line as [line|].
  - apply bind_OK in Hrun as (line' & st2 & _ & Hrun).
    destruct (contains_RETURN line').
    + injection Hrun as <- _. right. eauto.
    + destruct (parseLine m line').
      * injection Hrun as <- _. right. eauto.
      * injection Hrun as <- _. left. reflexivity.
  - injection Hrun as <- _. left. reflexivity.
Qed.

Lemma iterM_sample_once_length m objectsInScope (h0 : Hidden) oe n samples st samples' st' :
  iterM n (sample_once m objectsInScope h0 oe) samples st = OK (samples', st') ->
  (length samples' <= length samples + n)%nat.
Proof.
  revert samples st. induction n as [|n IH]; intros samples st Hrun; simpl in Hrun.
  - injection Hrun as <- _. lia.
  - apply bind_OK in Hrun as (samples1 & st1 & Hone & Hrun).
    apply IH in Hrun.
    apply sample_once_appends in Hone as [->|(x & ->)].
    + lia.
    + rewrite length_app in Hrun. simpl in Hrun. lia.
Qed.

Lemma repeatedlySample_only_world m specEncoding g (n_samples : Z) :
  respects only_world (repeatedlySample m specEncoding g n_samples).
Proof.
  apply (repeatedlySample_respects only_world only_world_refl only_world_trans).
  intros s w. unfold only_world. destruct s. reflexivity.
Qed.

Lemma repeatedlySample_length m specEncoding g (n_samples : Z) st proposals st' :
  repeatedlySample m specEncoding g n_samples st = OK (proposals, st') ->
  (length proposals <= Z.to_nat n_samples)%nat.
Proof.
  intros Hrun. unfold repeatedlySample in Hrun.
  apply bind_OK in Hrun as (oe & st1 & _ & Hrun).
  apply bind_OK in Hrun as (h0 & st2 & _ & Hrun).
  apply iterM_sample_once_length in Hrun. exact Hrun.
Qed.

(** X7: a call of [repeatedlySample] that returns yields at most
    [n_samples] proposals, none when [n_samples <= 0], and leaves the
    search as it was but for the state of the collaborators: it adds
    nothing to either cache, calls no object encoder and builds no
    graph. *)
Theorem repeatedlySample_bounded m specEncoding g (n_samples : Z) st proposals st' :
  repeatedlySample m specEncoding g n_samples st = OK (proposals, st') ->
  (length proposals <= Z.to_nat n_samples)%nat /\
  (n_samples <= 0 -> proposals = []) /\
  st' = set_world (world st') st /\
  _objectEncodings st' = _objectEncodings st /\
  _distance st' = _distance st /\
  encoder_calls st' = encoder_calls st /\
  next_id st' = next_id st.
Proof.
  intros Hrun.
  pose proof (repeatedlySample_only_world _ _ _ _ _ _ _ Hrun) as Hworld.
  apply repeatedlySample_length in Hrun.
  split; [exact Hrun|]. split.
  { intros Hn. destruct proposals; [reflexivity|]. simpl in Hrun. lia. }
  split; [exact Hworld|]. rewrite Hworld. auto.
Qed.

(** *** The mass of the tally *)

Lemma tally_total_add sf g : tally_total (tally_add sf g) = tally_total sf + 1.
Proof.
  unfold tally_add, tally_total. induction sf as [|[k x] sf IH]; simpl.
  - lia.
  - destruct (graph_eqb k g); simpl; lia.
Qed.

Lemma tally_add_positive sf g :
  Forall (fun e => 1 <= e.2) sf -> Forall (fun e => 1 <= e.2) (tally_add sf g).
Proof.
  unfold tally_add. induction sf as [|[k x] sf IH]; intros Hpos; simpl.
  - repeat constructor. simpl. lia.
  - pose proof (Forall_inv Hpos) as Hx. simpl in Hx. apply Forall_inv_tail in Hpos.
    destruct (graph_eqb k g); constructor; simpl; auto; lia.
Qed.

Lemma foldM_tally_proposal_mass self spec p proposals sf st sf' st' :
  foldM (tally_proposal execute self spec p) proposals sf st = OK (sf', st') ->
  tally_total sf' = tally_total sf + Z.of_nat (length proposals) /\
  (Forall (fun e => 1 <= e.2) sf -> Forall (fun e => 1 <= e.2) sf').
Proof.
  revert sf st. induction proposals as [|x proposals IH]; intros sf st Hrun;
    simpl in Hrun.
  - injection Hrun as <- _. split; [simpl; lia|auto].
  - apply bind_OK in Hrun as (sf1 & st1 & Hx & Hrun).
    apply tally_proposal_yields in Hx as (g & -> & _).
    apply IH in Hrun as [Htotal Hpos]. rewrite Htotal, tally_total_add.
    split; [simpl length; lia|]. intros H0. apply Hpos, tally_add_positive, H0.
Qed.

Lemma foldM_propose_particle_mass self spec specEncoding population sf st sf' st' :
  foldM (propose_particle execute self spec specEncoding) population sf st
    = OK (sf', st') ->
  tally_total sf' <= tally_total sf + slots population /\
  (Forall (fun e => 1 <= e.2) sf -> Forall (fun e => 1 <= e.2) sf').
Proof.
  revert sf st. induction population as [|p population IH]; intros sf st Hrun;
    simpl in Hrun.
  - injection Hrun as <- _. unfold slots. simpl. split; [lia|auto].
  - apply bind_OK in Hrun as (sf1 & st1 & Hp & Hrun).
    unfold propose_particle in Hp.
    apply bind_OK in Hp as (proposals & st0 & Hsample & Hp).
    apply repeatedlySample_length in Hsample as Hlen.
    apply foldM_tally_proposal_mass in Hp as [Htotal Hpos1].
    apply IH in Hrun as [Hle Hpos2].
    unfold slots in *. simpl. split; [lia|auto].
Qed.

Lemma tally_length_le_total sf :
  Forall (fun e => 1 <= e.2) sf -> Z.of_nat (length sf) <= tally_total sf.
Proof.
  unfold tally_total. induction sf as [|[k x] sf IH]; intros Hpos; simpl; [lia|].
  pose proof (Forall_inv Hpos) as Hx. simpl in Hx. apply Forall_inv_tail in Hpos.
  specialize (IH Hpos). lia.
Qed.

(** X8: the tally of a round counts every proposal once: each entry has
    a count of at least 1, and the counts add up to no more than the
    number of proposals the population asked for (its frequencies, a
    negative one counting as 0); so there are no more candidates than
    that either. *)
Theorem propose_tally_mass self spec specEncoding population st sf st' :
  propose execute self spec specEncoding population st = OK (sf, st') ->
  Forall (fun e => 1 <= e.2) sf /\
  tally_total sf <= slots population /\
  Z.of_nat (length sf) <= tally_total sf.
Proof.
  intros Hrun. unfold propose in Hrun.
  apply foldM_propose_particle_mass in Hrun as [Hle Hpos].
  specialize (Hpos (List.Forall_nil _)). change (tally_total []) with 0 in Hle.
  split; [exact Hpos|]. split; [lia|]. apply tally_length_le_total, Hpos.
Qed.

(** *** What a round keeps *)

Lemma cached_mono g st st' : cached g st -> cache_extends st st' -> cached g st'.
Proof.
  intros Hc Hext o Ho. destruct (Hc o Ho) as [e He]. exists e. apply Hext, He.
Qed.

Lemma tally_proposal_cached self spec p sf newObject st sf' st' :
  tally_proposal execute self spec p sf newObject st = OK (sf', st') ->
  cached (graph p) st ->
  (forall e, In e sf -> cached e.1 st) ->
  (forall e, In e sf' -> cached e.1 st') /\ cache_extends st st'.
Proof.
  intros Hrun Hp Hsf. unfold tally_proposal, newGraph in Hrun.
  apply bind_OK in Hrun as (g & st1 & Hg & Hrun). injection Hrun as <- <-.
  assert (cached g st1 /\ cache_extends st st1) as [Hgc Hext].
  { destruct newObject as [o|].
    - apply bind_OK in Hg as (oe & st0 & Hoe & Hg).
      rewrite extend_run in Hg. injection Hg as <- <-.
      pose proof (objectEncoding_cache_extends _ _ _ _ _ _ _ Hoe) as Hext.
      pose proof (objectEncoding_stored _ _ _ _ _ _ _ Hoe) as Hstored.
      split; [|exact Hext]. intros o' Ho'. simpl in *.
      apply elem_of_union in Ho' as [Ho'|Ho'].
      + destruct (Hp o' Ho') as [e He]. exists e. apply Hext, He.
      + apply elem_of_singleton in Ho' as ->. eauto.
    - injection Hg as <- <-. split; [exact Hp|apply cache_extends_refl]. }
  split; [|exact Hext]. intros e He.
  destruct (tally_add_entries _ _ _ He) as [Hold| ->]; [|exact Hgc].
  apply in_map_iff in Hold as (e' & <- & He').
  eapply cached_mono; [apply Hsf, He'|exact Hext].
Qed.

Lemma foldM_tally_proposal_cached self spec p proposals sf st sf' st' :
  foldM (tally_proposal execute self spec p) proposals sf st = OK (sf', st') ->
  cached (graph p) st ->
  (forall e, In e sf -> cached e.1 st) ->
  (forall e, In e sf' -> cached e.1 st') /\ cache_extends st st'.
Proof.
  revert sf st. induction proposals as [|x proposals IH]; intros sf st Hrun Hp Hsf;
    simpl in Hrun.
  - injection Hrun as <- <-. split; [exact Hsf|apply cache_extends_refl].
  - apply bind_OK in Hrun as (sf1 & st1 & Hx & Hrun).
    destruct (tally_proposal_cached _ _ _ _ _ _ _ _ Hx Hp Hsf) as [Hsf1 Hext1].
    destruct (IH _ _ Hrun (cached_mono _ _ _ Hp Hext1) Hsf1) as [Hsf' Hext2].
    split; [exact Hsf'|]. eapply cache_extends_trans; eassumption.
Qed.

Lemma foldM_propose_particle_cached self spec specEncoding population sf st sf' st' :
  foldM (propose_particle execute self spec specEncoding) population sf st
    = OK (sf', st') ->
  (forall p, In p population -> cached (graph p) st) ->
  (forall e, In e sf -> cached e.1 st) ->
  (forall e, In e sf' -> cached e.1 st') /\ cache_extends st st'.
Proof.
  revert sf st. induction population as [|p population IH]; intros sf st Hrun Hpop Hsf;
    simpl in Hrun.
  - injection Hrun as <- <-. split; [exact Hsf|apply cache_extends_refl].
  - apply bind_OK in Hrun as (sf1 & st1 & Hp & Hrun).
    unfold propose_particle in Hp.
    apply bind_OK in Hp as (proposals & st0 & Hsample & Hp).
    pose proof (repeatedlySample_only_world _ _ _ _ _ _ _ Hsample) as Hw.
    assert (cache_extends st st0) as Hext0.
    { rewrite Hw. intros o e He. exact He. }
    destruct (foldM_tally_proposal_cached _ _ _ _ _ _ _ _ Hp) as [Hsf1 Hext1].
    { eapply cached_mono; [apply Hpop; left; reflexivity|exact Hext0]. }
    { intros e He. eapply cached_mono; [apply Hsf, He|exact Hext0]. }
    assert (cache_extends st st1) as Hext by (eapply cache_extends_trans; eassumption).
    destruct (IH _ _ Hrun) as [Hsf' Hext2].
    { intros q Hq. eapply cached_mono; [apply Hpop; right; exact Hq|exact Hext]. }
    { exact Hsf1. }
    split; [exact Hsf'|]. eapply cache_extends_trans; eassumption.
Qed.

Lemma propose_cached self spec specEncoding population st sf st' :
  propose execute self spec specEncoding population st = OK (sf, st') ->
  (forall p, In p population -> cached (graph p) st) ->
  (forall e, In e sf -> cached e.1 st') /\ cache_extends st st'.
Proof.
  intros Hrun Hpop. eapply foldM_propose_particle_cached; [exact Hrun|exact Hpop|].
  intros e [].
Qed.

(** The distance cache. *)

Lemma distance_extends_refl st : distance_extends st st.
Proof. intros k d Hk. exact Hk. Qed.

Lemma distance_extends_trans st1 st2 st3 :
  distance_extends st1 st2 -> distance_extends st2 st3 -> distance_extends st1 st3.
Proof. unfold distance_extends. auto. Qed.

Lemma scopeEncoding_same_distance self spec g :
  respects (fun st st' => _distance st' = _distance st)
           (scopeEncoding execute self spec g).
Proof.
  apply scopeEncoding_respects; try (intros; simpl; congruence).
  intros o st oe st' Hrun.
  destruct (_objectEncodings st !! o) as [e|] eqn:E.
  - rewrite (objectEncoding_hit _ _ _ _ _ _ E) in Hrun. injection Hrun as _ <-.
    reflexivity.
  - rewrite (objectEncoding_miss _ _ _ _ _ E) in Hrun. simpl in Hrun.
    injection Hrun as _ <-. reflexivity.
Qed.

(** [distance(g)] returns the value it leaves stored under [g], and
    changes no other entry. *)
Lemma distance_stored self spec specEncoding g st d st' :
  distance execute self spec specEncoding g st = OK (d, st') ->
  _distance st' !! gid g = Some d /\ distance_extends st st'.
Proof.
  unfold distance. intros Hrun. apply bind_OK in Hrun as (cache & st0 & Hget & Hrun).
  injection Hget as <- <-.
  destruct (_distance st !! gid g) as [d0|] eqn:E.
  - injection Hrun as <- <-. split; [exact E|apply distance_extends_refl].
  - apply bind_OK in Hrun as (se & st1 & Hse & Hrun).
    apply bind_OK in Hrun as (d1 & st2 & Hd & Hrun).
    apply bind_OK in Hrun as (u & st3 & Hmod & Hrun).
    injection Hrun as <- <-. injection Hmod as _ <-.
    apply scopeEncoding_same_distance in Hse.
    rewrite call_run in Hd. injection Hd as _ <-. simpl.
    split; [apply lookup_insert_eq|].
    intros k d' Hk. simpl. destruct (decide (gid g = k)) as [<-|Hne].
    + congruence.
    + rewrite lookup_insert_ne by exact Hne. rewrite Hse. exact Hk.
Qed.

Lemma mapM_Particle_init_good self spec specEncoding sf st samples st' :
  mapM (fun '(g, f) => Particle_init execute self spec specEncoding g f) sf st
    = OK (samples, st') ->
  map (fun p => (graph p, frequency p)) samples = sf /\
  Forall (fun p => _distance st' !! gid (graph p) = Some (Particle_distance p)) samples /\
  distance_extends st st'.
Proof.
  revert st samples st'. induction sf as [|[g f] sf IH]; intros st samples st' Hrun.
  - injection Hrun as <- <-. split; [reflexivity|].
    split; [constructor|apply distance_extends_refl].
  - simpl in Hrun. apply bind_OK in Hrun as (p & st1 & Hp & Hrun).
    apply bind_OK in Hrun as (ps & st2 & Hps & Hrun). injection Hrun as <- <-.
    destruct (IH _ _ _ Hps) as (Hmap & Hall & Hext2).
    unfold Particle_init in Hp. apply bind_OK in Hp as (d & st0 & Hd & Hp).
    injection Hp as <- <-. apply distance_stored in Hd as [Hd Hext1].
    split; [simpl; congruence|]. split.
    + constructor; [simpl; apply Hext2, Hd|exact Hall].
    + eapply distance_extends_trans; eassumption.
Qed.

(** The particles of a tally are built as [estimates] says. *)
Lemma mapM_Particle_init_estimates self spec specEncoding sf st samples st' :
  mapM (fun '(g, f) => Particle_init execute self spec specEncoding g f) sf st
    = OK (samples, st') ->
  estimates execute self spec specEncoding sf st samples st'.
Proof.
  revert st samples st'. induction sf as [|[g f] sf IH]; intros st samples st' Hrun.
  - injection Hrun as <- <-. constructor.
  - simpl in Hrun. apply bind_OK in Hrun as (p & st1 & Hp & Hrun).
    apply bind_OK in Hrun as (ps & st2 & Hps & Hrun). injection Hrun as <- <-.
    apply IH in Hps.
    unfold Particle_init in Hp. apply bind_OK in Hp as (d & st0 & Hd & Hp).
    injection Hp as <- <-.
    unfold distance in Hd. apply bind_OK in Hd as (cache & s0 & Hget & Hd).
    injection Hget as <- <-.
    destruct (_distance st !! gid g) as [d0|] eqn:E.
    + injection Hd as <- <-. apply estimates_stored; assumption.
    + apply bind_OK in Hd as (se & s1 & Hse & Hd).
      apply bind_OK in Hd as (d1 & s2 & Hcall & Hd).
      apply bind_OK in Hd as (u & s3 & Hmod & Hd).
      injection Hd as <- <-. injection Hmod as _ <-.
      rewrite call_run in Hcall. injection Hcall as <- <-.
      eapply estimates_model; [exact E|exact Hse|apply surjective_pairing|].
      exact Hps.
Qed.

(** C4: in the resampling phase of a round the log-weight of a candidate
    is the logarithm of its frequency (the count of its entry in the
    tally, a positive number) minus its estimated distance: the value
    that [distance] gives the candidate's graph, which is what
    [self.model.distance] returned on the scope encoding of the graph
    and the encoding of the spec the first time the graph was asked for,
    and which [_distance] holds under the graph afterwards.
    [fitnessWeight] is accepted and stored by the constructor but the
    search does not depend on it: two controllers that differ only in
    [fitnessWeight] run [infer] identically. *)
Theorem logWeights_ignore_fitnessWeight self spec specEncoding sf st population st' :
  resample execute multinomial self spec specEncoding sf st = OK (population, st') ->
  (exists samples st1 lws,
      estimates execute self spec specEncoding sf st samples st1 /\
      mapM (fun '(g, f) => Particle_init execute self spec specEncoding g f) sf st
        = OK (samples, st1) /\
      logWeights samples = OK lws /\
      lws = map (fun p => ln (IZR (frequency p)) - Particle_distance p)%R samples /\
      Forall2 (fun e lw => 0 < e.2 /\
                 exists d, _distance st1 !! gid e.1 = Some d /\
                           lw = (ln (IZR e.2) - d)%R) sf lws) /\
  (forall (samples : list Particle),
      Forall (fun p => 0 < frequency p) samples ->
      logWeights samples =
        OK (map (fun p => ln (IZR (frequency p)) - Particle_distance p)%R samples)) /\
  (forall m n fw, 0 < n ->
      SMC_init m n fw = OK (mkSMC n fw m) /\ fitnessWeight (mkSMC n fw m) = fw) /\
  (forall m n fw1 fw2 maximumLength fresh (w : World),
      infer execute multinomial (mkSMC n fw1 m) spec maximumLength fresh w
      = infer execute multinomial (mkSMC n fw2 m) spec maximumLength fresh w).
Proof.
  intros Hrun. split; [|split; [|split]].
  - unfold resample in Hrun.
    apply bind_OK in Hrun as (samples & st1 & Hsamples & Hrun).
    apply bind_OK in Hrun as (lws & st2 & Hlws & Hrun).
    apply lift_OK in Hlws as [Hlws ->].
    destruct (mapM_Particle_init_good _ _ _ _ _ _ _ Hsamples) as (Hmap & Hd & _).
    destruct (logWeights_value _ _ Hlws) as [Heq Hpos].
    exists samples, st1, lws.
    split; [apply mapM_Particle_init_estimates; exact Hsamples|].
    split; [exact Hsamples|]. split; [exact Hlws|]. split; [exact Heq|].
    rewrite Heq, <- Hmap. clear - Hd Hpos.
    induction samples as [|p samples IH]; simpl; constructor.
    + simpl. split; [exact (Forall_inv Hpos)|].
      exists (Particle_distance p). split; [exact (Forall_inv Hd)|reflexivity].
    + apply IH; eapply Forall_inv_tail; eassumption.
  - apply logWeights_positive.
  - intros m n fw Hn. unfold SMC_init. destruct (0 <? n) eqn:E; [auto|lia].
  - intros. reflexivity.
Qed.


Lemma propose_distance_extends self spec specEncoding population :
  respects distance_extends (propose execute self spec specEncoding population).
Proof.
  apply propose_respects.
  - apply distance_extends_refl.
  - apply distance_extends_trans.
  - intros st w k d Hk. exact Hk.
  - intros st k d Hk. exact Hk.
  - intros o st oe st' Hrun k d Hk.
    destruct (_objectEncodings st !! o) as [e|] eqn:E.
    + rewrite (objectEncoding_hit _ _ _ _ _ _ E) in Hrun. injection Hrun as _ <-.
      exact Hk.
    + rewrite (objectEncoding_miss _ _ _ _ _ E) in Hrun. simpl in Hrun.
      injection Hrun as _ <-. exact Hk.
Qed.

Lemma resample_cache_extends self spec specEncoding sf :
  respects cache_extends (resample execute multinomial self spec specEncoding sf).
Proof.
  apply resample_respects.
  - apply cache_extends_refl.
  - apply cache_extends_trans.
  - intros st w o e He. exact He.
  - intros st c o e He. exact He.
  - apply objectEncoding_cache_extends.
Qed.

(** The survivors are samples, in order, with a positive new frequency. *)
Lemma survivors_In (samples : list Particle) (counts : list Z) p :
  In p (survivors samples counts) ->
  exists q c, In q samples /\ p = set_frequency c q /\ 0 < c.
Proof.
  unfold survivors. rewrite survivors_acc. simpl. intros Hin.
  apply in_flat_map in Hin as ([q c] & Hqc & Hin).
  apply in_combine_l in Hqc. destruct (0 <? c) eqn:E; [|contradiction].
  destruct Hin as [<-|[]]. exists q, c. split; [exact Hqc|].
  split; [reflexivity|lia].
Qed.

Lemma survivors_sublist (samples : list Particle) (counts : list Z) :
  sublist (map (fun p => gid (graph p)) (survivors samples counts))
          (map (fun p => gid (graph p)) samples).
Proof.
  unfold survivors. rewrite survivors_acc. simpl.
  revert counts. induction samples as [|q samples IH]; intros counts.
  - simpl. constructor.
  - destruct counts as [|c counts]; simpl.
    + apply sublist_nil_l.
    + destruct (0 <? c); simpl.
      * apply sublist_skip, IH.
      * apply sublist_cons, IH.
Qed.

Lemma round_good self spec specEncoding (j : nat) population st population' st' :
  good_population j population st ->
  round execute multinomial self spec specEncoding population st
    = OK (population', st') ->
  good_population (S j) population' st'.
Proof.
  intros [Hgood Hnd] Hrun.
  assert (Forall (fun p => (gid (graph p) < next_id st)%nat) population) as Hold.
  { eapply Forall_impl; [exact Hgood|]. simpl. tauto. }
  pose proof (round_allocated _ _ _ _ _ _ _ _ _ Hold Hrun) as Halloc.
  unfold round in Hrun. apply bind_OK in Hrun as (sf & st1 & Hsf & Hrun).
  destruct (propose_tally execute multinomial self spec specEncoding population st sf st1 Hold Hsf)
    as (G & HG & _ & Hkeys & _ & _ & Hclass).
  destruct (propose_cached _ _ _ _ _ _ _ Hsf) as [Hcached Hext1].
  { intros p Hp. rewrite List.Forall_forall in Hgood. apply (Hgood p Hp). }
  pose proof (resample_cache_extends _ _ _ _ _ _ _ Hrun) as Hext2.
  unfold resample in Hrun.
  apply bind_OK in Hrun as (samples & st2 & Hsamples & Hrun).
  apply bind_OK in Hrun as (lws & st3 & Hlws & Hrun).
  apply lift_OK in Hlws as [_ ->].
  apply bind_OK in Hrun as (ps & st3 & Hps & Hrun).
  apply lift_OK in Hps as [_ ->].
  apply bind_OK in Hrun as (counts & st3 & Hcounts & Hrun).
  injection Hrun as <- <-.
  assert (_distance st3 = _distance st2) as Hdist.
  { unfold call_multinomial in Hcounts.
    destruct (multinomial (particles self) ps (world st2)) as [[cs w']|e];
      [|discriminate].
    injection Hcounts as _ <-. reflexivity. }
  destruct (mapM_Particle_init_good _ _ _ _ _ _ _ Hsamples) as (Hmap & Hd & _).
  split.
  - apply List.Forall_forall. intros p Hp.
    rewrite List.Forall_forall in Halloc. specialize (Halloc p Hp).
    apply survivors_In in Hp as (q & c & Hq & -> & Hc). simpl in *.
    assert (In (graph q, frequency q) sf) as Hin.
    { rewrite <- Hmap. apply in_map_iff. exists q. auto. }
    split.
    { eapply cached_mono; [apply (Hcached _ Hin)|exact Hext2]. }
    split; [exact Halloc|]. split; [exact Hc|]. split.
    { rewrite List.Forall_forall in Hgood.
      destruct (Hclass _ _ Hin) as [(p0 & Hp0 & Heq)|(_ & _ & p0 & o & Hp0 & Heq)].
      - rewrite Heq. destruct (Hgood p0 Hp0) as (_ & _ & _ & Hsize & _). lia.
      - rewrite Heq. destruct (Hgood p0 Hp0) as (_ & _ & _ & Hsize & _).
        pose proof (size_union_alt (nodes (graph p0)) ({[o]} : gset Node)) as Hu.
        assert (size (({[o]} : gset Node) ∖ nodes (graph p0)) <= 1)%nat as H1.
        { rewrite <- (size_singleton (C:=gset Node) o). apply subseteq_size. set_solver. }
        lia. }
    rewrite Hdist. rewrite List.Forall_forall in Hd. apply Hd, Hq.
  - eapply sublist_NoDup in Hkeys.
    + apply NoDup_ListNoDup. exact Hkeys.
    + assert (map (fun e : ProgramGraph * Z => gid e.1) sf
              = map (fun p => gid (graph p)) samples) as ->.
      { rewrite <- Hmap, map_map. reflexivity. }
      apply survivors_sublist.
Qed.

Lemma rounds_good self spec specEncoding (n j : nat) population st population' st' :
  good_population j population st ->
  rounds execute multinomial self spec specEncoding n population st
    = OK (population', st') ->
  good_population (j + n) population' st'.
Proof.
  revert j population st. unfold rounds.
  induction n as [|n IH]; intros j population st Hgood Hrun; simpl in Hrun.
  - injection Hrun as <- <-. rewrite Nat.add_0_r. exact Hgood.
  - apply bind_OK in Hrun as (pop1 & st1 & Hround & Hrun).
    replace (j + S n)%nat with (S j + n)%nat by lia.
    eapply IH; [|exact Hrun]. eapply round_good; eassumption.
Qed.

Lemma infer_population_good self spec (j : nat) fresh (w : World)
    specEncoding population st :
  0 < particles self ->
  infer_population execute multinomial self spec j (initial_state fresh w)
    = OK ((specEncoding, population), st) ->
  good_population j population st.
Proof.
  intros Hparticles. rewrite initial_population. intros Hrun.
  apply bind_OK in Hrun as (pop & st1 & Hrun & Hret). injection Hret as _ <- <-.
  apply (rounds_good _ _ _ j 0%nat _ _ _ _) in Hrun; [exact Hrun|].
  split.
  - constructor; [|constructor].
    cbn [graph frequency Particle_distance gid nodes next_id _distance].
    split; [intros o Ho; set_solver|]. split; [lia|]. split; [exact Hparticles|].
    split; [rewrite size_empty; lia|]. apply lookup_singleton_eq.
  - simpl. constructor; [intros []|constructor].
Qed.

(** *** The proposals of a round, one by one *)

Lemma newGraph_Some self spec p o st g st' :
  newGraph execute self spec p (Some o) st = OK (g, st') ->
  g = mkProgramGraph (next_id st) (nodes (graph p) ∪ {[o]}) /\
  next_id st' = S (next_id st).
Proof.
  unfold newGraph. intros Hg.
  apply bind_OK in Hg as (oe & st0 & Hoe & Hg).
  apply objectEncoding_same_next_id in Hoe. unfold same_next_id in Hoe.
  rewrite extend_run in Hg. injection Hg as <- <-. simpl. rewrite Hoe. auto.
Qed.

(** The graph [g] of a turn of the inner loop, for the proposal [x] of
    particle [p], when the next free identity goes from [lo] to [hi]. *)
Definition turn_graph (lo hi : nat) p (x : option Node) g : Prop :=
  match x with
  | None => g = graph p
  | Some o => nodes g = nodes (graph p) ∪ {[o]} /\ (lo <= gid g < hi)%nat
  end.

Lemma turn_graph_weaken (lo hi lo' hi' : nat) p x g :
  (lo' <= lo)%nat -> (hi <= hi')%nat ->
  turn_graph lo hi p x g -> turn_graph lo' hi' p x g.
Proof.
  destruct x; simpl; [|auto]. intros Hlo Hhi [Hn Hg]. split; [exact Hn|lia].
Qed.

Lemma mapM_newGraph_yields self spec p proposals st graphs st' :
  mapM (newGraph execute self spec p) proposals st = OK (graphs, st') ->
  yields [p] (next_id st) (next_id st') graphs /\
  Forall2 (turn_graph (next_id st) (next_id st') p) proposals graphs.
Proof.
  revert st graphs. induction proposals as [|x proposals IH]; intros st graphs Hrun;
    simpl in Hrun.
  - injection Hrun as <- <-. split; [apply yields_nil|constructor].
  - apply bind_OK in Hrun as (g & s1 & Hg & Hrun).
    apply bind_OK in Hrun as (gs & s2 & Hgs & Hrun). injection Hrun as <- <-.
    apply IH in Hgs as [HG Hall]. pose proof (yields_le _ _ _ _ HG) as Hle.
    destruct x as [o|].
    + apply newGraph_Some in Hg as [-> Hid]. rewrite Hid in *. split.
      * apply yields_new; [left; reflexivity|exact HG].
      * constructor; [simpl; split; [reflexivity|lia]|].
        eapply Forall2_impl; [exact Hall|].
        intros y g. apply turn_graph_weaken; lia.
    + injection Hg as <- <-. split.
      * apply yields_same; [left; reflexivity|exact HG].
      * constructor; [reflexivity|exact Hall].
Qed.

Lemma foldM_tally_proposal_graphs self spec p proposals sf st sf' st' :
  foldM (tally_proposal execute self spec p) proposals sf st = OK (sf', st') ->
  exists graphs,
    mapM (newGraph execute self spec p) proposals st = OK (graphs, st') /\
    sf' = fold_left tally_add graphs sf.
Proof.
  revert sf st. induction proposals as [|x proposals IH]; intros sf st Hrun;
    simpl in Hrun.
  - injection Hrun as <- <-. exists []. auto.
  - apply bind_OK in Hrun as (sf1 & s1 & Hx & Hrun).
    unfold tally_proposal in Hx. apply bind_OK in Hx as (g & s0 & Hg & Hx).
    injection Hx as <- <-.
    apply IH in Hrun as (graphs & Hgs & ->).
    exists (g :: graphs). split; [|reflexivity].
    simpl. rewrite (bind_run _ _ _ _ _ Hg), (bind_run _ _ _ _ _ Hgs). reflexivity.
Qed.

Lemma map_snd_combine_pair {A B C} (a : A) (l : list B) (k : list C) :
  length l = length k -> map snd (combine (map (pair a) l) k) = k.
Proof.
  revert k. induction l as [|x l IH]; intros [|y k] Hlen; simpl in *;
    try discriminate; [reflexivity|].
  f_equal. apply IH. lia.
Qed.

Lemma combine_pair_turns (lo hi : nat) p proposals graphs :
  Forall2 (turn_graph lo hi p) proposals graphs ->
  Forall (fun e => e.1.1 = p /\ turn_graph lo hi e.1.1 e.1.2 e.2)
         (combine (map (pair p) proposals) graphs).
Proof.
  induction 1 as [|x g proposals graphs Hx Hall IH]; simpl; constructor.
  - simpl. auto.
  - exact IH.
Qed.

(** The tally of the two loops is the tally of their turns, in order. *)
Lemma foldM_propose_particle_events self spec specEncoding population sf st sf' st' :
  foldM (propose_particle execute self spec specEncoding) population sf st
    = OK (sf', st') ->
  exists events,
    proposed execute self spec specEncoding population st events st' /\
    sf' = fold_left tally_add (map snd events) sf /\
    yields population (next_id st) (next_id st') (map snd events) /\
    Forall (fun e => In e.1.1 population /\
                     turn_graph (next_id st) (next_id st') e.1.1 e.1.2 e.2) events.
Proof.
  revert sf st. induction population as [|p population IH]; intros sf st Hrun;
    simpl in Hrun.
  - injection Hrun as <- <-. exists [].
    split; [constructor|]. split; [reflexivity|]. split; constructor.
  - apply bind_OK in Hrun as (sf1 & st1 & Hp & Hrun).
    unfold propose_particle in Hp.
    apply bind_OK in Hp as (proposals & st0 & Hsample & Hp).
    pose proof (repeatedlySample_same_next_id _ _ _ _ _ _ _ Hsample) as Hid.
    unfold same_next_id in Hid.
    apply foldM_tally_proposal_graphs in Hp as (graphs & Hgraphs & ->).
    destruct (mapM_newGraph_yields _ _ _ _ _ _ _ Hgraphs) as [HG1 Hturns].
    rewrite Hid in HG1, Hturns.
    apply IH in Hrun as (events & Hev & -> & HG2 & Hall).
    pose proof (yields_le _ _ _ _ HG1) as Hle1.
    pose proof (yields_le _ _ _ _ HG2) as Hle2.
    assert (map snd (combine (map (pair p) proposals) graphs) = graphs) as Hsnd.
    { apply map_snd_combine_pair. eapply Forall2_length. exact Hturns. }
    exists (combine (map (pair p) proposals) graphs ++ events).
    split; [econstructor; eassumption|].
    split; [rewrite map_app, fold_left_app, Hsnd; reflexivity|].
    split.
    + rewrite map_app, Hsnd. eapply yields_app.
      * eapply yields_weaken; [|exact HG1]. intros q [<-|[]]. left. reflexivity.
      * eapply yields_weaken; [|exact HG2]. intros q Hq. right. exact Hq.
    + apply Forall_app. split.
      * eapply Forall_impl; [apply combine_pair_turns; exact Hturns|].
        intros e [He Ht]. split; [left; symmetry; exact He|].
        eapply turn_graph_weaken; [| |exact Ht]; lia.
      * eapply Forall_impl; [exact Hall|].
        intros e [Hin Ht]. split; [right; exact Hin|].
        eapply turn_graph_weaken; [| |exact Ht]; lia.
Qed.

(** Among the graphs yielded, a new object is known by its identity. *)
Lemma yields_new_unique population (lo hi : nat) (G : list ProgramGraph) g g' :
  Forall (fun p => (gid (graph p) < lo)%nat) population ->
  yields population lo hi G ->
  In g G -> In g' G -> (lo <= gid g)%nat -> gid g' = gid g -> g' = g.
Proof.
  intros Hold HG. revert Hold.
  induction HG as [lo|lo hi p G Hp HG IH|lo hi p o G Hp HG IH];
    intros Hold Hg Hg' Hlo Heq.
  - destruct Hg.
  - pose proof Hold as Hold'. rewrite List.Forall_forall in Hold'.
    specialize (Hold' p Hp).
    destruct Hg as [<-|Hg]; [lia|]. destruct Hg' as [<-|Hg']; [lia|].
    apply IH; assumption.
  - assert (Forall (fun p => (gid (graph p) < S lo)%nat) population) as HoldS.
    { eapply Forall_impl; [exact Hold|]. simpl. intros; lia. }
    pose proof (yields_elements _ _ _ _ HG) as Hel.
    rewrite List.Forall_forall in Hel, Hold.
    assert (forall x, In x G -> gid x <> lo) as Hne.
    { intros x Hx. destruct (Hel x Hx) as [(q & Hq & ->)|[Hr _]].
      - specialize (Hold q Hq). lia.
      - lia. }
    destruct Hg as [<-|Hg], Hg' as [<-|Hg'].
    + reflexivity.
    + exfalso. apply (Hne g' Hg'). exact Heq.
    + exfalso. apply (Hne g Hg). simpl in Heq. congruence.
    + apply IH; try assumption. specialize (Hne g Hg). lia.
Qed.

Lemma NoDup_map_eq {A B} (f : A -> B) (l : list A) (a b : A) :
  NoDup (map f l) -> In a l -> In b l -> f a = f b -> a = b.
Proof.
  induction l as [|x l IH]; simpl; intros Hnd Ha Hb Hf; [contradiction|].
  apply NoDup_cons in Hnd as [Hx Hnd].
  destruct Ha as [<-|Ha], Hb as [<-|Hb].
  - reflexivity.
  - exfalso. apply Hx. rewrite Hf. apply list_elem_of_In, in_map. exact Hb.
  - exfalso. apply Hx. rewrite <- Hf. apply list_elem_of_In, in_map. exact Ha.
  - apply IH; assumption.
Qed.

(** Among the graphs yielded from particles that hold different graph
    objects, a graph is known by its identity. *)
Lemma yields_unique population (lo hi : nat) (G : list ProgramGraph) g g' :
  Forall (fun p => (gid (graph p) < lo)%nat) population ->
  NoDup (map (fun p => gid (graph p)) population) ->
  yields population lo hi G ->
  In g G -> In g' G -> gid g' = gid g -> g' = g.
Proof.
  intros Hold Hnd HG Hg Hg' Heq.
  pose proof (yields_elements _ _ _ _ HG) as Hel.
  rewrite List.Forall_forall in Hel.
  pose proof Hold as Hold'. rewrite List.Forall_forall in Hold'.
  destruct (Hel g Hg) as [(q & Hq & ->)|[Hr _]].
  - destruct (Hel g' Hg') as [(q' & Hq' & ->)|[Hr' _]].
    + f_equal. eapply (NoDup_map_eq (fun p => gid (graph p))); eassumption.
    + specialize (Hold' q Hq). lia.
  - eapply yields_new_unique; try eassumption. lia.
Qed.

Lemma occurrences_In (G : list ProgramGraph) g :
  In g G -> (1 <= occurrences g G)%nat.
Proof.
  unfold occurrences. induction G as [|x G IH]; simpl; [contradiction|].
  intros [->|Hin].
  - rewrite graph_eqb_refl. simpl. lia.
  - specialize (IH Hin). destruct (graph_eqb x g); simpl; lia.
Qed.

Lemma dict_get_entry sf g (d : Z) :
  dict_get sf g d <> d ->
  exists g', In (g', dict_get sf g d) sf /\ gid g' = gid g.
Proof.
  induction sf as [|[k x] sf IH]; simpl; [congruence|].
  destruct (graph_eqb k g) eqn:E.
  - intros _. exists k. split; [left; reflexivity|apply graph_eqb_eq, E].
  - intros Hne. destruct (IH Hne) as (g' & Hin & Hg'). exists g'. auto.
Qed.

(** The turns that yield the graph object [g], allocated before the
    round, are the terminal proposals of the particles that hold it. *)
Lemma occurrences_terminal population (lo hi : nat) g
    (events : list (Particle * option Node * ProgramGraph)) :
  (gid g < lo)%nat ->
  Forall (fun e => In e.1.1 population /\ turn_graph lo hi e.1.1 e.1.2 e.2) events ->
  occurrences g (map snd events) = length (terminal_proposals g events).
Proof.
  intros Hg. unfold occurrences, terminal_proposals.
  induction 1 as [|[[q x] h] events [_ Ht] Hall IH]; simpl in *; [reflexivity|].
  destruct x as [o|].
  - destruct Ht as [_ Hr]. unfold graph_eqb at 1.
    destruct (Nat.eqb_spec (gid h) (gid g)) as [E|E]; [lia|]. exact IH.
  - rewrite Ht. destruct (graph_eqb (graph q) g); simpl; [f_equal|]; exact IH.
Qed.

(** The particles of a round's outcome hold different graph objects. *)
Lemma round_NoDup self spec specEncoding population st population' st' :
  round execute multinomial self spec specEncoding population st
    = OK (population', st') ->
  NoDup (map (fun p => gid (graph p)) population').
Proof.
  intros Hrun. unfold round in Hrun.
  apply bind_OK in Hrun as (sf & st1 & Hsf & Hrun).
  unfold propose in Hsf.
  apply foldM_propose_particle_yields in Hsf as (G & -> & _).
  assert (NoDup (map (fun e : ProgramGraph * Z => gid e.1) (fold_left tally_add G [])))
    as Hkeys by (apply fold_tally_add_NoDup; constructor).
  unfold resample in Hrun.
  apply bind_OK in Hrun as (samples & st2 & Hsamples & Hrun).
  apply bind_OK in Hrun as (lws & st3 & _ & Hrun).
  apply bind_OK in Hrun as (ps & st4 & _ & Hrun).
  apply bind_OK in Hrun as (counts & st5 & _ & Hrun).
  injection Hrun as <- <-.
  apply mapM_Particle_init in Hsamples as [Hmap _].
  eapply sublist_NoDup in Hkeys; [exact Hkeys|].
  assert (map (fun e : ProgramGraph * Z => gid e.1) (fold_left tally_add G [])
          = map (fun p => gid (graph p)) samples) as ->.
  { rewrite <- Hmap, map_map. reflexivity. }
  apply survivors_sublist.
Qed.

Lemma infer_population_NoDup self spec (j : nat) fresh (w : World)
    specEncoding population st :
  infer_population execute multinomial self spec j (initial_state fresh w)
    = OK ((specEncoding, population), st) ->
  NoDup (map (fun p => gid (graph p)) population).
Proof.
  rewrite initial_population. intros Hrun.
  apply bind_OK in Hrun as (pop & st1 & Hrun & Hret). injection Hret as _ <- <-.
  revert Hrun. generalize (specEncoder (model self) spec w).1. intros se.
  match goal with
  | |- rounds _ _ _ _ _ _ ?pop0 ?st0 = _ -> _ =>
      assert (NoDup (map (fun p => gid (graph p)) pop0)) as Hinit
        by (apply NoDup_singleton);
      generalize dependent pop0; generalize st0
  end.
  unfold rounds. induction j as [|j IH]; intros st0 pop0 Hinit Hrun; simpl in Hrun.
  - injection Hrun as <- <-. exact Hinit.
  - apply bind_OK in Hrun as (pop1 & st2 & Hround & Hrun).
    eapply IH; [|exact Hrun]. eapply round_NoDup. exact Hround.
Qed.

(** C1 (as amended): graphs are compared and hashed by object identity,
    a graph being equal to itself only.  So in every round of [infer],
    [events] being the turns of the inner loop in order (the particle,
    the proposal that [repeatedlySample] returned, and the graph
    [newGraph] of the turn: the particle's own graph for a terminal
    proposal, a new object holding one more node for an extension), the
    tally counts every turn under its graph object: it has one entry
    per graph object that the proposals yielded, and the frequency of an
    entry is the number of proposals that yielded that very object.  The
    terminal proposals of the particles that hold a graph share the
    entry of that graph, while every extension has an entry of its own
    with frequency 1, whether or not another proposal yields a graph
    with the same nodes. *)
Theorem infer_tally_by_identity self spec (j : nat) fresh (w : World)
    specEncoding population st sf st' :
  infer_population execute multinomial self spec j (initial_state fresh w)
    = OK ((specEncoding, population), st) ->
  propose execute self spec specEncoding population st = OK (sf, st') ->
  (forall g1 g2, graph_eqb g1 g2 = true <-> gid g1 = gid g2) /\
  exists events,
    proposed execute self spec specEncoding population st events st' /\
    (forall p x g, In (p, x, g) events ->
       In p population /\
       match x with
       | None => g = graph p
       | Some o => nodes g = nodes (graph p) ∪ {[o]} /\
                   (next_id st <= gid g < next_id st')%nat
       end) /\
    sf = fold_left tally_add (map snd events) [] /\
    NoDup (map (fun e => gid e.1) sf) /\
    (forall g, dict_get sf g 0 = Z.of_nat (occurrences g (map snd events))) /\
    (forall g c, In (g, c) sf <->
       In g (map snd events) /\ c = Z.of_nat (occurrences g (map snd events))) /\
    (forall p, In p population ->
       dict_get sf (graph p) 0
       = Z.of_nat (length (terminal_proposals (graph p) events))) /\
    (forall p o g, In (p, Some o, g) events ->
       In (g, 1) sf /\ dict_get sf g 0 = 1) /\
    (forall g c, In (g, c) sf ->
       (exists p, In (p, None, g) events /\ In p population /\ g = graph p /\
                  c = Z.of_nat (length (terminal_proposals g events))) \/
       (exists p o, In (p, Some o, g) events /\ In p population /\
                    nodes g = nodes (graph p) ∪ {[o]} /\
                    (next_id st <= gid g < next_id st')%nat /\ c = 1)).
Proof.
  intros Hprefix Hrun. split; [apply graph_eqb_eq|].
  pose proof (infer_population_allocated _ _ _ _ _ _ _ _ _ _ Hprefix) as Hold.
  pose proof (infer_population_NoDup _ _ _ _ _ _ _ _ Hprefix) as Hpop.
  unfold propose in Hrun.
  apply foldM_propose_particle_events in Hrun as (events & Hev & -> & HG & Hall).
  set (G := map snd events) in *.
  exists events. split; [exact Hev|].
  assert (forall p x g, In (p, x, g) events ->
            In p population /\ turn_graph (next_id st) (next_id st') p x g) as Hturn.
  { intros p x g Hin. rewrite List.Forall_forall in Hall. apply (Hall _ Hin). }
  split; [exact Hturn|]. split; [reflexivity|].
  assert (NoDup (map (fun e : ProgramGraph * Z => gid e.1) (fold_left tally_add G [])))
    as Hnd by (apply fold_tally_add_NoDup; constructor).
  split; [exact Hnd|].
  assert (forall g, dict_get (fold_left tally_add G []) g 0 = Z.of_nat (occurrences g G))
    as Hcount by (intros g; rewrite dict_get_fold_tally_add; simpl; lia).
  split; [exact Hcount|].
  assert (forall g c, In (g, c) (fold_left tally_add G []) <->
                      In g G /\ c = Z.of_nat (occurrences g G)) as Hentries.
  { intros g c. split.
    - intros Hin. split.
      + destruct (fold_tally_add_entries _ _ _ Hin) as [[]|Hg]. exact Hg.
      + rewrite <- Hcount. symmetry.
        apply (dict_get_In (World:=World)); assumption.
    - intros [Hg ->]. pose proof (occurrences_In _ _ Hg) as Hocc.
      destruct (dict_get_entry (fold_left tally_add G []) g 0) as (g' & Hin & Hg').
      { rewrite Hcount. lia. }
      rewrite Hcount in Hin.
      assert (g' = g) as ->; [|exact Hin].
      eapply yields_unique; try eassumption.
      destruct (fold_tally_add_entries _ _ _ Hin) as [[]|Hin']. exact Hin'. }
  split; [exact Hentries|].
  assert (forall p, In p population ->
            occurrences (graph p) G = length (terminal_proposals (graph p) events))
    as Hterminal.
  { intros p Hp. eapply occurrences_terminal; [|exact Hall].
    rewrite List.Forall_forall in Hold. apply Hold, Hp. }
  split; [intros p Hp; rewrite Hcount, (Hterminal p Hp); reflexivity|].
  assert (forall p o g, In (p, Some o, g) events -> occurrences g G = 1%nat) as Hnew.
  { intros p o g Hin. destruct (Hturn _ _ _ Hin) as [_ [_ Hr]].
    apply (yields_new_once _ _ _ _ g Hold HG); [lia|].
    apply in_map_iff. exists (p, Some o, g). auto. }
  split.
  { intros p o g Hin. rewrite Hcount, (Hnew _ _ _ Hin). split; [|reflexivity].
    apply Hentries. split; [|rewrite (Hnew _ _ _ Hin); reflexivity].
    apply in_map_iff. exists (p, Some o, g). auto. }
  intros g c Hin. apply Hentries in Hin as [Hg ->].
  apply in_map_iff in Hg as ([[p x] g'] & Heq & He). simpl in Heq. subst g'.
  destruct (Hturn _ _ _ He) as [Hp Ht]. destruct x as [o|].
  - right. exists p, o. destruct Ht as [Hn Hr].
    rewrite (Hnew _ _ _ He). auto.
  - left. exists p. simpl in Ht. subst g.
    rewrite (Hterminal p Hp). auto.
Qed.

Lemma SMC_init_OK m (n : Z) (fw : R) self :
  SMC_init m n fw = OK self -> self = mkSMC n fw m /\ 0 < n.
Proof.
  unfold SMC_init. destruct (0 <? n) eqn:E; [|discriminate].
  intros [= <-]. split; [reflexivity|lia].
Qed.

(** X9: in a search run by a controller that was constructed, after [j]
    rounds every particle of the population has a frequency of at least
    1, holds a graph of at most [j] nodes, has all the objects of its
    graph in the object cache and carries the distance stored for its
    graph in the distance cache; no two particles hold the same graph
    object. *)
Theorem infer_population_invariant m (n : Z) (fw : R) self spec (j : nat)
    fresh (w : World) specEncoding population st :
  SMC_init m n fw = OK self ->
  infer_population execute multinomial self spec j (initial_state fresh w)
    = OK ((specEncoding, population), st) ->
  Forall (fun p =>
            1 <= frequency p /\
            len (graph p) <= Z.of_nat j /\
            (forall o, o ∈ objects (graph p) -> is_Some (_objectEncodings st !! o)) /\
            _distance st !! gid (graph p) = Some (Particle_distance p))
         population /\
  List.NoDup (map (fun p => gid (graph p)) population).
Proof.
  intros Hinit Hrun. apply SMC_init_OK in Hinit as [-> Hn].
  destruct (infer_population_good (mkSMC n fw m) spec j fresh w specEncoding
              population st Hn Hrun) as [Hgood Hnd].
  split; [|exact Hnd]. eapply Forall_impl; [exact Hgood|]. simpl.
  intros p (Hc & _ & Hf & Hs & Hd). unfold len, objects.
  split; [lia|]. split; [lia|]. split; [exact Hc|exact Hd].
Qed.

(** *** What [infer] returns *)

Lemma round_sum_frequency self spec specEncoding population st population' st' :
  multinomial_contract multinomial ->
  round execute multinomial self spec specEncoding population st
    = OK (population', st') ->
  population' = [] \/ sum_frequency population' = particles self.
Proof.
  intros Hnumpy Hrun. unfold round in Hrun.
  apply bind_OK in Hrun as (sf & st1 & _ & Hrun). unfold resample in Hrun.
  apply bind_OK in Hrun as (samples & st2 & Hsamples & Hrun).
  apply bind_OK in Hrun as (lws & st3 & Hlws & Hrun).
  apply lift_OK in Hlws as [Hlws ->].
  apply bind_OK in Hrun as (ps & st3 & Hps & Hrun).
  apply lift_OK in Hps as [Hps ->].
  apply bind_OK in Hrun as (counts & st3 & Hcounts & Hrun).
  injection Hrun as <- _.
  destruct samples as [|q samples]; [left; reflexivity|right].
  apply rmapM_length in Hlws.
  assert (length ps = length lws) as Hlen.
  { unfold normalize in Hps. apply rbind_OK in Hps as (es & Hes & Hps).
    apply rmapM_length in Hes, Hps. congruence. }
  unfold call_multinomial in Hcounts.
  destruct (multinomial (particles self) ps (world st2)) as [[cs w']|e] eqn:Hm;
    [|discriminate].
  injection Hcounts as <- _.
  destruct (Hnumpy _ _ _ _ _ Hm) as (Hlen' & Hpos & Hsum).
  rewrite survivors_sum; [|congruence|exact Hpos].
  apply Hsum. intros ->. simpl in *. destruct lws; discriminate.
Qed.

Lemma rounds_sum_frequency self spec specEncoding (n : nat) population st population' st' :
  multinomial_contract multinomial ->
  population = [] \/ sum_frequency population = particles self ->
  rounds execute multinomial self spec specEncoding n population st
    = OK (population', st') ->
  population' = [] \/ sum_frequency population' = particles self.
Proof.
  intros Hnumpy. revert population st. unfold rounds.
  induction n as [|n IH]; intros population st Hsum Hrun; simpl in Hrun.
  - injection Hrun as <- _. exact Hsum.
  - apply bind_OK in Hrun as (pop1 & st1 & Hround & Hrun).
    eapply IH; [|exact Hrun]. eapply round_sum_frequency; eassumption.
Qed.

Lemma length_le_sum_frequency population :
  Forall (fun p => 0 < frequency p) population ->
  Z.of_nat (length population) <= sum_frequency population.
Proof.
  unfold sum_frequency. induction population as [|p population IH]; intros Hpos;
    simpl; [lia|].
  pose proof (Forall_inv Hpos) as Hp. simpl in Hp. apply Forall_inv_tail in Hpos.
  specialize (IH Hpos). lia.
Qed.

Lemma infer_OK self spec (maximumLength : Z) fresh (w : World) out st :
  infer execute multinomial self spec maximumLength fresh w = OK (out, st) ->
  exists specEncoding population,
    infer_population execute multinomial self spec (Z.to_nat maximumLength)
      (initial_state fresh w) = OK ((specEncoding, population), st) /\
    out = map graph population.
Proof.
  unfold infer, infer_body. intros Hrun.
  apply bind_OK in Hrun as ([se population] & st1 & Hpop & Hret).
  injection Hret as <- <-. eauto.
Qed.

(** X10: the list [infer] returns, for a controller that was
    constructed, holds no graph object twice and only graphs of at most
    [maximumLength] nodes (none but the empty graph when
    [maximumLength <= 0]); when the multinomial draw obeys NumPy's
    contract it holds at most [particles] graphs. *)
Theorem infer_result_bounds m (n : Z) (fw : R) self spec (maximumLength : Z)
    fresh (w : World) out st :
  SMC_init m n fw = OK self ->
  infer execute multinomial self spec maximumLength fresh w = OK (out, st) ->
  List.NoDup (map gid out) /\
  Forall (fun g => len g <= Z.max 0 maximumLength) out /\
  (multinomial_contract multinomial -> Z.of_nat (length out) <= particles self).
Proof.
  intros Hinit Hrun. apply SMC_init_OK in Hinit as [-> Hn].
  apply infer_OK in Hrun as (se & population & Hpop & ->).
  destruct (infer_population_good (mkSMC n fw m) spec _ fresh w se population st
              Hn Hpop) as [Hgood Hnd].
  split; [rewrite map_map; exact Hnd|]. split.
  - apply List.Forall_forall. intros g Hg. apply in_map_iff in Hg as (p & <- & Hp).
    rewrite List.Forall_forall in Hgood.
    destruct (Hgood p Hp) as (_ & _ & _ & Hsize & _). unfold len. lia.
  - intros Hnumpy. rewrite length_map.
    assert (Forall (fun p => 0 < frequency p) population) as Hpos.
    { eapply Forall_impl; [exact Hgood|]. simpl. tauto. }
    apply length_le_sum_frequency in Hpos.
    rewrite initial_population in Hpop.
    apply bind_OK in Hpop as (pop & st1 & Hrounds & Hret).
    injection Hret as _ <- <-.
    apply rounds_sum_frequency in Hrounds; [|exact Hnumpy|].
    + cbn [particles] in *. destruct Hrounds as [->|Hsum]; [simpl; lia|lia].
    + right. unfold sum_frequency. simpl. lia.
Qed.

(** *** What the search can raise *)

Lemma bind_Raise {S A B} (m : M S A) (k : A -> M S B) (s : S) e :
  bind m k s = Raise e ->
  m s = Raise e \/ exists a s1, m s = OK (a, s1) /\ k a s1 = Raise e.
Proof.
  unfold bind. destruct (m s) as [[a s1]|e'].
  - intros Hk. right. eauto.
  - intros [= ->]. left. reflexivity.
Qed.

Lemma lift_Raise {S A} (r : result A) (s : S) e : lift r s = Raise e -> r = Raise e.
Proof. unfold lift. destruct r; [discriminate|]. intros [= ->]. reflexivity. Qed.

Lemma rmapM_Raise {A B} (f : A -> result B) l e :
  rmapM f l = Raise e -> exists x, In x l /\ f x = Raise e.
Proof.
  induction l as [|x l IH]; simpl; [discriminate|].
  destruct (f x) as [y|e'] eqn:Ex; simpl.
  - destruct (rmapM f l) as [ys|e'']; simpl; [discriminate|].
    intros [= ->]. destruct IH as (x' & Hin & Hx'); [reflexivity|]. eauto.
  - intros [= ->]. eauto.
Qed.

Lemma mapM_Raise {S A B} (P : exn -> Prop) (f : A -> M S B) l (s : S) e :
  (forall x (s : S) e, f x s = Raise e -> P e) -> mapM f l s = Raise e -> P e.
Proof.
  intros Hf. revert s. induction l as [|x l IH]; intros s Hrun; simpl in Hrun;
    [discriminate|].
  apply bind_Raise in Hrun as [Hrun|(y & st1 & _ & Hrun)]; [eapply Hf, Hrun|].
  apply bind_Raise in Hrun as [Hrun|(ys & st2 & _ & Hrun)]; [eapply IH, Hrun|].
  discriminate.
Qed.

Lemma foldM_Raise {S A B} (Inv : S -> Prop) (P : exn -> Prop) (f : B -> A -> M S B) l :
  (forall acc x (s : S) e, In x l -> Inv s -> f acc x s = Raise e -> P e) ->
  (forall acc x (s : S) acc' s', In x l -> Inv s -> f acc x s = OK (acc', s') -> Inv s') ->
  forall acc (s : S) e, Inv s -> foldM f l acc s = Raise e -> P e.
Proof.
  induction l as [|x l IH]; intros Hraise Hkeep acc st e Hinv Hrun; simpl in Hrun;
    [discriminate|].
  apply bind_Raise in Hrun as [Hrun|(acc1 & st1 & Hx & Hrun)].
  - eapply Hraise; [left; reflexivity|exact Hinv|exact Hrun].
  - eapply IH; [| |eapply Hkeep; [left; reflexivity|exact Hinv|exact Hx]|exact Hrun].
    + intros acc0 x0 st0 e0 Hin. apply Hraise. right. exact Hin.
    + intros acc0 x0 st0 acc' st' Hin. apply Hkeep. right. exact Hin.
Qed.

Lemma iterM_Raise {S B} (Inv : B -> S -> Prop) (P : exn -> Prop) (f : B -> M S B) :
  (forall acc (s : S) e, Inv acc s -> f acc s = Raise e -> P e) ->
  (forall acc (s : S) acc' s', Inv acc s -> f acc s = OK (acc', s') -> Inv acc' s') ->
  forall n acc (s : S) e, Inv acc s -> iterM n f acc s = Raise e -> P e.
Proof.
  intros Hraise Hkeep. induction n as [|n IH]; intros acc st e Hinv Hrun;
    simpl in Hrun; [discriminate|].
  apply bind_Raise in Hrun as [Hrun|(acc1 & st1 & Hx & Hrun)].
  - eapply Hraise; eassumption.
  - eapply IH; [eapply Hkeep; eassumption|exact Hrun].
Qed.

Lemma torch_stack_Raise (rows : list Vec) e : torch_stack rows = Raise e -> e = RuntimeError.
Proof.
  unfold torch_stack. destruct rows as [|v rows]; [congruence|].
  destruct (forallb (fun u => Nat.eqb (length u) (length v)) rows);
    [discriminate|congruence].
Qed.

Lemma call_head_Raise {A} (f : World -> option (A * World)) st e :
  call_head f st = Raise e -> e = RuntimeError /\ f (world st) = None.
Proof.
  unfold call_head. destruct (f (world st)) as [[a w]|]; [discriminate|].
  intros [= <-]. auto.
Qed.

Lemma call_head_OK {A} (f : World -> option (A * World)) st a st' :
  call_head f st = OK (a, st') ->
  f (world st) = Some (a, world st') /\ st' = set_world (world st') st.
Proof.
  unfold call_head. destruct (f (world st)) as [[b w]|]; [|discriminate].
  intros [= <- <-]. auto.
Qed.

(** A line of code fails only on a pointer past the objects in scope. *)
Lemma sample_once_Raise m objectsInScope (h0 : Hidden) oe samples st e :
  sample_once m objectsInScope h0 oe samples st = Raise e -> e = IndexError.
Proof.
  unfold sample_once. intros Hrun.
  apply bind_Raise in Hrun as [Hrun|(line & st1 & _ & Hrun)].
  { rewrite call_run in Hrun. discriminate. }
  destruct line as [line|]; [|discriminate].
  apply bind_Raise in Hrun as [Hrun|(line' & st2 & _ & Hrun)].
  - apply lift_Raise, rmapM_Raise in Hrun as (t & _ & Ht).
    destruct t as [s|i]; simpl in Ht; [discriminate|].
    destruct (objectsInScope !! i); [discriminate|congruence].
  - destruct (contains_RETURN line'); [discriminate|].
    destruct (parseLine m line'); discriminate.
Qed.

(** The lookups [objectEncodings[o]] hit when the objects are cached. *)
Lemma mapM_dict_lookup_cached (os : list Node) st :
  (forall o, In o os -> is_Some (_objectEncodings st !! o)) ->
  exists rows, mapM dict_lookup os st = OK (rows, st).
Proof.
  induction os as [|o os IH]; intros Hc; simpl.
  - exists []. reflexivity.
  - destruct (Hc o (or_introl eq_refl)) as [oe Hoe].
    destruct IH as [rows Hrows]; [intros o' Ho'; apply Hc; right; exact Ho'|].
    exists (oe :: rows). unfold bind at 1. unfold dict_lookup at 1.
    unfold bind at 1, gets. rewrite Hoe. unfold ret at 1.
    unfold bind. rewrite Hrows. reflexivity.
Qed.

Lemma repeatedlySample_Raise m specEncoding g (n_samples : Z) st e :
  cached g st ->
  repeatedlySample m specEncoding g n_samples st = Raise e ->
  e = IndexError \/ e = RuntimeError.
Proof.
  intros Hc Hrun. unfold repeatedlySample in Hrun.
  apply bind_Raise in Hrun as [Hrun|(oe & st1 & _ & Hrun)].
  - destruct (0 <? len g); [|discriminate].
    apply bind_Raise in Hrun as [Hrun|(rows & st1 & _ & Hrun)].
    + destruct (mapM_dict_lookup_cached (elements (objects g)) st) as [rows Hrows].
      { intros o Ho. apply Hc. apply elem_of_elements, list_elem_of_In, Ho. }
      congruence.
    + apply lift_Raise, torch_stack_Raise in Hrun. auto.
  - apply bind_Raise in Hrun as [Hrun|(h0 & st2 & _ & Hrun)].
    { apply call_head_Raise in Hrun as [-> _]. auto. }
    left. revert Hrun.
    apply (iterM_Raise (fun _ _ => True) (fun e => e = IndexError)); [| |exact I].
    + intros acc st0 e0 _. apply sample_once_Raise.
    + auto.
Qed.

Lemma tally_proposal_Raise self spec p sf newObject st e :
  tally_proposal execute self spec p sf newObject st = Raise e -> False.
Proof.
  unfold tally_proposal, newGraph. intros Hrun.
  apply bind_Raise in Hrun as [Hrun|(g & st1 & _ & Hrun)]; [|discriminate].
  destruct newObject as [o|]; [|discriminate].
  apply bind_Raise in Hrun as [Hrun|(oe & st1 & _ & Hrun)].
  - destruct (objectEncoding_total execute self spec o st) as (oe & st1 & Hoe).
    congruence.
  - rewrite extend_run in Hrun. discriminate.
Qed.

Lemma propose_particle_cache_extends self spec specEncoding sf p :
  respects cache_extends (propose_particle execute self spec specEncoding sf p).
Proof.
  apply propose_particle_respects.
  - apply cache_extends_refl.
  - apply cache_extends_trans.
  - intros st w o e He. exact He.
  - intros st o e He. exact He.
  - apply objectEncoding_cache_extends.
Qed.

Lemma propose_particle_Raise self spec specEncoding sf p st e :
  cached (graph p) st ->
  propose_particle execute self spec specEncoding sf p st = Raise e ->
  e = IndexError \/ e = RuntimeError.
Proof.
  intros Hc Hrun. unfold propose_particle in Hrun.
  apply bind_Raise in Hrun as [Hrun|(proposals & st1 & _ & Hrun)].
  - eapply repeatedlySample_Raise; eassumption.
  - exfalso. revert Hrun.
    apply (foldM_Raise (fun _ => True) (fun _ => False)); [| |exact I].
    + intros acc x st0 e0 _ _. apply tally_proposal_Raise.
    + auto.
Qed.

Lemma propose_Raise self spec specEncoding population st e :
  (forall p, In p population -> cached (graph p) st) ->
  propose execute self spec specEncoding population st = Raise e ->
  e = IndexError \/ e = RuntimeError.
Proof.
  intros Hc. unfold propose.
  apply (foldM_Raise (fun st => forall p, In p population -> cached (graph p) st)
           (fun e => e = IndexError \/ e = RuntimeError)); [| |exact Hc].
  - intros acc p st0 e0 Hp Hinv. apply propose_particle_Raise, Hinv, Hp.
  - intros acc p st0 acc' st' _ Hinv Hrun q Hq.
    eapply cached_mono; [apply Hinv, Hq|].
    eapply propose_particle_cache_extends, Hrun.
Qed.

Lemma scopeEncoding_Raise self spec g st e :
  scopeEncoding execute self spec g st = Raise e -> e = RuntimeError.
Proof.
  unfold scopeEncoding. destruct (0 <? len g); [|discriminate]. intros Hrun.
  apply bind_Raise in Hrun as [Hrun|(rows & st1 & _ & Hrun)].
  - exfalso. revert Hrun. apply (mapM_Raise (fun _ => False)).
    intros o st0 e0 Ho.
    destruct (objectEncoding_total execute self spec o st0) as (oe & st1 & Hoe).
    congruence.
  - apply lift_Raise, torch_stack_Raise in Hrun. exact Hrun.
Qed.

Lemma Particle_init_Raise self spec specEncoding g (f : Z) st e :
  Particle_init execute self spec specEncoding g f st = Raise e -> e = RuntimeError.
Proof.
  unfold Particle_init. intros Hrun.
  apply bind_Raise in Hrun as [Hrun|(d & st1 & _ & Hrun)]; [|discriminate].
  unfold distance in Hrun.
  apply bind_Raise in Hrun as [Hrun|(cache & st1 & _ & Hrun)]; [discriminate|].
  destruct (cache !! gid g); [discriminate|].
  apply bind_Raise in Hrun as [Hrun|(se & st2 & _ & Hrun)].
  { eapply scopeEncoding_Raise, Hrun. }
  apply bind_Raise in Hrun as [Hrun|(d & st3 & _ & Hrun)].
  { rewrite call_run in Hrun. discriminate. }
  apply bind_Raise in Hrun as [Hrun|(u & st4 & _ & Hrun)]; discriminate.
Qed.

Lemma normalize_total (lws : list R) : exists ps, normalize lws = OK ps.
Proof.
  destruct lws as [|lw lws].
  - exists []. reflexivity.
  - eexists. apply (normalize_closed_form (lw :: lws) (fold_left Rmax lws lw)).
    reflexivity.
Qed.

Lemma resample_Raise self spec specEncoding sf st e :
  Forall (fun entry => 1 <= entry.2) sf ->
  resample execute multinomial self spec specEncoding sf st = Raise e ->
  e = RuntimeError \/
  exists pvals w, multinomial (particles self) pvals w = Raise e.
Proof.
  intros Hpos Hrun. unfold resample in Hrun.
  apply bind_Raise in Hrun as [Hrun|(samples & st1 & Hsamples & Hrun)].
  { left. revert Hrun. apply (mapM_Raise (fun e => e = RuntimeError)).
    intros [g f] st0 e0. apply Particle_init_Raise. }
  apply mapM_Particle_init in Hsamples as [Hmap _].
  assert (Forall (fun p => 0 < frequency p) samples) as Hfreq.
  { apply List.Forall_forall. intros p Hp.
    rewrite List.Forall_forall in Hpos.
    assert (In (graph p, frequency p) sf) as Hin.
    { rewrite <- Hmap. apply in_map_iff. exists p. auto. }
    specialize (Hpos _ Hin). simpl in Hpos. lia. }
  apply bind_Raise in Hrun as [Hrun|(lws & st2 & _ & Hrun)].
  { apply lift_Raise in Hrun. rewrite (logWeights_positive _ Hfreq) in Hrun.
    discriminate. }
  apply bind_Raise in Hrun as [Hrun|(ps & st3 & _ & Hrun)].
  { apply lift_Raise in Hrun. destruct (normalize_total lws) as [ps Hps]. congruence. }
  apply bind_Raise in Hrun as [Hrun|(counts & st4 & _ & Hrun)]; [|discriminate].
  right. unfold call_multinomial in Hrun.
  destruct (multinomial (particles self) ps (world st3)) as [[cs w']|e'] eqn:Hm;
    [discriminate|].
  injection Hrun as ->. eauto.
Qed.

Lemma round_Raise self spec specEncoding population st e :
  (forall p, In p population -> cached (graph p) st) ->
  round execute multinomial self spec specEncoding population st = Raise e ->
  e = IndexError \/ e = RuntimeError \/
  exists pvals w, multinomial (particles self) pvals w = Raise e.
Proof.
  intros Hc Hrun. unfold round in Hrun.
  apply bind_Raise in Hrun as [Hrun|(sf & st1 & Hsf & Hrun)].
  - destruct (propose_Raise _ _ _ _ _ _ Hc Hrun) as [->| ->]; auto.
  - right. eapply resample_Raise; [|exact Hrun].
    unfold propose in Hsf. apply foldM_propose_particle_mass in Hsf as [_ Hpos].
    apply Hpos. constructor.
Qed.

Lemma round_cached self spec specEncoding population st population' st' :
  (forall p, In p population -> cached (graph p) st) ->
  round execute multinomial self spec specEncoding population st
    = OK (population', st') ->
  forall p, In p population' -> cached (graph p) st'.
Proof.
  intros Hc Hrun. unfold round in Hrun.
  apply bind_OK in Hrun as (sf & st1 & Hsf & Hrun).
  destruct (propose_cached _ _ _ _ _ _ _ Hsf Hc) as [Hcached _].
  pose proof (resample_cache_extends _ _ _ _ _ _ _ Hrun) as Hext.
  unfold resample in Hrun.
  apply bind_OK in Hrun as (samples & st2 & Hsamples & Hrun).
  apply bind_OK in Hrun as (lws & st3 & _ & Hrun).
  apply bind_OK in Hrun as (ps & st4 & _ & Hrun).
  apply bind_OK in Hrun as (counts & st5 & _ & Hrun).
  injection Hrun as <- <-.
  apply mapM_Particle_init in Hsamples as [Hmap _].
  intros p Hp. apply survivors_In in Hp as (q & c & Hq & -> & _). simpl.
  eapply cached_mono; [|exact Hext].
  apply (Hcached (graph q, frequency q)).
  rewrite <- Hmap. apply in_map_iff. exists q. auto.
Qed.

(** X11: what a search can raise, the collaborators returning: an
    [IndexError] (a sampled [Pointer] past the objects in scope), a
    [RuntimeError] ([torch.stack] on encodings of different sizes, or
    [initialHidden] on sizes that do not fit), or what the multinomial
    draw raises for [particles] slots.  So the
    dictionary lookups of [repeatedlySample] never miss, no logarithm is
    taken of a count below 1, and the weights are never divided by
    zero. *)
Theorem infer_raises self spec (maximumLength : Z) fresh (w : World) e :
  infer execute multinomial self spec maximumLength fresh w = Raise e ->
  e = IndexError \/ e = RuntimeError \/
  exists pvals w', multinomial (particles self) pvals w' = Raise e.
Proof.
  unfold infer, infer_body. intros Hrun.
  apply bind_Raise in Hrun as [Hrun|(sp & st1 & _ & Hrun)]; [|discriminate].
  rewrite initial_population in Hrun.
  apply bind_Raise in Hrun as [Hrun|(pop & st1 & _ & Hrun)]; [|discriminate].
  revert Hrun. unfold rounds.
  apply (iterM_Raise
           (fun population st => forall p, In p population -> cached (graph p) st)
           (fun e => e = IndexError \/ e = RuntimeError \/
                     exists pvals w', multinomial (particles self) pvals w' = Raise e)).
  - intros population st e0 Hc. apply round_Raise, Hc.
  - intros population st population' st'. apply round_cached.
  - intros p [<-|[]] o Ho. simpl in Ho. set_solver.
Qed.

(** *** When the search returns *)

(** The encodings the object encoder returns have its output width. *)
Definition encoder_width self spec : Prop :=
  forall v (w : World),
    length (objectEncoder (model self) spec v w).1 = outputDimensionality (model self).

(** A sampled [Pointer] points into the encodings the decoder was given
    (none when it was given [None]). *)
Definition pointers_in_scope m : Prop :=
  forall (h : Hidden) (oe : option Mat) (w : World) line,
    (decoder_sample m h oe w).1 = Some line ->
    Forall (fun t => match t with
                     | TPointer i => (i < length (default [] oe))%nat
                     | TStr _ => True
                     end) line.

(** [initialHidden] returns on object encodings of the encoder's output
    width and the spec encoding [specEncoding]: their sizes fit its
    first layer. *)
Definition initialHidden_fits self specEncoding : Prop :=
  forall (oe : Mat) (w : World),
    oe <> [] ->
    Forall (fun row => length row = outputDimensionality (model self)) oe ->
    is_Some (initialHidden (model self) oe specEncoding w).

(** The draw of [n] slots returns on a distribution, and on no candidate
    at all. *)
Definition multinomial_returns (n : Z) : Prop :=
  forall pvals (w : World),
    Forall (fun x : R => 0 <= x)%R pvals ->
    pvals = [] \/ py_sum pvals = 1%R ->
    exists counts w', multinomial n pvals w = OK (counts, w').

(** The cached encodings have the encoder's output width. *)
Definition width_inv self st : Prop :=
  forall o e, _objectEncodings st !! o = Some e ->
              length e = outputDimensionality (model self).

Definition keeps_width self st st' : Prop := width_inv self st -> width_inv self st'.

Lemma objectEncoding_keeps_width self spec o :
  encoder_width self spec ->
  respects (keeps_width self) (objectEncoding execute self spec o).
Proof.
  intros Henc st oe st' Hrun Hst.
  destruct (_objectEncodings st !! o) as [e|] eqn:E.
  - rewrite (objectEncoding_hit _ _ _ _ _ _ E) in Hrun. injection Hrun as _ <-.
    exact Hst.
  - rewrite (objectEncoding_miss _ _ _ _ _ E) in Hrun. simpl in Hrun.
    injection Hrun as _ <-. intros o' e'. simpl.
    destruct (decide (o = o')) as [->|Hne].
    + rewrite lookup_insert_eq. intros [= <-]. apply Henc.
    + rewrite lookup_insert_ne by exact Hne. apply Hst.
Qed.

Lemma keeps_width_refl self st : keeps_width self st st.
Proof. intros Hst. exact Hst. Qed.

Lemma keeps_width_trans self st1 st2 st3 :
  keeps_width self st1 st2 -> keeps_width self st2 st3 -> keeps_width self st1 st3.
Proof. unfold keeps_width. auto. Qed.

Lemma mapM_Raise_inv {S A B} (Inv : S -> Prop) (P : exn -> Prop) (f : A -> M S B) l :
  (forall x (s : S) e, Inv s -> f x s = Raise e -> P e) ->
  (forall x (s : S) y s', Inv s -> f x s = OK (y, s') -> Inv s') ->
  forall (s : S) e, Inv s -> mapM f l s = Raise e -> P e.
Proof.
  intros Hraise Hkeep. induction l as [|x l IH]; intros s e Hinv Hrun; simpl in Hrun;
    [discriminate|].
  apply bind_Raise in Hrun as [Hrun|(y & s1 & Hx & Hrun)]; [eapply Hraise; eassumption|].
  apply bind_Raise in Hrun as [Hrun|(ys & s2 & _ & Hrun)]; [|discriminate].
  eapply IH; [eapply Hkeep; eassumption|exact Hrun].
Qed.

Lemma sample_once_safe m objectsInScope (h0 : Hidden) oe samples st e :
  pointers_in_scope m ->
  ((0 < length objectsInScope)%nat -> length oe = length objectsInScope) ->
  sample_once m objectsInScope h0 oe samples st = Raise e -> False.
Proof.
  intros Hptr Hlen. unfold sample_once. intros Hrun.
  apply bind_Raise in Hrun as [Hrun|(line & st1 & Hline & Hrun)].
  { rewrite call_run in Hrun. discriminate. }
  rewrite call_run in Hline. injection Hline as Hline _.
  destruct line as [line|]; [|discriminate].
  apply Hptr in Hline.
  apply bind_Raise in Hrun as [Hrun|(line' & st2 & _ & Hrun)].
  - apply lift_Raise, rmapM_Raise in Hrun as (t & Ht & Hraise).
    rewrite List.Forall_forall in Hline. specialize (Hline t Ht).
    destruct t as [s|i]; simpl in Hraise; [discriminate|].
    destruct (objectsInScope !! i) eqn:E; [discriminate|].
    apply lookup_ge_None in E.
    destruct (0 <? Z.of_nat (length objectsInScope)) eqn:E0; simpl in Hline; [|lia].
    apply Z.ltb_lt in E0. rewrite Hlen in Hline by lia. lia.
  - destruct (contains_RETURN line'); [discriminate|].
    destruct (parseLine m line'); discriminate.
Qed.

Lemma mapM_dict_lookup_rows (os : list Node) st rows st' :
  mapM dict_lookup os st = OK (rows, st') ->
  Forall (fun r => exists o, _objectEncodings st !! o = Some r) rows.
Proof.
  revert st rows st'. induction os as [|o os IH]; intros st rows st' Hrun;
    simpl in Hrun.
  - injection Hrun as <- _. constructor.
  - apply bind_OK in Hrun as (r & st1 & Hr & Hrun).
    apply bind_OK in Hrun as (rs & st2 & Hrs & Hrun). injection Hrun as <- _.
    unfold dict_lookup in Hr. apply bind_OK in Hr as (cache & st0 & Hget & Hr).
    injection Hget as <- <-.
    destruct (_objectEncodings st !! o) as [oe|] eqn:E; [|discriminate].
    injection Hr as <- <-. constructor; [eauto|]. eapply IH, Hrs.
Qed.

Lemma torch_stack_OK (rows : list Vec) mat : torch_stack rows = OK mat -> mat = rows.
Proof.
  unfold torch_stack. destruct rows as [|v rows]; [discriminate|].
  destruct (forallb (fun u => Nat.eqb (length u) (length v)) rows); [|discriminate].
  congruence.
Qed.

Lemma elements_nonempty (g : ProgramGraph) :
  0 < len g -> (0 < length (elements (objects g)))%nat.
Proof.
  unfold len, objects. intros Hlen.
  change (length (elements (nodes g))) with (size (nodes g)). lia.
Qed.

Lemma repeatedlySample_safe self specEncoding g (n_samples : Z) st e :
  pointers_in_scope (model self) ->
  initialHidden_fits self specEncoding ->
  cached g st -> width_inv self st ->
  repeatedlySample (model self) specEncoding g n_samples st = Raise e -> False.
Proof.
  intros Hptr Hhead Hc Hw Hrun. unfold repeatedlySample in Hrun.
  apply bind_Raise in Hrun as [Hrun|(oe & st1 & Hoe & Hrun)].
  - destruct (0 <? len g) eqn:Elen; [|discriminate]. apply Z.ltb_lt in Elen.
    destruct (mapM_dict_lookup_cached (elements (objects g)) st) as [rows Hrows].
    { intros o Ho. apply Hc. apply elem_of_elements, list_elem_of_In, Ho. }
    apply bind_Raise in Hrun as [Hrun|(rows' & st1 & Hrows' & Hrun)]; [congruence|].
    apply lift_Raise in Hrun.
    rewrite (torch_stack_same_width rows' (outputDimensionality (model self)))
      in Hrun; [discriminate| |].
    + apply mapM_length in Hrows'. apply elements_nonempty in Elen.
      destruct rows'; [simpl in Hrows'; lia|discriminate].
    + apply mapM_dict_lookup_rows in Hrows'.
      eapply Forall_impl; [exact Hrows'|]. simpl. intros r (o & Ho). eapply Hw, Ho.
  - assert (oe <> [] /\
            Forall (fun row => length row = outputDimensionality (model self)) oe /\
            ((0 < length (elements (objects g)))%nat ->
             length oe = length (elements (objects g)))) as (Hne & Hwidth & Hlen).
    { destruct (0 <? len g) eqn:Elen.
      - apply Z.ltb_lt in Elen.
        apply bind_OK in Hoe as (rows & st3 & Hrows & Hoe).
        apply lift_OK in Hoe as [Hoe _]. apply torch_stack_OK in Hoe as ->.
        pose proof (mapM_length _ _ _ _ _ Hrows) as Hl.
        apply elements_nonempty in Elen.
        split; [destruct rows; [simpl in Hl; lia|discriminate]|].
        split; [|intros _; exact Hl].
        apply mapM_dict_lookup_rows in Hrows.
        eapply Forall_impl; [exact Hrows|]. simpl. intros r (o & Ho). eapply Hw, Ho.
      - injection Hoe as <- _. apply Z.ltb_ge in Elen.
        split; [discriminate|].
        split; [repeat constructor; apply repeat_length|].
        intros Hpos. unfold len, objects in *.
        change (length (elements (nodes g))) with (size (nodes g)) in Hpos. lia. }
    apply bind_Raise in Hrun as [Hrun|(h0 & st2 & _ & Hrun)].
    { apply call_head_Raise in Hrun as [_ Hnone].
      destruct (Hhead oe (world st1) Hne Hwidth) as [hw Hsome]. congruence. }
    revert Hrun.
    apply (iterM_Raise (fun _ _ => True) (fun _ => False)); [| |exact I]; [|auto].
    intros acc st0 e0 _. apply sample_once_safe; [exact Hptr|exact Hlen].
Qed.

Lemma scopeEncoding_safe self spec g st e :
  encoder_width self spec -> width_inv self st ->
  scopeEncoding execute self spec g st = Raise e -> False.
Proof.
  intros Henc Hw. unfold scopeEncoding.
  destruct (0 <? len g) eqn:Elen; [|discriminate]. apply Z.ltb_lt in Elen.
  intros Hrun.
  destruct (mapM_objectEncoding_total execute self spec (elements (objects g)) st
              Henc Hw) as (rows & st' & Hrows & Hwidth & _).
  apply bind_Raise in Hrun as [Hrun|(rows' & st1 & Hrows' & Hrun)]; [congruence|].
  rewrite Hrows in Hrows'. injection Hrows' as <- <-.
  apply lift_Raise in Hrun.
  rewrite (torch_stack_same_width rows (outputDimensionality (model self)))
    in Hrun; [discriminate| |exact Hwidth].
  apply mapM_length in Hrows. apply elements_nonempty in Elen.
  destruct rows; [simpl in Hrows; lia|discriminate].
Qed.

Lemma Particle_init_safe self spec specEncoding g (f : Z) st e :
  encoder_width self spec -> width_inv self st ->
  Particle_init execute self spec specEncoding g f st = Raise e -> False.
Proof.
  intros Henc Hw. unfold Particle_init. intros Hrun.
  apply bind_Raise in Hrun as [Hrun|(d & st1 & _ & Hrun)]; [|discriminate].
  unfold distance in Hrun.
  apply bind_Raise in Hrun as [Hrun|(cache & st1 & Hget & Hrun)]; [discriminate|].
  injection Hget as <- <-.
  destruct (_distance st !! gid g); [discriminate|].
  apply bind_Raise in Hrun as [Hrun|(se & st2 & _ & Hrun)].
  { eapply scopeEncoding_safe; eassumption. }
  apply bind_Raise in Hrun as [Hrun|(d & st3 & _ & Hrun)].
  { rewrite call_run in Hrun. discriminate. }
  apply bind_Raise in Hrun as [Hrun|(u & st4 & _ & Hrun)]; discriminate.
Qed.

(** What [normalize] returns is a distribution, or empty. *)
Lemma normalize_distribution (lws ps : list R) :
  normalize lws = OK ps ->
  Forall (fun x : R => 0 <= x)%R ps /\ (ps = [] \/ py_sum ps = 1%R).
Proof.
  destruct lws as [|lw l] eqn:Elws.
  - intros [= <-]. split; [constructor|left; reflexivity].
  - rewrite <- Elws in *.
    assert (py_max lws = OK (fold_left Rmax l lw)) as Hmx by (rewrite Elws; reflexivity).
    set (mx := fold_left Rmax l lw) in *.
    rewrite (normalize_closed_form lws mx Hmx). intros [= <-].
    set (es := map (fun x => exp (x - mx))%R lws).
    assert (0 < py_sum es)%R as Hpos.
    { apply py_sum_pos.
      - subst es. rewrite Elws. discriminate.
      - apply List.Forall_forall. intros y Hy.
        apply in_map_iff in Hy as (x & <- & _). apply exp_pos. }
    split.
    + apply List.Forall_forall. intros y Hy. apply in_map_iff in Hy as (z & <- & Hz).
      subst es. apply in_map_iff in Hz as (x & <- & _).
      pose proof (exp_pos (x - mx)) as Hx.
      apply Rlt_le. apply Rdiv_lt_0_compat; assumption.
    + right. rewrite py_sum_map_div. field. lra.
Qed.

Section Returns.

Variable self : SMC.
Variable spec : Spec.
Hypothesis Hencoder : encoder_width self spec.
Hypothesis Hpointers : pointers_in_scope (model self).
Hypothesis Hdraw : multinomial_returns (particles self).

Lemma round_keeps_width specEncoding population :
  respects (keeps_width self)
           (round execute multinomial self spec specEncoding population).
Proof.
  apply round_respects.
  - apply keeps_width_refl.
  - apply keeps_width_trans.
  - intros st w Hst. exact Hst.
  - intros st c Hst. exact Hst.
  - intros st Hst. exact Hst.
  - intros o. apply objectEncoding_keeps_width, Hencoder.
Qed.

Lemma propose_particle_keeps_width specEncoding sf p :
  respects (keeps_width self) (propose_particle execute self spec specEncoding sf p).
Proof.
  apply propose_particle_respects.
  - apply keeps_width_refl.
  - apply keeps_width_trans.
  - intros st w Hst. exact Hst.
  - intros st Hst. exact Hst.
  - intros o. apply objectEncoding_keeps_width, Hencoder.
Qed.

Lemma propose_keeps_width specEncoding population :
  respects (keeps_width self) (propose execute self spec specEncoding population).
Proof.
  apply propose_respects.
  - apply keeps_width_refl.
  - apply keeps_width_trans.
  - intros st w Hst. exact Hst.
  - intros st Hst. exact Hst.
  - intros o. apply objectEncoding_keeps_width, Hencoder.
Qed.

Lemma Particle_init_keeps_width specEncoding g (f : Z) :
  respects (keeps_width self) (Particle_init execute self spec specEncoding g f).
Proof.
  apply Particle_init_respects.
  - apply keeps_width_refl.
  - apply keeps_width_trans.
  - intros st w Hst. exact Hst.
  - intros st c Hst. exact Hst.
  - intros o. apply objectEncoding_keeps_width, Hencoder.
Qed.

Lemma propose_safe specEncoding population st e :
  initialHidden_fits self specEncoding ->
  (forall p, In p population -> cached (graph p) st) -> width_inv self st ->
  propose execute self spec specEncoding population st = Raise e -> False.
Proof.
  intros Hhead Hc Hw. unfold propose.
  apply (foldM_Raise
           (fun st => (forall p, In p population -> cached (graph p) st) /\
                      width_inv self st)
           (fun _ => False)); [| |split; assumption].
  - intros acc p st0 e0 Hp [Hc0 Hw0] Hrun. unfold propose_particle in Hrun.
    apply bind_Raise in Hrun as [Hrun|(proposals & st1 & _ & Hrun)].
    + eapply repeatedlySample_safe;
        [exact Hpointers|exact Hhead|apply Hc0, Hp|exact Hw0|exact Hrun].
    + revert Hrun.
      apply (foldM_Raise (fun _ => True) (fun _ => False)); [| |exact I]; [|auto].
      intros acc0 x st2 e1 _ _. apply tally_proposal_Raise.
  - intros acc p st0 acc' st' _ [Hc0 Hw0] Hrun. split.
    + intros q Hq. eapply cached_mono; [apply Hc0, Hq|].
      eapply propose_particle_cache_extends, Hrun.
    + eapply propose_particle_keeps_width; eassumption.
Qed.

Lemma resample_safe specEncoding sf st e :
  Forall (fun entry => 1 <= entry.2) sf -> width_inv self st ->
  resample execute multinomial self spec specEncoding sf st = Raise e -> False.
Proof.
  intros Hpos Hw Hrun. unfold resample in Hrun.
  apply bind_Raise in Hrun as [Hrun|(samples & st1 & Hsamples & Hrun)].
  { revert Hrun.
    apply (mapM_Raise_inv (width_inv self) (fun _ => False)); [| |exact Hw].
    - intros [g f] st0 e0 Hw0. apply Particle_init_safe; assumption.
    - intros [g f] st0 p st' Hw0 Hrun. eapply Particle_init_keeps_width; eassumption. }
  apply mapM_Particle_init in Hsamples as [Hmap _].
  assert (Forall (fun p => 0 < frequency p) samples) as Hfreq.
  { apply List.Forall_forall. intros p Hp.
    rewrite List.Forall_forall in Hpos.
    assert (In (graph p, frequency p) sf) as Hin.
    { rewrite <- Hmap. apply in_map_iff. exists p. auto. }
    specialize (Hpos _ Hin). simpl in Hpos. lia. }
  apply bind_Raise in Hrun as [Hrun|(lws & st2 & _ & Hrun)].
  { apply lift_Raise in Hrun. rewrite (logWeights_positive _ Hfreq) in Hrun.
    discriminate. }
  apply bind_Raise in Hrun as [Hrun|(ps & st3 & Hps & Hrun)].
  { apply lift_Raise in Hrun. destruct (normalize_total lws) as [ps Hps]. congruence. }
  apply lift_OK in Hps as [Hps _]. apply normalize_distribution in Hps as [Hnn Hsum].
  apply bind_Raise in Hrun as [Hrun|(counts & st4 & _ & Hrun)]; [|discriminate].
  unfold call_multinomial in Hrun.
  destruct (Hdraw ps (world st3) Hnn Hsum) as (counts & w' & Hm).
  rewrite Hm in Hrun. discriminate.
Qed.

Lemma round_safe specEncoding population st e :
  initialHidden_fits self specEncoding ->
  (forall p, In p population -> cached (graph p) st) -> width_inv self st ->
  round execute multinomial self spec specEncoding population st = Raise e -> False.
Proof.
  intros Hhead Hc Hw Hrun. unfold round in Hrun.
  apply bind_Raise in Hrun as [Hrun|(sf & st1 & Hsf & Hrun)].
  - eapply propose_safe; eassumption.
  - eapply resample_safe; [| |exact Hrun].
    + unfold propose in Hsf. apply foldM_propose_particle_mass in Hsf as [_ Hpos].
      apply Hpos. constructor.
    + eapply propose_keeps_width; eassumption.
Qed.

End Returns.

(** X12: a search returns whenever the parts it calls keep their
    contracts: the object encoder returns vectors of its output width,
    [initialHidden] returns (instead of raising its [RuntimeError]) on
    encodings of that width and the encoding of the spec, their sizes
    fitting its first layer, the decoder samples pointers only into the
    encodings it was given, and the multinomial draw returns on a
    distribution (and on no candidate at all); the spec encoder, the
    decoder and [self.model.distance] being taken to return. *)
Theorem infer_returns self spec (maximumLength : Z) fresh (w : World) :
  encoder_width self spec ->
  initialHidden_fits self (specEncoder (model self) spec w).1 ->
  pointers_in_scope (model self) ->
  multinomial_returns (particles self) ->
  exists out st,
    infer execute multinomial self spec maximumLength fresh w = OK (out, st).
Proof.
  intros Henc Hhead Hptr Hdraw.
  destruct (infer execute multinomial self spec maximumLength fresh w)
    as [[out st]|e] eqn:Hrun; [eauto|exfalso].
  unfold infer, infer_body in Hrun.
  apply bind_Raise in Hrun as [Hrun|(sp & st1 & _ & Hrun)]; [|discriminate].
  rewrite initial_population in Hrun.
  apply bind_Raise in Hrun as [Hrun|(pop & st1 & _ & Hrun)]; [|discriminate].
  revert Hrun. unfold rounds.
  apply (iterM_Raise
           (fun population st => (forall p, In p population -> cached (graph p) st) /\
                                 width_inv self st)
           (fun _ => False)).
  - intros population st e0 [Hc Hw]. apply round_safe; assumption.
  - intros population st population' st' [Hc Hw] Hround. split.
    + eapply round_cached; eassumption.
    + eapply round_keeps_width; eassumption.
  - split.
    + intros p [<-|[]] o Ho. simpl in Ho. set_solver.
    + intros o e0 Ho. simpl in Ho. rewrite lookup_empty in Ho. discriminate.
Qed.

End SearchInvariants.

(** ** The invariants on the concrete search *)

(** *** A round with a terminal proposal *)

(** The decoder's script of a search whose first round samples, from
    the empty graph, the line [RETURN] and the line [a]. *)
Definition demo_script_stop (rest : DemoWorld) : DemoWorld :=
  Some [TStr "RETURN"] :: Some [TStr "a"] :: rest.

Definition demo_graph_0 : DemoGraph := mkProgramGraph 0 ∅.

(** The turns of that round's inner loop, and its tally. *)
Definition demo_events_stop
  : list (DemoParticle * option string * DemoGraph) :=
  [(mkParticle 2 demo_graph_0 0%R, None, demo_graph_0);
   (mkParticle 2 demo_graph_0 0%R, Some "a", demo_graph_a)].

Definition demo_tally_stop : list (DemoGraph * Z) :=
  [(demo_graph_0, 1); (demo_graph_a, 1)].

(** After the proposal phase of that round. *)
Definition demo_state_stop_p (rest : DemoWorld) : DemoState :=
  mkState 2 rest {[ "a" := [0%R] ]} {[ 0%nat := 0%R ]} ["a"] [("a", [0%R])].

(** After the round. *)
Definition demo_population_stop : list DemoParticle :=
  [mkParticle 1 demo_graph_0 0%R; mkParticle 1 demo_graph_a 0%R].
Definition demo_state_stop (rest : DemoWorld) : DemoState :=
  mkState 2 rest {[ "a" := [0%R] ]} {[ 0%nat := 0%R; 1%nat := 0%R ]} ["a"]
    [("a", [0%R]); ("a", [0%R])].

Lemma demo_propose_stop (rest : DemoWorld) :
  propose demo_execute demo_smc tt tt demo_population_0
    (demo_state_0 (demo_script_stop rest))
  = OK (demo_tally_stop, demo_state_stop_p rest).
Proof. vm_compute. reflexivity. Qed.

Lemma demo_proposed_stop (rest : DemoWorld) :
  proposed demo_execute demo_smc tt tt demo_population_0
    (demo_state_0 (demo_script_stop rest)) demo_events_stop (demo_state_stop_p rest).
Proof.
  apply (proposed_cons demo_execute demo_smc tt tt
           (mkParticle 2 demo_graph_0 0%R) []
           (demo_state_0 (demo_script_stop rest))
           [None; Some "a"] (demo_state_0 rest)
           [demo_graph_0; demo_graph_a] (demo_state_stop_p rest)
           [] (demo_state_stop_p rest)).
  - vm_compute. reflexivity.
  - vm_compute. reflexivity.
  - apply proposed_nil.
Qed.

Lemma demo_round_stop (rest : DemoWorld) :
  round demo_execute demo_multinomial demo_smc tt tt
    demo_population_0 (demo_state_0 (demo_script_stop rest))
  = OK (demo_population_stop, demo_state_stop rest).
Proof.
  apply (round_run demo_execute demo_multinomial demo_smc tt tt
           demo_population_0 (demo_state_0 (demo_script_stop rest))
           demo_tally_stop (demo_state_stop_p rest)
           demo_population_stop (demo_state_stop rest) [1; 1] rest).
  - vm_compute. reflexivity.
  - vm_compute. reflexivity.
  - discriminate.
  - repeat constructor.
  - intros ps Hlen. apply demo_multinomial_two. exact Hlen.
Qed.

Lemma demo_resample_stop (rest : DemoWorld) :
  resample demo_execute demo_multinomial demo_smc tt tt demo_tally_stop
    (demo_state_stop_p rest)
  = OK (demo_population_stop, demo_state_stop rest).
Proof.
  pose proof (demo_round_stop rest) as Hround. unfold round in Hround.
  apply bind_OK in Hround as (sf & st1 & Hsf & Hround).
  rewrite demo_propose_stop in Hsf. injection Hsf as <- <-. exact Hround.
Qed.

Lemma demo_samples_stop (rest : DemoWorld) :
  mapM (fun '(g, f) => Particle_init demo_execute demo_smc tt tt g f)
    demo_tally_stop (demo_state_stop_p rest)
  = OK (demo_population_stop, demo_state_stop rest).
Proof. vm_compute. reflexivity. Qed.

Lemma infer_tally_by_identity_witness :
  infer_population demo_execute demo_multinomial demo_smc tt 0
    (initial_state 0 (demo_script_stop []))
  = OK ((tt, demo_population_0), demo_state_0 (demo_script_stop [])) /\
  propose demo_execute demo_smc tt tt demo_population_0
    (demo_state_0 (demo_script_stop [])) = OK (demo_tally_stop, demo_state_stop_p []) /\
  (forall g1 g2 : DemoGraph, graph_eqb g1 g2 = true <-> gid g1 = gid g2) /\
  exists events,
    proposed demo_execute demo_smc tt tt demo_population_0
      (demo_state_0 (demo_script_stop [])) events (demo_state_stop_p []) /\
    (forall p x g, In (p, x, g) events ->
       In p demo_population_0 /\
       match x with
       | None => g = graph p
       | Some o => nodes g = nodes (graph p) ∪ {[o]} /\ (1 <= gid g < 2)%nat
       end) /\
    demo_tally_stop = fold_left tally_add (map snd events) [] /\
    NoDup (map (fun e => gid e.1) demo_tally_stop) /\
    (forall g, dict_get demo_tally_stop g 0
               = Z.of_nat (occurrences g (map snd events))) /\
    (forall g c, In (g, c) demo_tally_stop <->
       In g (map snd events) /\ c = Z.of_nat (occurrences g (map snd events))) /\
    (forall p, In p demo_population_0 ->
       dict_get demo_tally_stop (graph p) 0
       = Z.of_nat (length (terminal_proposals (graph p) events))) /\
    (forall p o g, In (p, Some o, g) events ->
       In (g, 1) demo_tally_stop /\ dict_get demo_tally_stop g 0 = 1) /\
    (forall g c, In (g, c) demo_tally_stop ->
       (exists p, In (p, None, g) events /\ In p demo_population_0 /\ g = graph p /\
                  c = Z.of_nat (length (terminal_proposals g events))) \/
       (exists p o, In (p, Some o, g) events /\ In p demo_population_0 /\
                    nodes g = nodes (graph p) ∪ {[o]} /\
                    (1 <= gid g < 2)%nat /\ c = 1)).
Proof.
  split; [apply demo_infer_population_0|]. split; [apply demo_propose_stop|].
  exact (infer_tally_by_identity demo_execute demo_multinomial demo_smc tt 0 0%nat
           (demo_script_stop []) tt demo_population_0 _ demo_tally_stop _
           (demo_infer_population_0 _) (demo_propose_stop [])).
Defined.

Lemma logWeights_ignore_fitnessWeight_witness :
  resample demo_execute demo_multinomial demo_smc tt tt demo_tally_stop
    (demo_state_stop_p []) = OK (demo_population_stop, demo_state_stop []) /\
  exists samples st1 lws,
    samples = demo_population_stop /\
    lws = [(ln 1 - 0)%R; (ln 1 - 0)%R] /\
    estimates demo_execute demo_smc tt tt demo_tally_stop (demo_state_stop_p [])
      samples st1 /\
    mapM (fun '(g, f) => Particle_init demo_execute demo_smc tt tt g f)
      demo_tally_stop (demo_state_stop_p []) = OK (samples, st1) /\
    logWeights samples = OK lws /\
    lws = map (fun p => ln (IZR (frequency p)) - Particle_distance p)%R samples /\
    Forall2 (fun e lw => 0 < e.2 /\
               exists d, _distance st1 !! gid e.1 = Some d /\
                         lw = (ln (IZR e.2) - d)%R) demo_tally_stop lws.
Proof.
  split; [apply demo_resample_stop|].
  destruct (proj1 (logWeights_ignore_fitnessWeight demo_execute demo_multinomial
                     demo_smc tt tt demo_tally_stop _ _ _ (demo_resample_stop [])))
    as (samples & st1 & lws & Hest & Hrun & Hlws & Heq & Hall).
  exists samples, st1, lws.
  assert (samples = demo_population_stop) as Hsamples.
  { rewrite demo_samples_stop in Hrun. injection Hrun as <- _. reflexivity. }
  split; [exact Hsamples|].
  split; [rewrite Heq, Hsamples; reflexivity|].
  auto.
Defined.

(** Three turns of the sampling loop from the graph of [a]: the line [b],
    no line, and a line that holds [RETURN]. *)
Lemma demo_repeatedlySample : exists st',
  repeatedlySample demo_model tt demo_graph_a 3
    (demo_state_1 [Some [TStr "b"]; None; Some [TPointer 0; TStr "RETURN"]])
  = OK ([Some "b"; None], st').
Proof. eexists. vm_compute. reflexivity. Qed.

Lemma repeatedlySample_bounded_witness :
  exists st',
    repeatedlySample demo_model tt demo_graph_a 3
      (demo_state_1 [Some [TStr "b"]; None; Some [TPointer 0; TStr "RETURN"]])
    = OK ([Some "b"; None], st') /\
    (length [Some "b"; None] <= Z.to_nat 3)%nat /\
    (3 <= 0 -> [Some "b"; None] = ([] : list (option string))) /\
    st' = set_world (world st')
            (demo_state_1 [Some [TStr "b"]; None; Some [TPointer 0; TStr "RETURN"]]) /\
    _objectEncodings st'
      = _objectEncodings
          (demo_state_1 [Some [TStr "b"]; None; Some [TPointer 0; TStr "RETURN"]]) /\
    _distance st'
      = _distance (demo_state_1 [Some [TStr "b"]; None; Some [TPointer 0; TStr "RETURN"]]) /\
    encoder_calls st'
      = encoder_calls
          (demo_state_1 [Some [TStr "b"]; None; Some [TPointer 0; TStr "RETURN"]]) /\
    next_id st'
      = next_id (demo_state_1 [Some [TStr "b"]; None; Some [TPointer 0; TStr "RETURN"]]).
Proof.
  destruct demo_repeatedlySample as (st' & Hrun). exists st'.
  split; [exact Hrun|].
  exact (repeatedlySample_bounded demo_model tt demo_graph_a 3 _ _ st' Hrun).
Defined.

Lemma propose_tally_mass_witness :
  exists st',
    propose demo_execute demo_smc tt tt demo_population_1
      (demo_state_1 [Some [TStr "b"]; Some [TStr "a"]]) = OK (demo_tally_2, st') /\
    Forall (fun e => 1 <= e.2) demo_tally_2 /\
    tally_total demo_tally_2 <= slots demo_population_1 /\
    Z.of_nat (length demo_tally_2) <= tally_total demo_tally_2.
Proof.
  destruct demo_propose_2 as (st' & Hrun). exists st'. split; [exact Hrun|].
  exact (propose_tally_mass demo_execute demo_smc tt tt demo_population_1 _
           demo_tally_2 st' Hrun).
Defined.

Lemma infer_population_invariant_witness :
  SMC_init demo_model 2 2%R = OK demo_smc /\
  infer_population demo_execute demo_multinomial demo_smc tt 1
    (initial_state 0 demo_script)
  = OK ((tt, demo_population_1), demo_state_1 [Some [TStr "b"]; Some [TStr "a"]]) /\
  Forall (fun p : DemoParticle =>
            1 <= frequency p /\
            len (graph p) <= Z.of_nat 1 /\
            (forall o, o ∈ objects (graph p) ->
               is_Some (_objectEncodings
                          (demo_state_1 [Some [TStr "b"]; Some [TStr "a"]]) !! o)) /\
            _distance (demo_state_1 [Some [TStr "b"]; Some [TStr "a"]]) !! gid (graph p)
              = Some (Particle_distance p))
         demo_population_1 /\
  List.NoDup (map (fun p : DemoParticle => gid (graph p)) demo_population_1).
Proof.
  split; [reflexivity|]. split; [apply demo_infer_population_1|].
  exact (infer_population_invariant demo_execute demo_multinomial demo_model 2 2%R
           demo_smc tt 1%nat 0%nat demo_script tt demo_population_1 _
           eq_refl (demo_infer_population_1 _)).
Defined.

Lemma infer_result_bounds_witness :
  exists st,
    SMC_init demo_model 2 2%R = OK demo_smc /\
    infer demo_execute demo_multinomial demo_smc tt 2 0 demo_script
      = OK ([demo_graph_ab1; demo_graph_ab2], st) /\
    List.NoDup (map gid [demo_graph_ab1; demo_graph_ab2]) /\
    Forall (fun g : DemoGraph => len g <= Z.max 0 2) [demo_graph_ab1; demo_graph_ab2] /\
    (multinomial_contract demo_multinomial ->
     Z.of_nat (length [demo_graph_ab1; demo_graph_ab2]) <= particles demo_smc).
Proof.
  destruct demo_infer as (st & Hrun). exists st.
  split; [reflexivity|]. split; [exact Hrun|].
  exact (infer_result_bounds demo_execute demo_multinomial demo_model 2 2%R demo_smc
           tt 2 0%nat demo_script _ st eq_refl Hrun).
Defined.

(** A pointer sampled while no object is in scope. *)
Lemma demo_infer_IndexError :
  infer demo_execute demo_multinomial demo_smc tt 1 0 [Some [TPointer 0]]
  = Raise IndexError.
Proof. vm_compute. reflexivity. Qed.

Lemma infer_raises_witness :
  infer demo_execute demo_multinomial demo_smc tt 1 0 [Some [TPointer 0]]
    = Raise IndexError /\
  (IndexError = IndexError \/ IndexError = RuntimeError \/
   exists pvals w',
     demo_multinomial (particles demo_smc) pvals w' = Raise IndexError).
Proof.
  split; [exact demo_infer_IndexError|].
  exact (infer_raises demo_execute demo_multinomial demo_smc tt 1 0%nat
           [Some [TPointer 0]] IndexError demo_infer_IndexError).
Defined.

(** A model whose [initialHidden] raises on rows that are not of width 1
    and whose decoder reads the script as [demo_model] does but declines
    a line with a pointer past the encodings it was given. *)
Definition in_scope (oe : option Mat) (t : token) : bool :=
  match t with
  | TPointer i => Nat.ltb i (length (default [] oe))
  | TStr _ => true
  end.

Definition demo_model_in_scope
  : Model (Node:=string) (Spec:=unit) (Val:=string) (SpecEnc:=unit)
          (Hidden:=unit) (World:=DemoWorld) :=
  {| specEncoder := specEncoder demo_model;
     objectEncoder := objectEncoder demo_model;
     outputDimensionality := outputDimensionality demo_model;
     model_distance := model_distance demo_model;
     initialHidden := fun oe _ w =>
       if forallb (fun row => Nat.eqb (length row) 1) oe then Some (tt, w) else None;
     decoder_sample := fun _ oe w =>
       match w with
       | [] => (None, [])
       | None :: w' => (None, w')
       | Some line :: w' =>
           (if forallb (in_scope oe) line then Some line else None, w')
       end;
     parseLine := parseLine demo_model |}.

Definition demo_smc_in_scope : SMC := mkSMC 2 2%R demo_model_in_scope.

Lemma demo_encoder_width : encoder_width demo_smc_in_scope tt.
Proof. intros v w. reflexivity. Qed.

Lemma demo_initialHidden_fits : initialHidden_fits demo_smc_in_scope tt.
Proof.
  intros oe w _ Hwidth. simpl.
  replace (forallb (fun row => Nat.eqb (length row) 1) oe) with true; [eauto|].
  symmetry. apply forallb_forall. intros row Hrow.
  rewrite List.Forall_forall in Hwidth. rewrite (Hwidth row Hrow). reflexivity.
Qed.

Lemma demo_pointers_in_scope : pointers_in_scope (model demo_smc_in_scope).
Proof.
  intros h oe w line. destruct w as [|[l|] w]; simpl; try discriminate.
  destruct (forallb (in_scope oe) l) eqn:E; [|discriminate]. intros [= <-].
  apply List.Forall_forall. intros t Ht.
  rewrite forallb_forall in E. specialize (E t Ht).
  destruct t as [s|i]; [exact I|]. simpl in E. apply Nat.ltb_lt in E. exact E.
Qed.

Lemma demo_multinomial_returns :
  multinomial_returns demo_multinomial (particles demo_smc_in_scope).
Proof. intros pvals w _ _. eexists _, _. reflexivity. Qed.

Lemma infer_returns_witness :
  exists out st,
    infer demo_execute demo_multinomial demo_smc_in_scope tt 2 0
      [Some [TStr "a"]; Some [TPointer 3]; Some [TPointer 0; TStr "b"]]
    = OK (out, st).
Proof.
  exact (infer_returns demo_execute demo_multinomial demo_smc_in_scope tt 2 0%nat
           [Some [TStr "a"]; Some [TPointer 3]; Some [TPointer 0; TStr "b"]]
           demo_encoder_width demo_initialHidden_fits demo_pointers_in_scope
           demo_multinomial_returns).
Defined.

(** * The target lines of a gradient step

    The part of [gradientStep] and [gradientStepTrace] of
    [src/programGraph.py] that turns the optimal moves into the lines the
    decoder is trained on: [object2pointer], [substitutePointers] and
    [targetLines].  The DSL enters through [m.serialize()]. *)

Section TargetLines.

Context {Node : Type} `{NodeCountable : Countable Node}.

Variable children : Node -> list Node.

(** [m.serialize()]: lexicon strings and DSL objects. *)
Variable serialize : Node -> list (@line_token Node).

Local Abbreviation ProgramGraph := (@ProgramGraph Node _ _).
Local Abbreviation line_token := (@line_token Node).

(** [enumerate(l)], counting from [i]. *)
Fixpoint enumerate_from {A} (i : nat) (l : list A) : list (nat * A) :=
  match l with
  | [] => []
  | x :: l' => (i, x) :: enumerate_from (S i) l'
  end.

(** [{o: Pointer(i) for i, o in enumerate(objects)}]. *)
Definition object2pointer (objects : list Node) : gmap Node nat :=
  fold_left (fun d io => <[io.2 := io.1]> d) (enumerate_from 0 objects) ∅.

(** The local function [substitutePointers(serialization)]. *)
Definition substitutePointers (pointers : gmap Node nat)
    (serialization : list line_token) : result (list token) :=
  rmapM (fun t => match t with
                  | LStr s => OK (TStr s)
                  | LObj o =>
                      match pointers !! o with
                      | Some i => OK (TPointer i)
                      | None => Raise KeyError
                      end
                  end) serialization.

(** [targetLines], from [currentGraph] and [goalGraph]: the line
    [['RETURN']] when the oracle yields no move. *)
Definition targetLines (currentGraph goalGraph : ProgramGraph)
  : result (list (list token)) :=
  let optimalMoves := policyOracle children currentGraph goalGraph in
  let finalMove := Nat.eqb (length optimalMoves) 0 in
  let objects := elements (objects currentGraph) in
  if finalMove then OK [[TStr "RETURN"]]
  else rmapM (fun m => substitutePointers (object2pointer objects) (serialize m))
             optimalMoves.

(** *** Properties *)

Lemma fold_enumerate_lookup (l : list Node) (k : nat) (d : gmap Node nat) o i :
  fold_left (fun d io => <[io.2 := io.1]> d) (enumerate_from k l) d !! o = Some i ->
  d !! o = Some i \/ ((k <= i)%nat /\ l !! (i - k)%nat = Some o).
Proof.
  revert k d. induction l as [|x l IH]; intros k d Hfold; simpl in Hfold.
  - left. exact Hfold.
  - apply IH in Hfold as [Hd|[Hk Hl]].
    + simpl in Hd. destruct (decide (x = o)) as [->|Hne].
      * rewrite lookup_insert_eq in Hd. injection Hd as <-.
        right. split; [lia|]. rewrite Nat.sub_diag. reflexivity.
      * rewrite lookup_insert_ne in Hd by exact Hne. left. exact Hd.
    + right. split; [lia|].
      replace (i - k)%nat with (S (i - S k)) by lia. exact Hl.
Qed.

Lemma fold_enumerate_In (l : list Node) (k : nat) (d : gmap Node nat) o :
  is_Some (d !! o) \/ In o l ->
  is_Some (fold_left (fun d io => <[io.2 := io.1]> d) (enumerate_from k l) d !! o).
Proof.
  revert k d. induction l as [|x l IH]; intros k d Hin; simpl.
  - destruct Hin as [Hd|[]]. exact Hd.
  - apply IH. simpl. destruct (decide (x = o)) as [->|Hne].
    + left. rewrite lookup_insert_eq. eauto.
    + rewrite lookup_insert_ne by exact Hne.
      destruct Hin as [Hd|[Hx|Hl]]; [left; exact Hd|congruence|right; exact Hl].
Qed.

(** A pointer of [object2pointer] is the position of its object. *)
Lemma object2pointer_lookup (objects : list Node) o i :
  object2pointer objects !! o = Some i -> objects !! i = Some o.
Proof.
  unfold object2pointer. intros Hfold.
  apply fold_enumerate_lookup in Hfold as [Hd|[_ Hl]].
  - rewrite lookup_empty in Hd. discriminate.
  - rewrite Nat.sub_0_r in Hl. exact Hl.
Qed.

Lemma object2pointer_is_Some (objects : list Node) o :
  is_Some (object2pointer objects !! o) <-> In o objects.
Proof.
  split.
  - intros [i Hi]. apply object2pointer_lookup in Hi.
    apply list_elem_of_In. eapply list_elem_of_lookup_2, Hi.
  - intros Hin. apply fold_enumerate_In. right. exact Hin.
Qed.

(** Reading a line back through the objects in scope, as
    [repeatedlySample] does, undoes [substitutePointers]. *)
Lemma substitutePointers_decode (objects : list Node) serialization line :
  substitutePointers (object2pointer objects) serialization = OK line ->
  rmapM (substitutePointer objects) line = OK serialization.
Proof.
  unfold substitutePointers. revert line.
  induction serialization as [|t ser IH]; intros line Hrun; simpl in Hrun.
  - injection Hrun as <-. reflexivity.
  - apply rbind_OK in Hrun as (t' & Ht & Hrun).
    apply rbind_OK in Hrun as (line' & Hser & Hrun). injection Hrun as <-.
    simpl. rewrite (IH _ Hser).
    destruct t as [s|o].
    + injection Ht as <-. reflexivity.
    + destruct (object2pointer objects !! o) as [i|] eqn:E; [|discriminate].
      injection Ht as <-. simpl. rewrite (object2pointer_lookup _ _ _ E).
      reflexivity.
Qed.

Lemma substitutePointers_OK_iff (objects : list Node) serialization :
  (exists line, substitutePointers (object2pointer objects) serialization = OK line) <->
  (forall o, In (LObj o) serialization -> In o objects).
Proof.
  unfold substitutePointers. induction serialization as [|t ser IH]; simpl.
  - split; [intros _ o []|eauto].
  - split.
    + intros (line & Hrun) o Ho.
      apply rbind_OK in Hrun as (t' & Ht & Hrun).
      apply rbind_OK in Hrun as (line' & Hser & _).
      destruct Ho as [->|Ho].
      * destruct (object2pointer objects !! o) as [i|] eqn:E; [|discriminate].
        apply object2pointer_is_Some. eauto.
      * apply IH; eauto.
    + intros Hall. destruct IH as [_ IH].
      destruct IH as (line & Hline); [intros o Ho; apply Hall; right; exact Ho|].
      rewrite Hline. destruct t as [s|o]; simpl; [eauto|].
      destruct (proj2 (object2pointer_is_Some objects o)) as [i Hi].
      { apply Hall. left. reflexivity. }
      rewrite Hi. simpl. eauto.
Qed.

Lemma substitutePointers_Raise (pointers : gmap Node nat) serialization e :
  substitutePointers pointers serialization = Raise e -> e = KeyError.
Proof.
  unfold substitutePointers. induction serialization as [|t ser IH]; simpl;
    [discriminate|].
  destruct t as [s|o]; simpl.
  - destruct (rmapM _ ser) as [line|e']; simpl; [discriminate|].
    intros [= ->]. apply IH. reflexivity.
  - destruct (pointers !! o); simpl; [|congruence].
    destruct (rmapM _ ser) as [line|e']; simpl; [discriminate|].
    intros [= ->]. apply IH. reflexivity.
Qed.

Lemma rmapM_Forall2 {A B} (f : A -> result B) (l : list A) (ys : list B) :
  rmapM f l = OK ys -> Forall2 (fun x y => f x = OK y) l ys.
Proof.
  revert ys. induction l as [|x l IH]; intros ys Hrun; simpl in Hrun.
  - injection Hrun as <-. constructor.
  - apply rbind_OK in Hrun as (y & Hy & Hrun).
    apply rbind_OK in Hrun as (ys' & Hys & Hrun). injection Hrun as <-.
    constructor; [exact Hy|apply IH, Hys].
Qed.

Lemma rmapM_OK_iff {A B} (f : A -> result B) (l : list A) :
  (exists ys, rmapM f l = OK ys) <-> (forall x, In x l -> exists y, f x = OK y).
Proof.
  induction l as [|x l IH]; simpl.
  - split; [intros _ x []|eauto].
  - split.
    + intros (ys & Hrun) x' Hx'.
      apply rbind_OK in Hrun as (y & Hy & Hrun).
      apply rbind_OK in Hrun as (ys' & Hys & _).
      destruct Hx' as [<-|Hx']; [eauto|]. apply IH; eauto.
    + intros Hall. destruct (Hall x (or_introl eq_refl)) as (y & Hy).
      destruct (proj2 IH) as (ys & Hys); [intros x' Hx'; apply Hall; right; exact Hx'|].
      rewrite Hy, Hys. simpl. eauto.
Qed.

(** X13: the lines a gradient step trains the decoder on decode to the
    optimal moves: when [policyOracle] yields no move the only line is
    [['RETURN']]; otherwise there is one line per move, in order, and
    reading its pointers back through the objects in scope, as
    [repeatedlySample] reads a sampled line, gives exactly the
    serialization of that move. *)
Theorem targetLines_round_trip (currentGraph goalGraph : ProgramGraph) lines :
  targetLines currentGraph goalGraph = OK lines ->
  (policyOracle children currentGraph goalGraph = [] /\
   lines = [[TStr "RETURN"]]) \/
  (policyOracle children currentGraph goalGraph <> [] /\
   Forall2 (fun m line =>
              rmapM (substitutePointer (elements (objects currentGraph))) line
              = OK (serialize m))
           (policyOracle children currentGraph goalGraph) lines).
Proof.
  unfold targetLines.
  destruct (policyOracle children currentGraph goalGraph) as [|m ms] eqn:E.
  - intros [= <-]. left. auto.
  - change (Nat.eqb (length (m :: ms)) 0) with false. cbv iota. intros Hrun.
    right. split; [discriminate|].
    apply rmapM_Forall2 in Hrun.
    eapply Forall2_impl; [exact Hrun|]. simpl.
    intros m' line. apply substitutePointers_decode.
Qed.

(** X14: [targetLines] returns exactly when every object that the
    serializations of the optimal moves mention is in the current graph;
    when it does not return it raises a [KeyError] (the lookup
    [object2pointer[token]]). *)
Lemma targetLines_OK_iff (currentGraph goalGraph : ProgramGraph) :
  (exists lines, targetLines currentGraph goalGraph = OK lines) <->
  (forall m o, In m (policyOracle children currentGraph goalGraph) ->
               In (LObj o) (serialize m) -> o ∈ nodes currentGraph).
Proof.
  unfold targetLines.
  destruct (policyOracle children currentGraph goalGraph) as [|m ms] eqn:E.
  - split; [intros _ m o []|eauto].
  - change (Nat.eqb (length (m :: ms)) 0) with false. cbv iota.
    rewrite rmapM_OK_iff. split.
    + intros Hall m' o Hm' Ho. destruct (Hall m' Hm') as (line & Hline).
      apply elem_of_elements, list_elem_of_In.
      eapply substitutePointers_OK_iff; eauto.
    + intros Hall m' Hm'. apply substitutePointers_OK_iff.
      intros o Ho. apply list_elem_of_In, elem_of_elements. eapply Hall; eauto.
Qed.

(** X14: [targetLines] returns exactly when every object that the
    serializations of the optimal moves mention is in the current graph,
    and raises a [KeyError] (the lookup [object2pointer[token]])
    otherwise; it always returns when a serialization mentions only
    children of its object, because [policyOracle] yields only moves
    whose children are in the graph. *)
Theorem targetLines_returns_iff (currentGraph goalGraph : ProgramGraph) :
  ((exists lines, targetLines currentGraph goalGraph = OK lines) <->
   (forall m o, In m (policyOracle children currentGraph goalGraph) ->
                In (LObj o) (serialize m) -> o ∈ nodes currentGraph)) /\
  (forall e, targetLines currentGraph goalGraph = Raise e -> e = KeyError) /\
  ((forall n o, In (LObj o) (serialize n) -> In o (children n)) ->
   exists lines, targetLines currentGraph goalGraph = OK lines).
Proof.
  split; [apply targetLines_OK_iff|]. split.
  - unfold targetLines.
    destruct (policyOracle children currentGraph goalGraph) as [|m ms] eqn:E;
      [discriminate|].
    change (Nat.eqb (length (m :: ms)) 0) with false. cbv iota.
    intros e Hrun. apply rmapM_Raise in Hrun as (m' & _ & Hm').
    eapply substitutePointers_Raise, Hm'.
  - intros Hdsl. apply targetLines_OK_iff. intros m o Hm Ho.
    apply policyOracle_In in Hm as (_ & _ & Hchildren).
    apply Hchildren, Hdsl, Ho.
Qed.

End TargetLines.

(** ** The target lines on the small DSL

    An object is serialized as the word [f] followed by its children;
    the current graph holds the objects 0 and 1. *)

Definition demo_serialize (n : nat) : list (@line_token nat) :=
  LStr "f" :: map LObj (demo_children n).

Definition demo_current : @ProgramGraph nat _ _ :=
  mkProgramGraph 2 (list_to_set [0; 1]%nat).

Lemma demo_targetLines :
  targetLines demo_children demo_serialize demo_current demo_target
  = OK [[TStr "f"; TPointer 0; TPointer 1]].
Proof. vm_compute. reflexivity. Qed.

Lemma targetLines_round_trip_witness :
  targetLines demo_children demo_serialize demo_current demo_target
    = OK [[TStr "f"; TPointer 0; TPointer 1]] /\
  ((policyOracle demo_children demo_current demo_target = [] /\
    [[TStr "f"; TPointer 0; TPointer 1]] = [[TStr "RETURN"]]) \/
   (policyOracle demo_children demo_current demo_target <> [] /\
    Forall2 (fun m line =>
               rmapM (substitutePointer (elements (objects demo_current))) line
               = OK (demo_serialize m))
            (policyOracle demo_children demo_current demo_target)
            [[TStr "f"; TPointer 0; TPointer 1]])).
Proof.
  split; [exact demo_targetLines|].
  exact (targetLines_round_trip demo_children demo_serialize demo_current demo_target
           _ demo_targetLines).
Defined.

(** * The heads of [ProgramPointerNetwork]

    [initialHidden] and [distance] of [src/programGraph.py], with the
    two [nn.Sequential] heads that [__init__] builds.  Tensors are lists
    of reals; the parameters of a linear layer are whatever training
    made them. *)

Section Network.

(** [nn.Linear(in_features, out_features)] with its parameters. *)
Record Linear : Type := mkLinear {
  in_features : nat;
  out_features : nat;
  weight : nat -> nat -> R;
  bias : nat -> R;
}.

(** The inner product of row [j] of the weight with [x]. *)
Definition weighted_sum (l : Linear) (j : nat) (x : Vec) : R :=
  fold_right Rplus 0%R (imap (fun i xi => (weight l j i * xi)%R) x).

(** The layer on a 1-dimensional input: a size mismatch is a
    [RuntimeError]. *)
Definition Linear_forward (l : Linear) (x : Vec) : result Vec :=
  if Nat.eqb (length x) (in_features l)
  then OK (map (fun j => (weighted_sum l j x + bias l j)%R) (seq 0 (out_features l)))
  else Raise RuntimeError.

(** [nn.ReLU()]. *)
Definition ReLU (x : Vec) : Vec := map (Rmax 0) x.

(** [torch.cat([a, b])] on 1-dimensional tensors. *)
Definition torch_cat (a b : Vec) : Vec := a ++ b.

(** [torch.zeros(d)]. *)
Definition torch_zeros_1d (d : nat) : Vec := repeat 0%R d.

(** [t.max(0)[0]] on a 2-dimensional tensor: the maximum of each column.
    A tensor without rows has none and the call raises an [IndexError];
    no caller passes one. *)
Definition max_0 (t : Mat) : result Vec :=
  match t with
  | [] => Raise IndexError
  | row :: rows => OK (fold_left (zip_with Rmax) rows row)
  end.

(** The attributes of the network that the two methods use. *)
Record ProgramPointerNetwork : Type := mkProgramPointerNetwork {
  objectEncoder_outputDimensionality : nat;
  specEncoder_outputDimensionality : nat;
  _initialHidden_0 : Linear;
  _distance_0 : Linear;
  _distance_2 : Linear;
}.

(** [__init__]: the shapes of the layers of the two heads; [H] is the
    hidden size, the parameters are the arguments past it. *)
Definition ProgramPointerNetwork_init (objectEncoder_d specEncoder_d H : nat)
    (w_h : nat -> nat -> R) (b_h : nat -> R)
    (w_0 : nat -> nat -> R) (b_0 : nat -> R)
    (w_2 : nat -> nat -> R) (b_2 : nat -> R) : ProgramPointerNetwork :=
  {| objectEncoder_outputDimensionality := objectEncoder_d;
     specEncoder_outputDimensionality := specEncoder_d;
     _initialHidden_0 := mkLinear (objectEncoder_d + specEncoder_d) H w_h b_h;
     _distance_0 := mkLinear (objectEncoder_d + specEncoder_d) H w_0 b_0;
     _distance_2 := mkLinear H 1 w_2 b_2 |}.

(** [self._initialHidden]: [nn.Sequential(nn.Linear(..., H), nn.ReLU())]. *)
Definition _initialHidden (self : ProgramPointerNetwork) (x : Vec) : result Vec :=
  rbind (Linear_forward (_initialHidden_0 self) x) (fun h => OK (ReLU h)).

(** [self._distance]: [nn.Sequential(nn.Linear(..., H), nn.ReLU(),
    nn.Linear(H, 1), nn.ReLU())]. *)
Definition _distance_head (self : ProgramPointerNetwork) (x : Vec) : result Vec :=
  rbind (Linear_forward (_distance_0 self) x) (fun h =>
  rbind (Linear_forward (_distance_2 self) (ReLU h)) (fun y => OK (ReLU y))).

(** [self.initialHidden(objectEncodings, specEncoding)]. *)
Definition network_initialHidden (self : ProgramPointerNetwork)
    (objectEncodings : option Mat) (specEncoding : Vec) : result Vec :=
  rbind (match objectEncodings with
         | None => OK (torch_zeros_1d (objectEncoder_outputDimensionality self))
         | Some t => max_0 t
         end)
        (fun objectEncodings => _initialHidden self (torch_cat specEncoding objectEncodings)).

(** [self.distance(objectEncodings, specEncoding)]. *)
Definition network_distance (self : ProgramPointerNetwork)
    (objectEncodings : option Mat) (specEncoding : Vec) : result Vec :=
  rbind (match objectEncodings with
         | None => OK (torch_zeros_1d (objectEncoder_outputDimensionality self))
         | Some t => max_0 t
         end)
        (fun objectEncodings => _distance_head self (torch_cat specEncoding objectEncodings)).

(** *** Notions *)

(** What the heads see of the object encodings: the column maxima, or
    zeros for [None]. *)
Definition pooled (self : ProgramPointerNetwork) (objectEncodings : option Mat)
  : result Vec :=
  match objectEncodings with
  | None => OK (torch_zeros_1d (objectEncoder_outputDimensionality self))
  | Some t => max_0 t
  end.

(** The sizes fit the first layer of a head: the object encodings have
    a row, and the spec encoding and the column maxima together have
    [in_features] elements. *)
Definition fits (self : ProgramPointerNetwork) (objectEncodings : option Mat)
    (specEncoding : Vec) : Prop :=
  exists pool, pooled self objectEncodings = OK pool /\
               (length specEncoding + length pool
                = objectEncoder_outputDimensionality self
                  + specEncoder_outputDimensionality self)%nat.

(** *** Properties *)

Lemma Linear_forward_OK (l : Linear) (x y : Vec) :
  Linear_forward l x = OK y ->
  length x = in_features l /\ length y = out_features l.
Proof.
  unfold Linear_forward. destruct (Nat.eqb (length x) (in_features l)) eqn:E;
    [|discriminate].
  intros [= <-]. apply Nat.eqb_eq in E. rewrite length_map, length_seq. auto.
Qed.

Lemma Linear_forward_total (l : Linear) (x : Vec) :
  length x = in_features l -> exists y, Linear_forward l x = OK y.
Proof.
  intros Hlen. unfold Linear_forward. rewrite Hlen, Nat.eqb_refl. eauto.
Qed.

Lemma Linear_forward_Raise (l : Linear) (x : Vec) e :
  Linear_forward l x = Raise e -> e = RuntimeError /\ length x <> in_features l.
Proof.
  unfold Linear_forward. destruct (Nat.eqb (length x) (in_features l)) eqn:E;
    [discriminate|].
  intros [= <-]. apply Nat.eqb_neq in E. auto.
Qed.

Lemma ReLU_length (x : Vec) : length (ReLU x) = length x.
Proof. apply length_map. Qed.

Lemma ReLU_nonnegative (x : Vec) : Forall (fun y => 0 <= y)%R (ReLU x).
Proof.
  apply List.Forall_forall. intros y Hy. apply in_map_iff in Hy as (z & <- & _).
  apply Rmax_l.
Qed.

Lemma zip_with_Rmax_comm (a b : Vec) : zip_with Rmax a b = zip_with Rmax b a.
Proof.
  revert b. induction a as [|x a IH]; intros [|y b]; simpl; try reflexivity.
  rewrite Rmax_comm, IH. reflexivity.
Qed.

Lemma zip_with_Rmax_assoc (a b c : Vec) :
  zip_with Rmax (zip_with Rmax a b) c = zip_with Rmax a (zip_with Rmax b c).
Proof.
  revert b c. induction a as [|x a IH]; intros [|y b] [|z c]; simpl; try reflexivity.
  rewrite Rmax_assoc, IH. reflexivity.
Qed.

Lemma fold_Rmax_rows_perm (rows rows' : list Vec) :
  Permutation rows rows' ->
  forall a, fold_left (zip_with Rmax) rows a = fold_left (zip_with Rmax) rows' a.
Proof.
  induction 1 as [|x l l' _ IH|x y l|l l' l'' _ IH1 _ IH2]; intros a; simpl.
  - reflexivity.
  - apply IH.
  - f_equal. rewrite !zip_with_Rmax_assoc. f_equal. apply zip_with_Rmax_comm.
  - rewrite IH1. apply IH2.
Qed.

(** The column maxima do not depend on the order of the rows. *)
Lemma max_0_perm (t t' : Mat) : Permutation t t' -> max_0 t = max_0 t'.
Proof.
  intros Hperm. destruct t as [|r rs].
  - apply Permutation_nil in Hperm. subst. reflexivity.
  - destruct t' as [|r' rs'].
    { apply Permutation_sym, Permutation_nil in Hperm. discriminate. }
    simpl. f_equal.
    assert (In r' (r :: rs)) as Hin.
    { eapply Permutation_in; [apply Permutation_sym, Hperm|left; reflexivity]. }
    destruct Hin as [->|Hin].
    + apply fold_Rmax_rows_perm. eapply Permutation_cons_inv, Hperm.
    + apply in_split in Hin as (l1 & l2 & ->).
      assert (Permutation rs' (r :: l1 ++ l2)) as Hrs'.
      { apply (Permutation_cons_inv (a := r')). apply Permutation_sym.
        etransitivity; [|exact Hperm].
        etransitivity; [apply perm_swap|]. apply perm_skip.
        apply Permutation_middle. }
      rewrite (fold_Rmax_rows_perm _ _ Hrs').
      rewrite (fold_Rmax_rows_perm (l1 ++ r' :: l2) (r' :: l1 ++ l2))
        by (apply Permutation_sym, Permutation_middle).
      simpl. f_equal. apply zip_with_Rmax_comm.
Qed.

Lemma max_0_zeros (d : nat) : max_0 (torch_zeros 1 d) = OK (torch_zeros_1d d).
Proof. reflexivity. Qed.

Lemma max_0_length (t : Mat) (d : nat) v :
  Forall (fun row => length row = d) t -> max_0 t = OK v -> length v = d.
Proof.
  destruct t as [|r rs]; [discriminate|]. intros Hd [= <-].
  pose proof (Forall_inv Hd) as Hr. apply Forall_inv_tail in Hd.
  revert r Hr. induction rs as [|x rs IH]; intros r Hr; simpl; [exact Hr|].
  apply IH.
  - eapply Forall_inv_tail, Hd.
  - rewrite length_zip_with, Hr, (Forall_inv Hd). lia.
Qed.

Lemma initialHidden_pooled (self : ProgramPointerNetwork) objectEncodings specEncoding :
  network_initialHidden self objectEncodings specEncoding
  = rbind (pooled self objectEncodings)
          (fun pool => _initialHidden self (torch_cat specEncoding pool)).
Proof. reflexivity. Qed.

Lemma distance_pooled (self : ProgramPointerNetwork) objectEncodings specEncoding :
  network_distance self objectEncodings specEncoding
  = rbind (pooled self objectEncodings)
          (fun pool => _distance_head self (torch_cat specEncoding pool)).
Proof. reflexivity. Qed.

Lemma pooled_perm (self : ProgramPointerNetwork) (t t' : Mat) :
  Permutation t t' -> pooled self (Some t) = pooled self (Some t').
Proof. apply max_0_perm. Qed.

Lemma pooled_placeholder (self : ProgramPointerNetwork) :
  pooled self (Some (device (torch_zeros 1 (objectEncoder_outputDimensionality self))))
  = pooled self None.
Proof. reflexivity. Qed.

Section Built.

Variables (objectEncoder_d specEncoder_d H : nat).
Variables (w_h : nat -> nat -> R) (b_h : nat -> R).
Variables (w_0 : nat -> nat -> R) (b_0 : nat -> R).
Variables (w_2 : nat -> nat -> R) (b_2 : nat -> R).

Local Abbreviation net :=
  (ProgramPointerNetwork_init objectEncoder_d specEncoder_d H w_h b_h w_0 b_0 w_2 b_2).

(** X15: what the two heads return on a network as [__init__] builds it.
    [distance] returns a tensor of one element, never negative, and
    [initialHidden] one of [H] elements, none negative; each returns
    exactly when the object encodings have a row and the spec encoding
    and the column maxima together have as many elements as the two
    encoders put out; a wrong size raises a [RuntimeError]. *)
Theorem network_heads_spec (objectEncodings : option Mat) (specEncoding : Vec) :
  ((exists d, network_distance net objectEncodings specEncoding = OK d) <->
   fits net objectEncodings specEncoding) /\
  ((exists h, network_initialHidden net objectEncodings specEncoding = OK h) <->
   fits net objectEncodings specEncoding) /\
  (forall d, network_distance net objectEncodings specEncoding = OK d ->
             length d = 1%nat /\ Forall (fun x => 0 <= x)%R d) /\
  (forall h, network_initialHidden net objectEncodings specEncoding = OK h ->
             length h = H /\ Forall (fun x => 0 <= x)%R h) /\
  (forall e, objectEncodings <> Some [] ->
             network_distance net objectEncodings specEncoding = Raise e \/
             network_initialHidden net objectEncodings specEncoding = Raise e ->
             e = RuntimeError).
Proof.
  rewrite distance_pooled, initialHidden_pooled.
  unfold fits, _distance_head, _initialHidden, torch_cat.
  destruct (pooled net objectEncodings) as [pool|e0] eqn:Epool; simpl.
  - destruct (Linear_forward (mkLinear (objectEncoder_d + specEncoder_d) H w_0 b_0)
                (specEncoding ++ pool)) as [h0|e1] eqn:E0; simpl.
    + pose proof (Linear_forward_OK _ _ _ E0) as [Hin Hout]. simpl in Hin, Hout.
      rewrite length_app in Hin.
      destruct (Linear_forward_total (mkLinear H 1 w_2 b_2) (ReLU h0)) as [y Hy].
      { rewrite ReLU_length. exact Hout. }
      destruct (Linear_forward_total (mkLinear (objectEncoder_d + specEncoder_d) H w_h b_h)
                  (specEncoding ++ pool)) as [h Hh].
      { simpl. rewrite length_app. exact Hin. }
      rewrite Hy, Hh. simpl.
      apply Linear_forward_OK in Hy as [_ Hy]. apply Linear_forward_OK in Hh as [_ Hh].
      simpl in Hy, Hh.
      split; [split; [intros _; exists pool; auto|eauto]|].
      split; [split; [intros _; exists pool; auto|eauto]|].
      split; [intros d [= <-]; rewrite ReLU_length; auto using ReLU_nonnegative|].
      split; [intros h' [= <-]; rewrite ReLU_length; auto using ReLU_nonnegative|].
      intros e _ [He|He]; discriminate.
    + apply Linear_forward_Raise in E0 as [-> Hne]. simpl in Hne.
      rewrite length_app in Hne.
      destruct (Linear_forward (mkLinear (objectEncoder_d + specEncoder_d) H w_h b_h)
                  (specEncoding ++ pool)) as [h|e2] eqn:Eh; simpl.
      { apply Linear_forward_OK in Eh as [Hin _]. simpl in Hin.
        rewrite length_app in Hin. contradiction. }
      apply Linear_forward_Raise in Eh as [-> _].
      split; [split; [intros [d Hd]; discriminate|]|].
      { intros (pool' & [= <-] & Hlen). contradiction. }
      split; [split; [intros [d Hd]; discriminate|]|].
      { intros (pool' & [= <-] & Hlen). contradiction. }
      split; [discriminate|]. split; [discriminate|].
      intros e _ [He|He]; congruence.
  - split; [split; [intros [d Hd]; discriminate|intros (pool & Hp & _); discriminate]|].
    split; [split; [intros [d Hd]; discriminate|intros (pool & Hp & _); discriminate]|].
    split; [discriminate|]. split; [discriminate|].
    intros e Hrows. destruct objectEncodings as [[|r rs]|]; try discriminate.
    contradiction Hrows. reflexivity.
Qed.

End Built.

(** X16: what a graph's objects contribute to the two heads does not
    depend on the order of their encodings, the order in which the
    frozenset happened to be iterated: permuting the rows changes neither
    result.  And the two conventions for a graph without objects agree:
    the one-row zero placeholder that [SMC.infer] and [gradientStep]
    pass gives the results that [None], passed by [gradientStepTrace],
    gives. *)
Theorem network_heads_order_independent (self : ProgramPointerNetwork)
    (specEncoding : Vec) :
  (forall t t' : Mat, Permutation t t' ->
     network_distance self (Some t) specEncoding
     = network_distance self (Some t') specEncoding /\
     network_initialHidden self (Some t) specEncoding
     = network_initialHidden self (Some t') specEncoding) /\
  network_distance self
    (Some (device (torch_zeros 1 (objectEncoder_outputDimensionality self))))
    specEncoding
  = network_distance self None specEncoding /\
  network_initialHidden self
    (Some (device (torch_zeros 1 (objectEncoder_outputDimensionality self))))
    specEncoding
  = network_initialHidden self None specEncoding.
Proof.
  split.
  - intros t t' Hperm. rewrite !distance_pooled, !initialHidden_pooled.
    rewrite (pooled_perm self t t' Hperm). auto.
  - rewrite !distance_pooled, !initialHidden_pooled, pooled_placeholder. auto.
Qed.

End Network.

(** * [ProgramGraph.prettyPrint]

    The listing of a graph, one line per object, in which an object is
    referred to by the number of its line.  The DSL enters through
    [n.serialize()]. *)

Section PrettyPrint.

Context {Node : Type} `{NodeCountable : Countable Node}.

(** [n.serialize()]: lexicon strings and DSL objects. *)
Variable serialize : Node -> list (@line_token Node).

Local Abbreviation ProgramGraph := (@ProgramGraph Node _ _).
Local Abbreviation line_token := (@line_token Node).

(** The three local variables that [getIndex] updates. *)
Record Printer : Type := mkPrinter {
  index2node : list Node;
  node2index : gmap Node nat;
  index2code : gmap nat string;
}.

Definition newline : string := String (Ascii.ascii_of_nat 10) EmptyString.

(** The local function [getIndex(n)]; [depth] is the number of nested
    calls the interpreter still allows (past it Python raises
    [RecursionError], a [RuntimeError]). *)
Fixpoint getIndex (depth : nat) (n : Node) : M Printer nat :=
  match depth with
  | O => lift (Raise RuntimeError)
  | S depth' =>
      let! known := gets node2index in
      match known !! n with
      | Some i => ret i
      | None =>
          let! serialization :=
            mapM (fun t => match t with
                           | LStr s => ret s
                           | LObj c =>
                               let! i := getIndex depth' c in
                               ret ("$" +:+ pretty i)
                           end) (serialize n) in
          let! myIndex := gets (fun s => length (index2node s)) in
          do! modify (fun s => mkPrinter (index2node s ++ [n]) (node2index s)
                                         (index2code s)) in
          do! modify (fun s =>
                        mkPrinter (index2node s) (node2index s)
                          (<[myIndex := "(" +:+ String.concat " " serialization +:+ ")"]>
                             (index2code s))) in
          do! modify (fun s => mkPrinter (index2node s) (<[n := myIndex]> (node2index s))
                                         (index2code s)) in
          ret myIndex
      end
  end.

(** [self.prettyPrint()]. *)
Definition prettyPrint (depth : nat) (self : ProgramGraph) : result string :=
  rbind (foldM (fun _ n => do! getIndex depth n in ret tt) (elements (nodes self)) tt
           (mkPrinter [] ∅ ∅))
        (fun r =>
           rbind (rmapM (fun i => match index2code r.2 !! i with
                                  | Some code => OK ("$" +:+ pretty i +:+ " <- " +:+ code)
                                  | None => Raise KeyError
                                  end)
                        (seq 0 (length (index2node r.2))))
                 (fun lines => OK (String.concat newline lines))).

(** *** Notions *)

(** The serialization of [n] mentions the object [c]. *)
Definition mentions (n c : Node) : Prop := In (LObj c) (serialize n).

(** The place of the first [c] in a list. *)
Fixpoint position (c : Node) (l : list Node) : nat :=
  match l with
  | [] => O
  | x :: l' => if decide (x = c) then O else S (position c l')
  end.

(** A token as a listing in the order [order] shows it. *)
Definition render (order : list Node) (t : line_token) : string :=
  match t with
  | LStr s => s
  | LObj c => "$" +:+ pretty (position c order)
  end.

Definition code_of (order : list Node) (n : Node) : string :=
  "(" +:+ String.concat " " (map (render order) (serialize n)) +:+ ")".

(** The listing of the objects [order], one line each. *)
Definition listing (order : list Node) : string :=
  String.concat newline
    (imap (fun i n => "$" +:+ pretty i +:+ " <- " +:+ code_of order n) order).

(** *** Properties *)

Lemma position_lookup (l : list Node) (i : nat) (c : Node) :
  List.NoDup l -> l !! i = Some c -> position c l = i.
Proof.
  revert i. induction l as [|x l IH]; intros i Hnd Hi; [discriminate|].
  simpl. destruct (decide (x = c)) as [->|Hne].
  - destruct i as [|i]; [reflexivity|]. simpl in Hi.
    apply List.NoDup_cons_iff in Hnd as [Hnot _]. exfalso. apply Hnot.
    apply list_elem_of_In. eapply list_elem_of_lookup_2, Hi.
  - destruct i as [|i]; simpl in Hi; [congruence|].
    f_equal. apply IH; [|exact Hi]. apply List.NoDup_cons_iff in Hnd. tauto.
Qed.

Lemma position_app (l ext : list Node) (c : Node) :
  In c l -> position c (l ++ ext) = position c l.
Proof.
  induction l as [|x l IH]; intros Hin; [contradiction|].
  simpl. destruct (decide (x = c)); [reflexivity|].
  f_equal. apply IH. destruct Hin; [contradiction|assumption].
Qed.

Lemma render_app (l ext : list Node) (ts : list line_token) :
  (forall c, In (LObj c) ts -> In c l) ->
  map (render (l ++ ext)) ts = map (render l) ts.
Proof.
  intros Hin. apply map_ext_in. intros [s|c] Ht; simpl; [reflexivity|].
  rewrite position_app by (apply Hin, Ht). reflexivity.
Qed.

Lemma code_of_app (l ext : list Node) (n : Node) :
  (forall c, mentions n c -> In c l) -> code_of (l ++ ext) n = code_of l n.
Proof. intros Hin. unfold code_of. rewrite render_app by exact Hin. reflexivity. Qed.

Lemma lookup_In (l : list Node) (i : nat) (x : Node) : l !! i = Some x -> In x l.
Proof. intros Hi. apply list_elem_of_In. eapply list_elem_of_lookup_2, Hi. Qed.

Section Invariant.

(** The objects a listing may hold. *)
Variable allowed : Node -> Prop.
Hypothesis allowed_mentions : forall n c, allowed n -> mentions n c -> allowed c.

(** A measure that [serialize] decreases: objects are built from
    objects that exist already. *)
Variable height : Node -> nat.
Hypothesis serialize_smaller : forall n c, mentions n c -> (height c < height n)%nat.

(** What [getIndex] keeps true of its three variables. *)
Definition printer_inv (s : Printer) : Prop :=
  List.NoDup (index2node s) /\
  (forall n i, node2index s !! n = Some i <-> index2node s !! i = Some n) /\
  (forall i n, index2node s !! i = Some n ->
               index2code s !! i = Some (code_of (index2node s) n)) /\
  (forall i n c, index2node s !! i = Some n -> mentions n c ->
                 exists j, (j < i)%nat /\ index2node s !! j = Some c) /\
  (forall x, In x (index2node s) -> allowed x).

Lemma printer_inv_children (s : Printer) (n c : Node) :
  printer_inv s -> In n (index2node s) -> mentions n c -> In c (index2node s).
Proof.
  intros (_ & _ & _ & Hdef & _) Hn Hc.
  apply list_elem_of_In, list_elem_of_lookup_1 in Hn as [i Hi].
  destruct (Hdef i n c Hi Hc) as (j & _ & Hj). eapply lookup_In, Hj.
Qed.

(** The state after [getIndex] has registered [n]. *)
Lemma printer_inv_register (s : Printer) (n : Node) :
  printer_inv s -> allowed n -> ~ In n (index2node s) ->
  (forall c, mentions n c -> In c (index2node s)) ->
  printer_inv
    (mkPrinter (index2node s ++ [n])
               (<[n := length (index2node s)]> (node2index s))
               (<[length (index2node s) := code_of (index2node s) n]> (index2code s))).
Proof.
  intros (Hnd & Hidx & Hcode & Hdef & Hall) Hn Hnew Hchildren.
  assert (forall i x, (index2node s ++ [n]) !! i = Some x ->
            (index2node s !! i = Some x /\ (i < length (index2node s))%nat) \/
            (i = length (index2node s) /\ x = n)) as Hcases.
  { intros i x Hi. apply lookup_app_Some in Hi as [Hi|[Hge Hi]].
    - left. split; [exact Hi|]. eapply lookup_lt_Some, Hi.
    - right. destruct (i - length (index2node s))%nat as [|k] eqn:E;
        simpl in Hi; [|discriminate].
      injection Hi as <-. split; [lia|reflexivity]. }
  repeat split; simpl.
  - apply NoDup_ListNoDup. apply NoDup_app. split; [apply NoDup_ListNoDup, Hnd|].
    split; [|apply NoDup_singleton].
    intros x Hx Hx'. apply list_elem_of_singleton in Hx' as ->.
    apply Hnew, list_elem_of_In, Hx.
  - intros Hi. destruct (decide (n = n0)) as [<-|Hne].
    + rewrite lookup_insert_eq in Hi. injection Hi as <-.
      rewrite lookup_app_r by lia. rewrite Nat.sub_diag. reflexivity.
    + rewrite lookup_insert_ne in Hi by exact Hne. apply Hidx in Hi.
      apply lookup_app_l_Some. exact Hi.
  - intros Hi. apply Hcases in Hi as [[Hi Hlt]|[-> ->]].
    + rewrite lookup_insert_ne; [apply Hidx, Hi|].
      intros <-. apply Hnew. eapply lookup_In, Hi.
    + apply lookup_insert_eq.
  - intros i x Hi. apply Hcases in Hi as [[Hi Hlt]|[-> ->]].
    + rewrite lookup_insert_ne by lia. rewrite (Hcode i x Hi). f_equal.
      symmetry. apply code_of_app. intros c Hc.
      destruct (Hdef i x c Hi Hc) as (j & _ & Hj). eapply lookup_In, Hj.
    + rewrite lookup_insert_eq. f_equal. symmetry. apply code_of_app, Hchildren.
  - intros i x c Hi Hc. apply Hcases in Hi as [[Hi Hlt]|[-> ->]].
    + destruct (Hdef i x c Hi Hc) as (j & Hj & Hjc). exists j.
      split; [exact Hj|]. apply lookup_app_l_Some, Hjc.
    + apply Hchildren, list_elem_of_In, list_elem_of_lookup_1 in Hc as [j Hj].
      exists j. split; [eapply lookup_lt_Some, Hj|]. apply lookup_app_l_Some, Hj.
  - intros x Hx. apply in_app_or in Hx as [Hx|[<-|[]]]; [apply Hall, Hx|exact Hn].
Qed.

(** What one call of [getIndex] does, given what the nested calls do. *)
Definition getIndex_post (n : Node) (s : Printer) (i : nat) (s' : Printer) : Prop :=
  printer_inv s' /\
  (exists ext, index2node s' = index2node s ++ ext /\
               Forall (fun x => (height x <= height n)%nat) ext) /\
  index2node s' !! i = Some n.

Lemma serialization_spec (depth : nat) (n : Node) :
  (forall c s i s', printer_inv s -> allowed c ->
     getIndex depth c s = OK (i, s') -> getIndex_post c s i s') ->
  forall ts s strs s1,
    printer_inv s ->
    (forall c, In (LObj c) ts -> allowed c /\ (height c < height n)%nat) ->
    mapM (fun t => match t with
                   | LStr w => ret w
                   | LObj c => let! i := getIndex depth c in ret ("$" +:+ pretty i)
                   end) ts s = OK (strs, s1) ->
    printer_inv s1 /\
    (exists ext, index2node s1 = index2node s ++ ext /\
                 Forall (fun x => (height x < height n)%nat) ext) /\
    (forall c, In (LObj c) ts -> In c (index2node s1)) /\
    strs = map (render (index2node s1)) ts.
Proof.
  intros IHd. induction ts as [|t ts IH]; intros s strs s1 Hinv Hts Hrun;
    simpl in Hrun.
  - injection Hrun as <- <-. split; [exact Hinv|]. split.
    + exists []. rewrite app_nil_r. split; [reflexivity|constructor].
    + split; [intros c []|reflexivity].
  - apply bind_OK in Hrun as (str & s0 & Ht & Hrun).
    apply bind_OK in Hrun as (strs' & s2 & Hrest & Hrun). injection Hrun as <- <-.
    destruct t as [w|c].
    + injection Ht as <- <-.
      destruct (IH s strs' s2 Hinv) as (Hinv2 & Hext & Hin & ->); [|exact Hrest|].
      { intros c Hc. apply Hts. right. exact Hc. }
      split; [exact Hinv2|]. split; [exact Hext|]. split; [|reflexivity].
      intros c [Hc|Hc]; [discriminate|apply Hin, Hc].
    + apply bind_OK in Ht as (i & s0' & Hc & Ht). injection Ht as <- ->.
      destruct (Hts c (or_introl eq_refl)) as [Hallowed Hheight].
      destruct (IHd c s i s0 Hinv Hallowed Hc) as (Hinv0 & (ext0 & Hext0 & Hh0) & Hi).
      destruct (IH s0 strs' s2 Hinv0) as (Hinv2 & (ext1 & Hext1 & Hh1) & Hin & ->);
        [|exact Hrest|].
      { intros c' Hc'. apply Hts. right. exact Hc'. }
      assert (index2node s2 !! i = Some c) as Hi2.
      { rewrite Hext1. apply lookup_app_l_Some, Hi. }
      split; [exact Hinv2|]. split.
      { exists (ext0 ++ ext1). rewrite Hext1, Hext0, app_assoc. split; [reflexivity|].
        apply Forall_app. split; [|exact Hh1].
        eapply Forall_impl; [exact Hh0|]. simpl. intros x Hx. lia. }
      split.
      { intros c' [[= <-]|Hc']; [eapply lookup_In, Hi2|apply Hin, Hc']. }
      simpl. f_equal. f_equal. f_equal. symmetry.
      apply position_lookup; [apply Hinv2|exact Hi2].
Qed.

Lemma getIndex_spec (depth : nat) :
  forall n s i s', printer_inv s -> allowed n ->
    getIndex depth n s = OK (i, s') -> getIndex_post n s i s'.
Proof.
  induction depth as [|depth IHd]; intros n s i s' Hinv Hn Hrun; [discriminate|].
  simpl in Hrun. apply bind_OK in Hrun as (known & s0 & Hget & Hrun).
  injection Hget as <- <-.
  destruct (node2index s !! n) as [i0|] eqn:Eknown.
  - injection Hrun as <- <-. split; [exact Hinv|]. split.
    + exists []. rewrite app_nil_r. split; [reflexivity|constructor].
    + destruct Hinv as (_ & Hidx & _). apply Hidx, Eknown.
  - apply bind_OK in Hrun as (strs & s1 & Hser & Hrun).
    destruct (serialization_spec depth n IHd (serialize n) s strs s1 Hinv)
      as (Hinv1 & (ext & Hext & Hh) & Hin & ->); [|exact Hser|].
    { intros c Hc. split; [eapply allowed_mentions; eassumption|].
      apply serialize_smaller, Hc. }
    assert (~ In n (index2node s1)) as Hnew.
    { rewrite Hext. intros Hx. apply in_app_or in Hx as [Hx|Hx].
      - apply list_elem_of_In, list_elem_of_lookup_1 in Hx as [j Hj].
        destruct Hinv as (_ & Hidx & _). apply Hidx in Hj. congruence.
      - rewrite List.Forall_forall in Hh. specialize (Hh n Hx). lia. }
    cbv [bind gets modify ret] in Hrun. injection Hrun as <- <-.
    split; [|split].
    + apply (printer_inv_register s1 n Hinv1 Hn Hnew Hin).
    + simpl. exists (ext ++ [n]). rewrite Hext, app_assoc. split; [reflexivity|].
      apply Forall_app. split.
      * eapply Forall_impl; [exact Hh|]. simpl. intros x Hx. lia.
      * repeat constructor.
    + simpl. rewrite lookup_app_r by lia. rewrite Nat.sub_diag. reflexivity.
Qed.

Lemma roots_spec (depth : nat) (roots : list Node) :
  forall s u s',
    printer_inv s -> (forall r, In r roots -> allowed r) ->
    foldM (fun _ n => do! getIndex depth n in ret tt) roots tt s = OK (u, s') ->
    printer_inv s' /\
    (forall x, In x (index2node s) -> In x (index2node s')) /\
    (forall r, In r roots -> In r (index2node s')).
Proof.
  induction roots as [|r roots IH]; intros s u s' Hinv Hroots Hrun; simpl in Hrun.
  - injection Hrun as _ <-. split; [exact Hinv|]. split; [auto|intros r []].
  - apply bind_OK in Hrun as ([] & s0 & Hr & Hrun).
    apply bind_OK in Hr as (i & s0' & Hr & Hret). injection Hret as ->.
    destruct (getIndex_spec depth r s i s0 Hinv (Hroots r (or_introl eq_refl)) Hr)
      as (Hinv0 & (ext & Hext & _) & Hi).
    destruct (IH s0 u s' Hinv0) as (Hinv' & Hkeep & Hin); [|exact Hrun|].
    { intros r' Hr'. apply Hroots. right. exact Hr'. }
    split; [exact Hinv'|]. split.
    + intros x Hx. apply Hkeep. rewrite Hext. apply in_or_app. left. exact Hx.
    + intros r' [<-|Hr']; [apply Hkeep; eapply lookup_In, Hi|apply Hin, Hr'].
Qed.

(** The lines of the listing are there for every index. *)
Lemma lines_spec (s : Printer) :
  printer_inv s ->
  rmapM (fun i => match index2code s !! i with
                  | Some code => OK ("$" +:+ pretty i +:+ " <- " +:+ code)
                  | None => Raise KeyError
                  end)
        (seq 0 (length (index2node s)))
  = OK (imap (fun i n => "$" +:+ pretty i +:+ " <- " +:+ code_of (index2node s) n)
             (index2node s)).
Proof.
  intros (_ & _ & Hcode & _).
  rewrite (rmapM_map _ (fun i => match index2node s !! i with
                                 | Some n => "$" +:+ pretty i +:+ " <- "
                                             +:+ code_of (index2node s) n
                                 | None => EmptyString
                                 end)).
  - f_equal. apply list_eq. intros i.
    rewrite list_lookup_imap. change (map ?f ?l) with (f <$> l).
    rewrite list_lookup_fmap.
    destruct (index2node s !! i) as [n|] eqn:E; simpl.
    + rewrite lookup_seq_lt by (eapply lookup_lt_Some, E). simpl. rewrite E.
      reflexivity.
    + rewrite lookup_seq_ge; [reflexivity|]. apply lookup_ge_None, E.
  - intros i Hi. apply in_seq in Hi as [_ Hi]. simpl in Hi.
    destruct (lookup_lt_is_Some_2 (index2node s) i Hi) as [n Hn].
    rewrite Hn, (Hcode i n Hn). reflexivity.
Qed.

End Invariant.

Lemma printer_inv_empty (allowed : Node -> Prop) : printer_inv allowed (mkPrinter [] ∅ ∅).
Proof.
  unfold printer_inv. simpl. split; [constructor|]. split.
  { intros n i. split; intros Hi; [rewrite lookup_empty in Hi|]; discriminate. }
  split; [intros i n Hi; discriminate|].
  split; [intros i n c Hi; discriminate|intros x []].
Qed.

(** [getIndex] fails only for want of depth. *)
Lemma getIndex_Raise (depth : nat) :
  forall n s e, getIndex depth n s = Raise e -> e = RuntimeError.
Proof.
  induction depth as [|depth IHd]; intros n s e Hrun; simpl in Hrun; [congruence|].
  apply bind_Raise in Hrun as [Hrun|(known & s0 & _ & Hrun)]; [discriminate|].
  destruct (known !! n); [discriminate|].
  apply bind_Raise in Hrun as [Hrun|(strs & s1 & _ & Hrun)]; [|discriminate].
  revert Hrun. apply (mapM_Raise (fun e => e = RuntimeError)).
  intros [w|c] s2 e0 Ht; [discriminate|].
  apply bind_Raise in Ht as [Ht|(i & s3 & _ & Ht)]; [|discriminate].
  eapply IHd, Ht.
Qed.

Lemma mapM_total {S A B} (f : A -> M S B) (l : list A) :
  (forall x, In x l -> forall s : S, exists y s', f x s = OK (y, s')) ->
  forall s : S, exists ys s', mapM f l s = OK (ys, s').
Proof.
  induction l as [|x l IH]; intros Hf s; simpl.
  - eexists _, _. reflexivity.
  - destruct (Hf x (or_introl eq_refl) s) as (y & s1 & Hy).
    destruct (IH (fun x' Hx' => Hf x' (or_intror Hx')) s1) as (ys & s2 & Hys).
    exists (y :: ys), s2. unfold bind. rewrite Hy, Hys. reflexivity.
Qed.

Section WellFoundedSerialize.

Variable height : Node -> nat.
Hypothesis serialize_smaller : forall n c, mentions n c -> (height c < height n)%nat.

Lemma getIndex_total (depth : nat) :
  forall n s, (height n < depth)%nat -> exists i s', getIndex depth n s = OK (i, s').
Proof.
  induction depth as [|depth IHd]; intros n s Hdepth; [lia|].
  simpl. unfold bind at 1. unfold gets at 1.
  destruct (node2index s !! n) as [i|]; [eexists _, _; reflexivity|].
  destruct (mapM_total
              (fun t => match t with
                        | LStr w => ret w
                        | LObj c => let! i := getIndex depth c in ret ("$" +:+ pretty i)
                        end) (serialize n)) with (s := s) as (strs & s1 & Hstrs).
  { intros [w|c] Ht s0; [eexists _, _; reflexivity|].
    destruct (IHd c s0) as (i & s2 & Hi).
    { pose proof (serialize_smaller n c Ht). lia. }
    eexists _, _. unfold bind. rewrite Hi. reflexivity. }
  unfold bind at 1. rewrite Hstrs. eexists _, _. reflexivity.
Qed.

Lemma roots_total (depth : nat) (roots : list Node) :
  (forall r, In r roots -> (height r < depth)%nat) ->
  forall s, exists u s',
    foldM (fun _ n => do! getIndex depth n in ret tt) roots tt s = OK (u, s').
Proof.
  induction roots as [|r roots IH]; intros Hroots s; simpl.
  - eexists _, _. reflexivity.
  - destruct (getIndex_total depth r s (Hroots r (or_introl eq_refl))) as (i & s1 & Hi).
    destruct (IH (fun r' Hr' => Hroots r' (or_intror Hr')) s1) as (u & s2 & Hrest).
    exists u, s2. unfold bind. rewrite Hi. simpl. exact Hrest.
Qed.

(** X17: the text [prettyPrint] returns is the listing of the objects
    reached from the graph through [serialize()], each on one line of
    its own, numbered from 0 in the order of the lines; a line shows the
    serialization of its object with every object replaced by [$] and
    the number of that object's line, and mentions only earlier lines
    (definitions come before uses).  The only exception is the
    [RuntimeError] of a recursion too deep, the lookups
    [index2code[i]] never miss; and the call returns once the
    interpreter allows more nested calls than the objects of the graph
    are high. *)
Theorem prettyPrint_listing (self : ProgramGraph) :
  (forall depth text, prettyPrint depth self = OK text ->
     exists order,
       List.NoDup order /\
       (forall x, In x order <-> exists r, r ∈ nodes self /\ rtc mentions r x) /\
       (forall i n c, order !! i = Some n -> mentions n c ->
                      exists j, (j < i)%nat /\ order !! j = Some c) /\
       text = listing order) /\
  (forall depth e, prettyPrint depth self = Raise e -> e = RuntimeError) /\
  (forall depth, (forall r, r ∈ nodes self -> (height r < depth)%nat) ->
                 exists text, prettyPrint depth self = OK text).
Proof.
  set (allowed := fun x => exists r, r ∈ nodes self /\ rtc mentions r x).
  assert (forall n c, allowed n -> mentions n c -> allowed c) as Hclosed.
  { intros n c (r & Hr & Hrn) Hc. exists r. split; [exact Hr|].
    eapply rtc_r; eassumption. }
  assert (forall r, In r (elements (nodes self)) -> allowed r) as Hroots.
  { intros r Hr. exists r. split; [|apply rtc_refl].
    apply elem_of_elements, list_elem_of_In, Hr. }
  assert (forall depth u s,
            foldM (fun _ n => do! getIndex depth n in ret tt) (elements (nodes self)) tt
              (mkPrinter [] ∅ ∅) = OK (u, s) ->
            printer_inv allowed s /\
            forall x, In x (index2node s) <-> allowed x) as Hloop.
  { intros depth u s Hrun.
    destruct (roots_spec allowed Hclosed height serialize_smaller depth _ _ _ _
                (printer_inv_empty allowed) Hroots Hrun) as (Hinv & _ & Hin).
    split; [exact Hinv|]. intros x. split; [apply Hinv|].
    intros (r & Hr & Hrx).
    assert (In r (index2node s)) as Hstart
      by (apply Hin, list_elem_of_In, elem_of_elements, Hr).
    clear Hr. induction Hrx as [r|r y z Hry _ IH]; [exact Hstart|].
    apply IH. eapply printer_inv_children; [exact Hinv|exact Hstart|exact Hry]. }
  split; [|split].
  - intros depth text Hrun. unfold prettyPrint in Hrun.
    apply rbind_OK in Hrun as ([u s] & Hfold & Hrun).
    destruct (Hloop depth u s Hfold) as [Hinv Hreach].
    simpl in Hrun. rewrite (lines_spec allowed s Hinv) in Hrun. injection Hrun as <-.
    exists (index2node s). split; [apply Hinv|]. split; [exact Hreach|].
    split; [apply Hinv|reflexivity].
  - intros depth e Hrun. unfold prettyPrint in Hrun.
    destruct (foldM _ (elements (nodes self)) tt (mkPrinter [] ∅ ∅))
      as [[u s]|e0] eqn:Hfold; simpl in Hrun.
    + destruct (Hloop depth u s Hfold) as [Hinv _].
      rewrite (lines_spec allowed s Hinv) in Hrun. discriminate.
    + injection Hrun as <-. revert Hfold.
      apply (foldM_Raise (fun _ => True) (fun e => e = RuntimeError)); [| |exact I];
        [|auto].
      intros acc r s0 e1 _ _ Hr.
      apply bind_Raise in Hr as [Hr|(i & s1 & _ & Hr)]; [|discriminate].
      eapply getIndex_Raise, Hr.
  - intros depth Hdepth.
    destruct (roots_total depth (elements (nodes self))) with (s := mkPrinter [] ∅ ∅)
      as (u & s & Hfold).
    { intros r Hr. apply Hdepth, elem_of_elements, list_elem_of_In, Hr. }
    destruct (Hloop depth u s Hfold) as [Hinv _].
    unfold prettyPrint. rewrite Hfold. simpl. rewrite (lines_spec allowed s Hinv).
    simpl. eauto.
Qed.

End WellFoundedSerialize.

End PrettyPrint.

(** ** The listing of the small DSL *)

Lemma demo_serialize_smaller (n c : nat) :
  mentions demo_serialize n c -> (demo_height c < demo_height n)%nat.
Proof.
  unfold mentions, demo_serialize. intros [Hc|Hc]; [discriminate|].
  apply in_map_iff in Hc as (c' & [= ->] & Hc). apply demo_children_smaller, Hc.
Qed.

(** The target of the small DSL, object 0 to object 3. *)
Lemma demo_prettyPrint :
  prettyPrint demo_serialize 4 demo_target
  = OK ("$0 <- (f)" +:+ newline +:+ "$1 <- (f $0)" +:+ newline +:+
        "$2 <- (f $1 $0)" +:+ newline +:+ "$3 <- (f $2 $1)").
Proof. vm_compute. reflexivity. Qed.

Lemma prettyPrint_listing_witness :
  (forall depth text, prettyPrint demo_serialize depth demo_target = OK text ->
     exists order,
       List.NoDup order /\
       (forall x, In x order <->
                  exists r, r ∈ nodes demo_target /\ rtc (mentions demo_serialize) r x) /\
       (forall i n c, order !! i = Some n -> mentions demo_serialize n c ->
                      exists j, (j < i)%nat /\ order !! j = Some c) /\
       text = listing demo_serialize order) /\
  (forall depth e, prettyPrint demo_serialize depth demo_target = Raise e ->
                   e = RuntimeError) /\
  (forall depth, (forall r, r ∈ nodes demo_target -> (demo_height r < depth)%nat) ->
                 exists text, prettyPrint demo_serialize depth demo_target = OK text).
Proof.
  exact (prettyPrint_listing demo_serialize demo_height demo_serialize_smaller
           demo_target).
Defined.

(** * [ProgramPointerNetwork.sample]

    The loop that samples a whole program, one line after the other.
    Besides the exceptions of the search it can raise a [TypeError] and
    a [NameError]. *)

Section Sample.

Context {Node : Type} `{NodeCountable : Countable Node}.
Context {Spec Val SpecEnc Hidden World : Type}.

(** [o.execute()]. *)
Variable execute : Node -> Val.

Local Abbreviation Model := (@Model Node Spec Val SpecEnc Hidden World).
Local Abbreviation ProgramGraph := (@ProgramGraph Node _ _).
Local Abbreviation line_token := (@line_token Node).

Inductive sample_exn : Type :=
| TypeError
| NameError
| Exn (e : exn).

(** How a call of [sample] ends: [return graph] or [return None], or
    an exception. *)
Inductive sample_outcome : Type :=
| Returns (r : option ProgramGraph)
| Raises (e : sample_exn).

(** The local variables of [sample] at the head of the loop, the state
    of the collaborators and the next free object identity;
    [sample_objects] is [None] as long as [objects] is unbound. *)
Record Sampler : Type := mkSampler {
  sample_graph : ProgramGraph;
  sample_objectEncodings : list (Node * Vec);
  sample_objects : option (list Node);
  sample_world : World;
  sample_next_id : nat;
}.

(** [d[o]] on a dictionary kept in insertion order. *)
Fixpoint encodings_get (d : list (Node * Vec)) (o : Node) : result Vec :=
  match d with
  | [] => Raise KeyError
  | (k, v) :: d' => if decide (k = o) then OK v else encodings_get d' o
  end.

(** [d[o] = v]. *)
Fixpoint encodings_set (d : list (Node * Vec)) (o : Node) (v : Vec)
  : list (Node * Vec) :=
  match d with
  | [] => [(o, v)]
  | (k, x) :: d' =>
      if decide (k = o) then (k, v) :: d' else (k, x) :: encodings_set d' o v
  end.

(** [[objects[t.i] if isinstance(t, Pointer) else t for t in line]]. *)
Fixpoint resolve_pointers (objects : option (list Node)) (line : list token)
  : sample_exn + list line_token :=
  match line with
  | [] => inr []
  | t :: line' =>
      match (match t with
             | TStr s => inr (LStr s)
             | TPointer i =>
                 match objects with
                 | None => inl NameError
                 | Some l =>
                     match l !! i with
                     | Some o => inr (LObj o)
                     | None => inl (Exn IndexError)
                     end
                 end
             end) with
      | inl e => inl e
      | inr t' =>
          match resolve_pointers objects line' with
          | inl e => inl e
          | inr rest => inr (t' :: rest)
          end
      end
  end.

(** One turn of [while True]: the next turn's variables, or the end. *)
Definition sample_turn (m : Model) (spec : Spec) (specEncoding : SpecEnc)
    (maxMoves : option Z) (s : Sampler) : Sampler + sample_outcome :=
  let d := sample_objectEncodings s in
  let nonempty := 0 <? Z.of_nat (length d) in
  let objects := if nonempty then Some (map fst d) else sample_objects s in
  match (if nonempty
         then rbind (rmapM (encodings_get d) (map fst d)) torch_stack
         else OK (device (torch_zeros 1 (outputDimensionality m)))) with
  | Raise e => inr (Raises (Exn e))
  | OK oe =>
      match initialHidden m oe specEncoding (sample_world s) with
      | None => inr (Raises (Exn RuntimeError))
      | Some hw =>
          let lw :=
            decoder_sample m hw.1 (if nonempty then Some oe else None) hw.2 in
          match lw.1 with
          | None => inr (Raises TypeError)
          | Some line =>
              match resolve_pointers objects line with
              | inl e => inr (Raises e)
              | inr nextLineOfCode =>
                  if contains_RETURN nextLineOfCode
                  then inr (Returns (Some (sample_graph s)))
                  else
                    match maxMoves with
                    | None => inr (Raises TypeError)
                    | Some k =>
                        if k <=? len (sample_graph s)
                        then inr (Returns (Some (sample_graph s)))
                        else
                          match parseLine m nextLineOfCode with
                          | None => inr (Returns None)
                          | Some nextObject =>
                              let ew :=
                                objectEncoder m spec (execute nextObject) lw.2 in
                              inl (mkSampler
                                     (mkProgramGraph (sample_next_id s)
                                        (nodes (sample_graph s) ∪ {[nextObject]}))
                                     (encodings_set d nextObject ew.1)
                                     objects ew.2 (S (sample_next_id s)))
                          end
                    end
              end
          end
      end
  end.

(** The loop, for at most [fuel] turns; [None] when it is still
    running after them. *)
Fixpoint sample_loop (fuel : nat) (m : Model) (spec : Spec) (specEncoding : SpecEnc)
    (maxMoves : option Z) (s : Sampler) : option sample_outcome :=
  match fuel with
  | O => None
  | S fuel' =>
      match sample_turn m spec specEncoding maxMoves s with
      | inl s' => sample_loop fuel' m spec specEncoding maxMoves s'
      | inr out => Some out
      end
  end.

(** [self.sample(spec, maxMoves)], run where [fresh] is the next free
    object identity and [w] the state of the collaborators;
    [maxMoves = None] is the default of the signature. *)
Definition sample (fuel : nat) (m : Model) (spec : Spec) (maxMoves : option Z)
    (fresh : nat) (w : World) : option sample_outcome :=
  let sw := specEncoder m spec w in
  sample_loop fuel m spec sw.1 maxMoves
    (mkSampler (mkProgramGraph fresh ∅) [] None sw.2 (S fresh)).

(** *** Properties *)

(** What the loop keeps true: the dictionary has one entry per object of
    the graph, and [objects] is unbound as long as it is empty. *)
Definition sampler_inv (s : Sampler) : Prop :=
  List.NoDup (map fst (sample_objectEncodings s)) /\
  (forall o, In o (map fst (sample_objectEncodings s)) <-> o ∈ nodes (sample_graph s)) /\
  (sample_objectEncodings s = [] -> sample_objects s = None).

Lemma encodings_set_keys (d : list (Node * Vec)) (o : Node) (v : Vec) :
  (In o (map fst d) /\ map fst (encodings_set d o v) = map fst d) \/
  (~ In o (map fst d) /\ map fst (encodings_set d o v) = map fst d ++ [o]).
Proof.
  induction d as [|[k x] d IH]; simpl.
  - right. split; [tauto|reflexivity].
  - destruct (decide (k = o)) as [->|Hne]; simpl.
    + left. split; [left|]; reflexivity.
    + destruct IH as [[Hin ->]|[Hout ->]].
      * left. split; [right; exact Hin|reflexivity].
      * right. split; [tauto|reflexivity].
Qed.

Lemma encodings_set_nonempty (d : list (Node * Vec)) (o : Node) (v : Vec) :
  encodings_set d o v <> [].
Proof. destruct d as [|[k x] d]; simpl; [|destruct (decide (k = o))]; discriminate. Qed.

Lemma encodings_get_keys (d : list (Node * Vec)) (l : list Node) :
  (forall o, In o l -> In o (map fst d)) ->
  exists rows, rmapM (encodings_get d) l = OK rows /\ length rows = length l.
Proof.
  intros Hl. assert (forall o, In o (map fst d) -> exists v, encodings_get d o = OK v)
    as Hget.
  { clear Hl l. induction d as [|[k x] d IH]; intros o Ho; simpl in *; [contradiction|].
    destruct (decide (k = o)); [eauto|]. apply IH. tauto. }
  induction l as [|o l IH]; simpl.
  - exists []. auto.
  - destruct (Hget o (Hl o (or_introl eq_refl))) as [v Hv].
    destruct IH as (rows & Hrows & Hlen); [intros o' Ho'; apply Hl; right; exact Ho'|].
    rewrite Hv, Hrows. simpl. exists (v :: rows). simpl. auto.
Qed.

Lemma resolve_pointers_Raise (objects : option (list Node)) (line : list token) e :
  resolve_pointers objects line = inl e ->
  (e = NameError /\ objects = None) \/
  (e = Exn IndexError /\
   exists l i, objects = Some l /\ In (TPointer i) line /\ (length l <= i)%nat).
Proof.
  induction line as [|t line IH]; simpl; [discriminate|].
  destruct t as [s|i].
  - destruct (resolve_pointers objects line) as [e'|rest]; [|discriminate].
    intros [= <-]. destruct IH as [IH|(He & l & i & Hl & Hi & Hlen)];
      [reflexivity|left; exact IH|].
    right. split; [exact He|]. exists l, i. auto.
  - destruct objects as [l|]; [|intros [= <-]; left; auto].
    destruct (l !! i) as [o|] eqn:E.
    + destruct (resolve_pointers (Some l) line) as [e'|rest]; [|discriminate].
      intros [= <-]. destruct IH as [[_ IH]|(He & l' & i' & Hl & Hi & Hlen)];
        [reflexivity|discriminate|].
      right. split; [exact He|]. exists l', i'. auto.
    + intros [= <-]. right. split; [reflexivity|]. exists l, i.
      apply lookup_ge_None in E. auto.
Qed.

(** A turn that goes on to the next one added an object to the graph,
    under the limit. *)
Lemma sample_turn_inv (m : Model) (spec : Spec) (specEncoding : SpecEnc)
    (maxMoves : option Z) (s s' : Sampler) :
  sampler_inv s ->
  sample_turn m spec specEncoding maxMoves s = inl s' ->
  sampler_inv s' /\
  exists k nextObject,
    maxMoves = Some k /\ len (sample_graph s) < k /\
    nodes (sample_graph s') = nodes (sample_graph s) ∪ {[nextObject]} /\
    gid (sample_graph s') = sample_next_id s /\
    sample_next_id s' = S (sample_next_id s).
Proof.
  intros (Hnd & Hkeys & Hobjects). unfold sample_turn.
  destruct (if 0 <? Z.of_nat (length (sample_objectEncodings s))
            then rbind (rmapM (encodings_get (sample_objectEncodings s))
                          (map fst (sample_objectEncodings s))) torch_stack
            else OK (device (torch_zeros 1 (outputDimensionality m))))
    as [oe|e]; [|discriminate].
  destruct (initialHidden m oe specEncoding (sample_world s)) as [hw|];
    [|discriminate].
  destruct (decoder_sample m _ _ _).1 as [line|]; [|discriminate].
  destruct (resolve_pointers _ line) as [e|nextLineOfCode]; [discriminate|].
  destruct (contains_RETURN nextLineOfCode); [discriminate|].
  destruct maxMoves as [k|]; [|discriminate].
  destruct (k <=? len (sample_graph s)) eqn:Ek; [discriminate|].
  apply Z.leb_gt in Ek.
  destruct (parseLine m nextLineOfCode) as [nextObject|]; [|discriminate].
  intros [= <-]. split.
  - unfold sampler_inv. simpl.
    match goal with
    | |- context [encodings_set ?d ?o ?v] =>
        destruct (encodings_set_keys d o v) as [[Hin ->]|[Hout ->]]
    end.
    + split; [exact Hnd|]. split.
      * intros o. rewrite Hkeys. apply Hkeys in Hin. set_solver.
      * intros Hempty. exfalso. eapply encodings_set_nonempty, Hempty.
    + split.
      * apply NoDup_ListNoDup, NoDup_app. split; [apply NoDup_ListNoDup, Hnd|].
        split; [|apply NoDup_singleton].
        intros x Hx Hx'. apply list_elem_of_singleton in Hx' as ->.
        apply Hout, list_elem_of_In, Hx.
      * split.
        { intros o. rewrite in_app_iff, Hkeys. simpl. set_solver. }
        intros Hempty. exfalso. eapply encodings_set_nonempty, Hempty.
  - exists k, nextObject. simpl. auto.
Qed.

(** How a turn can end the call. *)
Lemma sample_turn_outcome (m : Model) (spec : Spec) (specEncoding : SpecEnc)
    (maxMoves : option Z) (s : Sampler) (out : sample_outcome) :
  sampler_inv s ->
  sample_turn m spec specEncoding maxMoves s = inr out ->
  match out with
  | Returns (Some g) => g = sample_graph s
  | Returns None => exists k, maxMoves = Some k /\ len (sample_graph s) < k
  | Raises TypeError => True
  | Raises NameError => nodes (sample_graph s) = ∅
  | Raises (Exn e) =>
      e = RuntimeError \/ (e = IndexError /\ nodes (sample_graph s) <> ∅)
  end.
Proof.
  intros (Hnd & Hkeys & Hobjects). unfold sample_turn.
  assert (sample_objectEncodings s = [] -> nodes (sample_graph s) = ∅) as Hempty.
  { intros Hd. apply set_eq. intros o. rewrite <- Hkeys, Hd. simpl. set_solver. }
  assert (sample_objectEncodings s <> [] -> nodes (sample_graph s) <> ∅) as Hfull.
  { intros Hd Hnodes. destruct (sample_objectEncodings s) as [|[k v] d]; [congruence|].
    assert (k ∈ nodes (sample_graph s)) as Hk by (apply Hkeys; left; reflexivity).
    rewrite Hnodes in Hk. set_solver. }
  destruct (0 <? Z.of_nat (length (sample_objectEncodings s))) eqn:Enonempty.
  - assert (sample_objectEncodings s <> []) as Hd.
    { intros Hd. rewrite Hd in Enonempty. discriminate. }
    destruct (encodings_get_keys (sample_objectEncodings s)
                (map fst (sample_objectEncodings s))) as (rows & -> & _); [auto|].
    simpl. destruct (torch_stack rows) as [oe|e] eqn:Estack.
    + destruct (initialHidden m oe specEncoding (sample_world s)) as [hw|];
        [|intros [= <-]; auto].
      destruct (decoder_sample m _ _ _).1 as [line|]; [|intros [= <-]; exact I].
      destruct (resolve_pointers _ line) as [e|nextLineOfCode] eqn:Eline.
      { intros [= <-].
        apply resolve_pointers_Raise in Eline as [[_ Hnone]|[-> _]]; [discriminate|].
        auto. }
      destruct (contains_RETURN nextLineOfCode); [intros [= <-]; reflexivity|].
      destruct maxMoves as [k|]; [|intros [= <-]; exact I].
      destruct (k <=? len (sample_graph s)) eqn:Ek; [intros [= <-]; reflexivity|].
      apply Z.leb_gt in Ek.
      destruct (parseLine m nextLineOfCode); [discriminate|].
      intros [= <-]. eauto.
    + intros [= <-]. apply torch_stack_Raise in Estack. auto.
  - assert (sample_objectEncodings s = []) as Hd.
    { destruct (sample_objectEncodings s); [reflexivity|discriminate]. }
    rewrite (Hobjects Hd).
    destruct (initialHidden m _ specEncoding (sample_world s)) as [hw|];
      [|intros [= <-]; auto].
    destruct (decoder_sample m _ _ _).1 as [line|]; [|intros [= <-]; exact I].
    destruct (resolve_pointers None line) as [e|nextLineOfCode] eqn:Eline.
    { intros [= <-].
      apply resolve_pointers_Raise in Eline as [[-> _]|[_ (l & i & Hl & _)]];
        [auto|discriminate]. }
    destruct (contains_RETURN nextLineOfCode); [intros [= <-]; reflexivity|].
    destruct maxMoves as [k|]; [|intros [= <-]; exact I].
    destruct (k <=? len (sample_graph s)) eqn:Ek; [intros [= <-]; reflexivity|].
    apply Z.leb_gt in Ek.
    destruct (parseLine m nextLineOfCode); [discriminate|].
    intros [= <-]. eauto.
Qed.

Lemma sample_loop_bounded (fuel : nat) (m : Model) (spec : Spec) (specEncoding : SpecEnc)
    (k : Z) (lo : nat) :
  forall s out,
    sampler_inv s ->
    len (sample_graph s) <= Z.max 0 k ->
    (lo <= gid (sample_graph s) < sample_next_id s)%nat ->
    sample_loop fuel m spec specEncoding (Some k) s = Some out ->
    match out with
    | Returns (Some g) => len g <= Z.max 0 k /\ (lo <= gid g)%nat
    | Returns None => True
    | Raises e =>
        e = TypeError \/ e = NameError \/ e = Exn IndexError \/ e = Exn RuntimeError
    end.
Proof.
  induction fuel as [|fuel IH]; intros s out Hinv Hlen Hid Hrun; [discriminate|].
  simpl in Hrun.
  destruct (sample_turn m spec specEncoding (Some k) s) as [s'|out'] eqn:Eturn.
  - destruct (sample_turn_inv _ _ _ _ _ _ Hinv Eturn)
      as (Hinv' & k' & o & [= <-] & Hk & Hnodes & Hgid & Hnext).
    apply (IH s' out Hinv'); [| |exact Hrun].
    + unfold len in *. rewrite Hnodes.
      pose proof (size_union_alt (nodes (sample_graph s)) ({[o]} : gset Node)) as Hu.
      assert (size (({[o]} : gset Node) ∖ nodes (sample_graph s)) <= 1)%nat as H1.
      { rewrite <- (size_singleton (C:=gset Node) o). apply subseteq_size. set_solver. }
      lia.
    + lia.
  - injection Hrun as <-.
    pose proof (sample_turn_outcome _ _ _ _ _ _ Hinv Eturn) as Hout.
    destruct out' as [[g|]|[| |e]]; auto.
    + subst g. split; [exact Hlen|lia].
    + destruct Hout as [->|[-> _]]; auto.
Qed.

Lemma sampler_inv_initial (fresh : nat) (w : World) :
  sampler_inv (mkSampler (mkProgramGraph fresh ∅) [] None w (S fresh)).
Proof.
  unfold sampler_inv. simpl. split; [constructor|]. split; [|reflexivity].
  intros o. set_solver.
Qed.

(** X18: with a limit [maxMoves], a graph that [sample] returns has at
    most [max(0, maxMoves)] objects and is an object built by this call;
    what [sample] raises is a [TypeError] (the decoder gave no line), a
    [NameError] ([objects] read before any object was sampled), an
    [IndexError] (a pointer past the objects) or a [RuntimeError]
    ([torch.stack] or [initialHidden]); the dictionary lookups never
    miss. *)
Theorem sample_bounded (fuel : nat) (m : Model) (spec : Spec) (maxMoves : Z)
    (fresh : nat) (w : World) (out : sample_outcome) :
  sample fuel m spec (Some maxMoves) fresh w = Some out ->
  match out with
  | Returns (Some g) => len g <= Z.max 0 maxMoves /\ (fresh <= gid g)%nat
  | Returns None => True
  | Raises e =>
      e = TypeError \/ e = NameError \/ e = Exn IndexError \/ e = Exn RuntimeError
  end.
Proof.
  unfold sample. apply sample_loop_bounded.
  - apply sampler_inv_initial.
  - unfold len. cbn [sample_graph nodes]. rewrite size_empty. lia.
  - simpl. lia.
Qed.

(** X19: with the default [maxMoves=None] the loop never reaches a
    second turn and never returns a graph with an object.  The first
    turn raises a [RuntimeError] exactly when [initialHidden] does on
    the zero placeholder and the encoding of the spec; otherwise it
    returns the empty graph if the sampled line holds [RETURN], and
    else raises a [TypeError] (no line, or the comparison
    [len(graph) >= None]) or a [NameError] (a pointer, [objects] being
    unbound). *)
Theorem sample_default_maxMoves (fuel : nat) (m : Model) (spec : Spec)
    (fresh : nat) (w : World) :
  exists out,
    sample (S fuel) m spec None fresh w = Some out /\
    (out = Returns (Some (mkProgramGraph fresh ∅)) \/
     out = Raises TypeError \/ out = Raises NameError \/
     out = Raises (Exn RuntimeError)) /\
    (out = Raises (Exn RuntimeError) <->
     initialHidden m (device (torch_zeros 1 (outputDimensionality m)))
       (specEncoder m spec w).1 (specEncoder m spec w).2 = None).
Proof.
  unfold sample. cbn [sample_loop]. unfold sample_turn.
  cbn [sample_objectEncodings sample_objects sample_world sample_graph length].
  change (0 <? Z.of_nat 0) with false. cbv iota.
  destruct (initialHidden m (device (torch_zeros 1 (outputDimensionality m)))
              (specEncoder m spec w).1 (specEncoder m spec w).2) as [hw|] eqn:Ehead.
  2:{ eexists. split; [reflexivity|]. split; [auto|tauto]. }
  cbv zeta.
  destruct (decoder_sample m hw.1 None hw.2).1 as [line|].
  2:{ eexists. split; [reflexivity|]. split; [auto|]. split; discriminate. }
  destruct (resolve_pointers None line) as [e|nextLineOfCode] eqn:Eline.
  { apply resolve_pointers_Raise in Eline as [[-> _]|[_ (l & i & Hl & _)]];
      [|discriminate].
    eexists. split; [reflexivity|]. split; [auto|]. split; discriminate. }
  destruct (contains_RETURN nextLineOfCode).
  - eexists. split; [reflexivity|]. split; [auto|]. split; discriminate.
  - eexists. split; [reflexivity|]. split; [auto|]. split; discriminate.
Qed.

End Sample.

(** ** Sampling on the concrete model *)

(** With a limit of one object, the lines [a] and [b] give the graph of
    [a]. *)
Lemma demo_sample :
  sample demo_execute 5 demo_model tt (Some 1) 0 [Some [TStr "a"]; Some [TStr "b"]]
  = Some (Returns (Some (mkProgramGraph 1 (∅ ∪ {[ "a" ]})))).
Proof. vm_compute. reflexivity. Qed.

Lemma sample_bounded_witness :
  sample demo_execute 5 demo_model tt (Some 1) 0 [Some [TStr "a"]; Some [TStr "b"]]
    = Some (Returns (Some (mkProgramGraph 1 (∅ ∪ {[ "a" ]})))) /\
  len (mkProgramGraph 1 (∅ ∪ {[ "a" ]}) : DemoGraph) <= Z.max 0 1 /\
  (0 <= gid (mkProgramGraph 1 (∅ ∪ {[ "a" ]}) : DemoGraph))%nat.
Proof.
  split; [exact demo_sample|].
  exact (sample_bounded demo_execute 5 demo_model tt 1 0%nat
           [Some [TStr "a"]; Some [TStr "b"]] _ demo_sample).
Defined.

(** * The resampling distribution

    What the two comprehensions of a round make of the frequencies and
    distances of the candidates. *)

Section Weights.

Context {Node : Type} `{NodeCountable : Countable Node}.

Local Abbreviation Particle := (@Particle Node _ _).

(** The weight of a candidate: its frequency, discounted by its
    distance. *)
Definition particle_weight (p : Particle) : R :=
  (IZR (frequency p) * exp (- Particle_distance p))%R.

Lemma py_sum_map_mult {A} (g : A -> R) (c : R) (l : list A) :
  py_sum (map (fun x => g x * c)%R l) = (py_sum (map g l) * c)%R.
Proof.
  induction l as [|x l IH]; simpl.
  - unfold py_sum. simpl. lra.
  - rewrite !py_sum_cons, IH. lra.
Qed.

Lemma particle_weight_pos (p : Particle) :
  0 < frequency p -> (0 < particle_weight p)%R.
Proof.
  intros Hp. unfold particle_weight. apply Rmult_lt_0_compat; [|apply exp_pos].
  apply IZR_lt. exact Hp.
Qed.

Lemma exp_logWeight (p : Particle) (mx : R) :
  0 < frequency p ->
  exp (ln (IZR (frequency p)) - Particle_distance p - mx)
  = (particle_weight p * exp (- mx))%R.
Proof.
  intros Hp. unfold particle_weight.
  replace (ln (IZR (frequency p)) - Particle_distance p - mx)%R
    with (ln (IZR (frequency p)) + (- Particle_distance p + - mx))%R by lra.
  rewrite !exp_plus, exp_ln by (apply IZR_lt; exact Hp). lra.
Qed.

(** The probabilities of a round, in closed form. *)
Lemma resample_closed_form (samples : list Particle) :
  samples <> [] ->
  Forall (fun p => 0 < frequency p) samples ->
  (0 < py_sum (map particle_weight samples))%R /\
  exists lws,
    logWeights samples = OK lws /\
    normalize lws
    = OK (map (fun p => particle_weight p / py_sum (map particle_weight samples))%R
              samples).
Proof.
  intros Hne Hpos.
  assert (0 < py_sum (map particle_weight samples))%R as Hsum.
  { apply py_sum_pos; [destruct samples; [congruence|discriminate]|].
    apply List.Forall_forall. intros y Hy. apply in_map_iff in Hy as (p & <- & Hp).
    rewrite List.Forall_forall in Hpos. apply particle_weight_pos, Hpos, Hp. }
  split; [exact Hsum|].
  eexists. split; [apply logWeights_positive, Hpos|].
  set (lws := map (fun p => ln (IZR (frequency p)) - Particle_distance p)%R samples).
  destruct (py_max lws) as [mx|e] eqn:Emx.
  2:{ destruct samples; [congruence|discriminate]. }
  rewrite (normalize_closed_form lws mx Emx). f_equal. subst lws.
  rewrite !map_map.
  assert (forall p, In p samples ->
            exp (ln (IZR (frequency p)) - Particle_distance p - mx)
            = (particle_weight p * exp (- mx))%R) as Hexp.
  { intros p Hp. apply exp_logWeight. rewrite List.Forall_forall in Hpos.
    apply Hpos, Hp. }
  rewrite (map_ext_in _ (fun p => particle_weight p * exp (- mx))%R samples Hexp).
  rewrite py_sum_map_mult. apply map_ext_in. intros p Hp. rewrite (Hexp p Hp).
  pose proof (exp_pos (- mx)) as Hmx. field. split; lra.
Qed.

(** X20: in a round with candidates, all of tally count at least 1, the
    probability with which a candidate is resampled is its frequency
    times [exp(-distance)], divided by the sum of that over the
    candidates.  So a candidate that is at least as frequent as another
    and at most as distant is at least as probable.  (The order is not
    strict: this is what remains true when [exp] underflows.) *)
Theorem resample_weights (samples : list Particle) :
  samples <> [] ->
  Forall (fun p => 0 < frequency p) samples ->
  exists lws ps,
    logWeights samples = OK lws /\
    normalize lws = OK ps /\
    ps = map (fun p => particle_weight p / py_sum (map particle_weight samples))%R
             samples /\
    forall i j p q x y,
      samples !! i = Some p -> samples !! j = Some q ->
      ps !! i = Some x -> ps !! j = Some y ->
      frequency p <= frequency q ->
      (Particle_distance q <= Particle_distance p)%R ->
      (x <= y)%R.
Proof.
  intros Hne Hpos.
  destruct (resample_closed_form samples Hne Hpos) as (Hsum & lws & Hlws & Hps).
  exists lws,
    (map (fun p => particle_weight p / py_sum (map particle_weight samples))%R
         samples).
  split; [exact Hlws|]. split; [exact Hps|]. split; [reflexivity|].
  intros i j p q x y Hp Hq Hx Hy Hf Hd.
  change (map ?f ?l) with (f <$> l) in Hx, Hy.
  rewrite list_lookup_fmap in Hx, Hy. rewrite Hp in Hx. rewrite Hq in Hy.
  injection Hx as <-. injection Hy as <-.
  assert (0 < frequency p) as Hfp.
  { rewrite List.Forall_forall in Hpos.
    apply Hpos. eapply list_elem_of_In, list_elem_of_lookup_2, Hp. }
  unfold Rdiv. apply Rmult_le_compat_r.
  { apply Rlt_le, Rinv_0_lt_compat, Hsum. }
  unfold particle_weight. apply Rmult_le_compat.
  - apply IZR_le. lia.
  - apply Rlt_le, exp_pos.
  - apply IZR_le, Hf.
  - destruct (Rle_lt_or_eq_dec _ _ Hd) as [Hlt| ->]; [|lra].
    apply Rlt_le, exp_increasing. lra.
Qed.

End Weights.

(** Three candidates: the graph of [a] with frequency 1 and distance 1,
    the graph of [b] with frequency 1 and distance 0, and a graph of
    both with frequency 2 and distance 0. *)
Definition demo_candidates : list DemoParticle :=
  [mkParticle 1 demo_graph_a 1%R; mkParticle 1 demo_graph_b 0%R;
   mkParticle 2 demo_graph_ab1 0%R].

Lemma resample_weights_witness :
  exists lws ps,
    logWeights demo_candidates = OK lws /\
    normalize lws = OK ps /\
    ps = map (fun p => particle_weight p
                       / py_sum (map particle_weight demo_candidates))%R
             demo_candidates /\
    (forall i j (p q : DemoParticle) x y,
        demo_candidates !! i = Some p -> demo_candidates !! j = Some q ->
        ps !! i = Some x -> ps !! j = Some y ->
        frequency p <= frequency q ->
        (Particle_distance q <= Particle_distance p)%R ->
        (x <= y)%R) /\
    exists x y z,
      ps !! 0%nat = Some x /\ ps !! 1%nat = Some y /\ ps !! 2%nat = Some z /\
      (x <= y)%R /\ (y <= z)%R.
Proof.
  assert (demo_candidates <> []) as Hne by discriminate.
  assert (Forall (fun p : DemoParticle => 0 < frequency p) demo_candidates) as Hpos
    by (repeat constructor).
  destruct (resample_weights demo_candidates Hne Hpos)
    as (lws & ps & Hlws & Hps & Heq & Horder).
  exists lws, ps. split; [exact Hlws|]. split; [exact Hps|].
  split; [exact Heq|]. split; [exact Horder|].
  assert (exists x y z, ps !! 0%nat = Some x /\ ps !! 1%nat = Some y /\
                        ps !! 2%nat = Some z) as (x & y & z & Hx & Hy & Hz).
  { rewrite Heq. eexists _, _, _. repeat split. }
  exists x, y, z. split; [exact Hx|]. split; [exact Hy|]. split; [exact Hz|].
  split.
  - apply (Horder 0%nat 1%nat _ _ x y eq_refl eq_refl Hx Hy); simpl; [lia|lra].
  - apply (Horder 1%nat 2%nat _ _ y z eq_refl eq_refl Hy Hz); simpl; [lia|lra].
Defined.

(** * The resampling phase, end to end *)

Section ResampleSpec.

Context {Node : Type} `{NodeCountable : Countable Node}.
Context {Spec Val SpecEnc Hidden World : Type}.
Variable execute : Node -> Val.
Variable multinomial : Z -> list R -> World -> result (list Z * World).

Local Abbreviation SMC := (@SMC Node Spec Val SpecEnc Hidden World).
Local Abbreviation State := (@State Node _ _ World).
Local Abbreviation Particle := (@Particle Node _ _).
Local Abbreviation tally := (@tally Node _ _).


End ResampleSpec.

